(** * COV: city-chunk streaming and the follow camera of [main.js]

    A shallow embedding of the streaming and camera code of [main.js]
    (the second, current block of the file: [CHUNK_SIZE = 32],
    [CHUNK_RADIUS = 1]) together with the properties stated for it.

    Numbers.  A JavaScript number is modelled as an extended real: a finite
    real, [NaN], [+Infinity] or [-Infinity].  Arithmetic on finite values is
    exact: rounding, overflow and the sign of zero are not modelled.  The
    results of [Math.floor] and the loop counters derived from them are
    integral, and are kept in the same four-way type over [Z].

    Exact arithmetic stands for the arithmetic of doubles as long as
    rounding only moves a value.  It does not where rounding decides whether
    a loop ends: a counter [x++] no longer advances from [2 ^ 53] on, and
    subtracting [2 * PI] no longer changes an angle of that size.  What is
    proved of the loops is therefore stated within [Streaming.inRange]
    (chunk indices) and [Camera.inAngleRange] (angle differences). *)

From Stdlib Require Import Reals Lra ZArith Lia.
From stdpp Require Import gmap list.

(** ** JavaScript numbers *)

Inductive ext (A : Type) : Type :=
| Fin (a : A)
| NaN
| PInf
| NInf.

Arguments Fin {A} a.
Arguments NaN {A}.
Arguments PInf {A}.
Arguments NInf {A}.

Definition isFinite {A} (v : ext A) : bool :=
  match v with Fin _ => true | _ => false end.

Definition isInfinite {A} (v : ext A) : bool :=
  match v with PInf | NInf => true | _ => false end.

(** Numbers in general, and the integral ones. *)
Abbreviation num := (ext R).
Abbreviation idx := (ext Z).

Module Num.
Local Open Scope R_scope.

Definition Rsign (r : R) : comparison :=
  if Rlt_dec r 0 then Lt else if Rlt_dec 0 r then Gt else Eq.

Definition neg (a : num) : num :=
  match a with
  | Fin x => Fin (- x)
  | NaN => NaN
  | PInf => NInf
  | NInf => PInf
  end.

Definition add (a b : num) : num :=
  match a, b with
  | Fin x, Fin y => Fin (x + y)
  | NaN, _ | _, NaN => NaN
  | PInf, NInf | NInf, PInf => NaN
  | PInf, _ | _, PInf => PInf
  | NInf, _ | _, NInf => NInf
  end.

Definition sub (a b : num) : num := add a (neg b).

Definition scale_inf (pos : bool) (x : R) : num :=
  match Rsign x with
  | Gt => if pos then PInf else NInf
  | Lt => if pos then NInf else PInf
  | Eq => NaN
  end.

Definition mul (a b : num) : num :=
  match a, b with
  | Fin x, Fin y => Fin (x * y)
  | NaN, _ | _, NaN => NaN
  | Fin x, PInf | PInf, Fin x => scale_inf true x
  | Fin x, NInf | NInf, Fin x => scale_inf false x
  | PInf, PInf | NInf, NInf => PInf
  | PInf, NInf | NInf, PInf => NInf
  end.

Definition div (a b : num) : num :=
  match a, b with
  | Fin x, Fin y => if Req_dec_T y 0 then scale_inf true x else Fin (x / y)
  | NaN, _ | _, NaN => NaN
  | Fin _, (PInf | NInf) => Fin 0
  | PInf, Fin y => if Rlt_dec y 0 then NInf else PInf
  | NInf, Fin y => if Rlt_dec y 0 then PInf else NInf
  | (PInf | NInf), (PInf | NInf) => NaN
  end.

(** [a < b]; every comparison with [NaN] is false. *)
Definition ltb (a b : num) : bool :=
  match a, b with
  | Fin x, Fin y => if Rlt_dec x y then true else false
  | NaN, _ | _, NaN => false
  | _, NInf => false
  | NInf, _ => true
  | PInf, _ => false
  | _, PInf => true
  end.

Definition gtb (a b : num) : bool := ltb b a.

(** [Math.max] and [Math.min]: [NaN] if either argument is. *)
Definition Math_max (a b : num) : num :=
  match a, b with
  | NaN, _ | _, NaN => NaN
  | _, _ => if ltb a b then b else a
  end.

Definition Math_min (a b : num) : num :=
  match a, b with
  | NaN, _ | _, NaN => NaN
  | _, _ => if ltb b a then b else a
  end.

Definition Math_sin (a : num) : num :=
  match a with Fin x => Fin (sin x) | _ => NaN end.

Definition Math_cos (a : num) : num :=
  match a with Fin x => Fin (cos x) | _ => NaN end.

Definition Math_PI : num := Fin PI.

Definition is_integer (y : R) : bool :=
  if Req_dec_T (IZR (Int_part y)) y then true else false.

Definition is_odd_integer (y : R) : bool :=
  is_integer y && Z.odd (Int_part y).

(** [Math.pow] with an infinite exponent. *)
Definition pow_inf (pos : bool) (b : num) : num :=
  match b with
  | NaN => NaN
  | PInf | NInf => if pos then PInf else Fin 0
  | Fin x =>
      if Rlt_dec 1 (Rabs x) then (if pos then PInf else Fin 0)
      else if Rlt_dec (Rabs x) 1 then (if pos then Fin 0 else PInf)
      else NaN
  end.

(** [Math.pow b e], case by case as ECMAScript lists them; on a positive
    finite base and a finite exponent it is the real power. *)
Definition Math_pow (b e : num) : num :=
  match e with
  | NaN => NaN
  | PInf => pow_inf true b
  | NInf => pow_inf false b
  | Fin y =>
      match Rsign y with
      | Eq => Fin 1
      | sy =>
          let positive := match sy with Gt => true | _ => false end in
          match b with
          | NaN => NaN
          | PInf => if positive then PInf else Fin 0
          | NInf =>
              if positive then (if is_odd_integer y then NInf else PInf) else Fin 0
          | Fin x =>
              match Rsign x with
              | Eq => if positive then Fin 0 else PInf
              | Gt => Fin (Rpower x y)
              | Lt =>
                  if is_integer y then
                    Fin (if Z.odd (Int_part y) then - Rpower (- x) y else Rpower (- x) y)
                  else NaN
              end
          end
      end
  end.

(** [Math.floor]: the result is integral. *)
Definition Math_floor (a : num) : ext Z :=
  match a with
  | Fin x => Fin (Int_part x)
  | NaN => NaN
  | PInf => PInf
  | NInf => NInf
  end.
End Num.

(** ** Integral numbers: chunk indices and loop counters *)

Module Idx.
Local Open Scope Z_scope.

Definition plus (a b : idx) : idx :=
  match a, b with
  | Fin x, Fin y => Fin (x + y)
  | NaN, _ | _, NaN => NaN
  | PInf, NInf | NInf, PInf => NaN
  | PInf, _ | _, PInf => PInf
  | NInf, _ | _, NInf => NInf
  end.

Definition minus (a b : idx) : idx :=
  match a, b with
  | Fin x, Fin y => Fin (x - y)
  | NaN, _ | _, NaN => NaN
  | PInf, PInf | NInf, NInf => NaN
  | PInf, _ | _, NInf => PInf
  | NInf, _ | _, PInf => NInf
  end.

(** [a <= b]; false as soon as one side is [NaN]. *)
Definition leb (a b : idx) : bool :=
  match a, b with
  | Fin x, Fin y => x <=? y
  | NaN, _ | _, NaN => false
  | NInf, _ => true
  | _, PInf => true
  | _, _ => false
  end.

(** [a === b] on numbers: [NaN] is not equal to itself. *)
Definition eqb (a b : idx) : bool :=
  match a, b with
  | Fin x, Fin y => x =? y
  | PInf, PInf | NInf, NInf => true
  | _, _ => false
  end.

(** [x++], on integers without bound: that a double no longer advances
    from [2 ^ 53] on is not modelled, see [Streaming.inRange]. *)
Definition incr (a : idx) : idx := plus a (Fin 1).

(** [Math.abs] *)
Definition abs (a : idx) : idx :=
  match a with
  | Fin x => Fin (Z.abs x)
  | NaN => NaN
  | PInf | NInf => PInf
  end.
End Idx.

Global Instance ext_eq_dec {A} `{EqDecision A} : EqDecision (ext A).
Proof. solve_decision. Defined.

Definition ext_to_sum {A} (v : ext A) : A + nat :=
  match v with Fin a => inl a | NaN => inr 0 | PInf => inr 1 | NInf => inr 2 end.

Definition ext_of_sum {A} (s : A + nat) : ext A :=
  match s with inl a => Fin a | inr 0 => NaN | inr 1 => PInf | inr _ => NInf end.

Global Instance ext_countable {A} `{Countable A} : Countable (ext A).
Proof.
  apply (inj_countable' ext_to_sum ext_of_sum).
  intros []; reflexivity.
Defined.

(** ** Counted loops

    [for (i = lo; i <= hi; i++) body]: the counter is a number, so the loop
    need not terminate ([Infinity + 1] is [Infinity]); [fuel] bounds the
    number of tests of the loop condition, and [None] means it ran out. *)

Fixpoint for_le {S : Type} (fuel : nat) (i hi : idx)
    (body : idx -> S -> option S) (s : S) : option S :=
  match fuel with
  | O => None
  | Datatypes.S fuel' =>
      if Idx.leb i hi then
        match body i s with
        | Some s' => for_le fuel' (Idx.incr i) hi body s'
        | None => None
        end
      else Some s
  end.

(** A [THREE.Vector3]. *)
Record Vector3 : Type := mkVector3 { vx : num; vy : num; vz : num }.

(** ** The chunk streamer *)

Module Streaming.

(** World units per chunk, and chunks loaded around the player. *)
Definition CHUNK_SIZE : num := Fin 32%R.
Definition CHUNK_RADIUS : idx := Fin 1%Z.

(** The key [`${x},${z}`] of a chunk: the template string is determined
    by the two numbers, so the pair stands for it. *)
Abbreviation key := (idx * idx)%type.

(** A chunk is a [THREE.Group]; the model keeps its identity (the rank of
    the [buildCityChunk] call that made it) and the indices it was built
    for, not its meshes. *)
Record Group : Type := mkGroup {
  group_id : nat;
  group_cx : idx;
  group_cz : idx
}.

Global Instance Group_eq_dec : EqDecision Group.
Proof. solve_decision. Defined.

(** The module-level variables the streamer reads and writes. *)
Record State : Type := mkState {
  loadedChunks : gmap key Group;   (* key => THREE.Group *)
  lastChunkX : option idx;         (* [None] is [null] *)
  lastChunkZ : option idx;
  cityGroup : list Group;          (* children of the scene group *)
  built : nat;                     (* calls to [buildCityChunk] so far *)
  disposed : list Group            (* groups whose resources were released *)
}.

(** [let loadedChunks = new Map(); let lastChunkX = null, lastChunkZ = null;] *)
Definition initial : State :=
  mkState ∅ None None [] 0 [].

Definition set_last (cx cz : idx) (st : State) : State :=
  mkState (loadedChunks st) (Some cx) (Some cz) (cityGroup st) (built st) (disposed st).

Definition worldToChunk (x z : num) : idx * idx :=
  (Num.Math_floor (Num.div x CHUNK_SIZE), Num.Math_floor (Num.div z CHUNK_SIZE)).

(** [cx === lastChunkX], where the right side is [null] or a number. *)
Definition strict_eq (a : idx) (b : option idx) : bool :=
  match b with
  | Some b => Idx.eqb a b
  | None => false
  end.

Definition buildCityChunk (cx cz : idx) (st : State) : Group * State :=
  (mkGroup (built st) cx cz,
   mkState (loadedChunks st) (lastChunkX st) (lastChunkZ st) (cityGroup st)
           (S (built st)) (disposed st)).

(** The body of the inner loop: note the key as needed, and build the
    chunk when the table does not have it. *)
Definition loadChunk (x z : idx) (acc : gset key * State) : gset key * State :=
  let '(needed, st) := acc in
  let needed := {[ (x, z) ]} ∪ needed in
  match loadedChunks st !! (x, z) with
  | Some _ => (needed, st)
  | None =>
      let '(chunk, st) := buildCityChunk x z st in
      (needed,
       mkState (<[ (x, z) := chunk ]> (loadedChunks st)) (lastChunkX st) (lastChunkZ st)
               (cityGroup st ++ [chunk]) (built st) (disposed st))
  end.

(** The body of the unloading loop for one key of the snapshot. *)
Definition unloadChunk (needed : gset key) (st : State) (k : key) : State :=
  if decide (k ∈ needed) then st
  else
    match loadedChunks st !! k with
    | Some grp =>
        mkState (delete k (loadedChunks st)) (lastChunkX st) (lastChunkZ st)
                (filter (λ g, g ≠ grp) (cityGroup st)) (built st) (disposed st ++ [grp])
    | None =>
        mkState (delete k (loadedChunks st)) (lastChunkX st) (lastChunkZ st)
                (cityGroup st) (built st) (disposed st)
    end.

(** [for (const key of Array.from(loadedChunks.keys()))] *)
Definition unloadChunks (needed : gset key) (st : State) : State :=
  foldl (unloadChunk needed) st (map_to_list (loadedChunks st)).*1.

Definition origin : Vector3 := mkVector3 (Fin 0%R) (Fin 0%R) (Fin 0%R).

(** [character] is [None] when no character is loaded. *)
Definition updateCityStreaming (fuel : nat) (character : option Vector3)
    (st : State) : option State :=
  let pos := match character with Some p => p | None => origin end in
  let '(cx, cz) := worldToChunk (vx pos) (vz pos) in
  if strict_eq cx (lastChunkX st) && strict_eq cz (lastChunkZ st)
     && bool_decide (0 < size (loadedChunks st))
  then Some st
  else
    let st := set_last cx cz st in
    match
      for_le fuel (Idx.minus cx CHUNK_RADIUS) (Idx.plus cx CHUNK_RADIUS)
        (λ x, for_le fuel (Idx.minus cz CHUNK_RADIUS) (Idx.plus cz CHUNK_RADIUS)
                (λ z acc, Some (loadChunk x z acc)))
        (∅, st)
    with
    | Some (needed, st) => Some (unloadChunks needed st)
    | None => None
    end.

(** The part of [createCity] that resets the streamer: the scene group is
    emptied, the table cleared, the last chunk forgotten, and the nine
    chunks around the origin built. *)
Definition createCity_step (x z : Z) (st : State) : State :=
  match loadedChunks st !! (Fin x, Fin z) with
  | Some _ => st
  | None =>
      let '(chunk, st) := buildCityChunk (Fin x) (Fin z) st in
      mkState (<[ (Fin x, Fin z) := chunk ]> (loadedChunks st)) (lastChunkX st)
              (lastChunkZ st) (cityGroup st ++ [chunk]) (built st) (disposed st)
  end.

Definition createCity (st : State) : State :=
  let st := mkState ∅ None None [] (built st) (disposed st ++ rev (cityGroup st)) in
  foldl (λ st x, foldl (λ st z, createCity_step x z st) st [-1; 0; 1]%Z)
        st [-1; 0; 1]%Z.

(** *** Definitions used to state the streamer's properties *)

(** The keys of the square of side three around a chunk, in loop order. *)
Definition square (cx cz : Z) : list key :=
  x ← seqZ (cx - 1) 3; z ← seqZ (cz - 1) 3; [(Fin x, Fin z)].

Definition loadAll (l : list key) (acc : gset key * State) : gset key * State :=
  foldl (fun acc k => loadChunk k.1 k.2 acc) acc l.

(** The chunks around a centre, written out. *)
Definition around (cx cz : Z) : list key :=
  [(Fin (cx - 1), Fin (cz - 1)); (Fin (cx - 1), Fin cz); (Fin (cx - 1), Fin (cz + 1));
   (Fin cx, Fin (cz - 1)); (Fin cx, Fin cz); (Fin cx, Fin (cz + 1));
   (Fin (cx + 1), Fin (cz - 1)); (Fin (cx + 1), Fin cz); (Fin (cx + 1), Fin (cz + 1))]%Z.

(** The needed set around a chunk, as the specification words it: the
    square of Chebyshev radius one around [(cx, cz)].  No integer is within
    distance one of [NaN] or of an infinity, and the set is empty there. *)
Definition neededSet (cx cz : idx) : gset key :=
  match cx, cz with
  | Fin a, Fin b => list_to_set (square a b)
  | _, _ => ∅
  end.

(** The same set as a test on keys, evaluated as JavaScript does:
    [Math.abs(x - cx) <= CHUNK_RADIUS] and the same for [z]; a comparison
    with [NaN] is false. *)
Definition withinRadius (x cx : idx) : bool :=
  Idx.leb (Idx.abs (Idx.minus x cx)) CHUNK_RADIUS.

Definition isNeeded (c : idx * idx) (k : key) : bool :=
  withinRadius k.1 c.1 && withinRadius k.2 c.2.

(** The test that opens [updateCityStreaming]. *)
Definition sameChunk (cx cz : idx) (st : State) : bool :=
  strict_eq cx (lastChunkX st) && strict_eq cz (lastChunkZ st)
  && bool_decide (0 < size (loadedChunks st)).

(** What the two loading loops and the unloading loop do around a finite
    chunk. *)
Definition reconciled (cx cz : Z) (st : State) : State :=
  let acc := loadAll (square cx cz) (∅, set_last (Fin cx) (Fin cz) st) in
  unloadChunks acc.1 acc.2.

(** What they do when no key is needed: every chunk is unloaded. *)
Definition cleared (cx cz : idx) (st : State) : State :=
  unloadChunks ∅ (set_last cx cz st).

(** The positions that are not finite, by what the loops do on them: a
    [NaN] index makes a loop that is skipped, an infinite one a loop that
    does not end, and the loop on [x] comes first. *)
Definition unloadsAll (pos : Vector3) : Prop :=
  vx pos = NaN \/ (isFinite (vx pos) = true /\ vz pos = NaN).

Definition neverReturns (pos : Vector3) : Prop :=
  isInfinite (vx pos) = true \/ (isFinite (vx pos) = true /\ isInfinite (vz pos) = true).

(** When the last chunk is recorded and the table is not empty, the table
    holds the needed set of that chunk: this is what makes the early return
    of [updateCityStreaming] safe. *)
Definition tableMatchesLast (st : State) : Prop :=
  forall cx cz : idx,
    lastChunkX st = Some cx -> lastChunkZ st = Some cz ->
    0 < size (loadedChunks st) ->
    dom (loadedChunks st) = neededSet cx cz.

(** The states the program can be in: the module-level initial values, then
    any sequence of [createCity] and of completed [updateCityStreaming]
    calls. *)
Inductive reachable : State -> Prop :=
| reachable_initial : reachable initial
| reachable_createCity (st : State) :
    reachable st -> reachable (createCity st)
| reachable_update (fuel : nat) (character : option Vector3) (st st' : State) :
    reachable st ->
    updateCityStreaming fuel character st = Some st' ->
    reachable st'.

(** The chunk indices on which the counters of the model, integers without
    bound, stand for those of the program, which are doubles: [cx - 1],
    [cx + 1] and the [x++] that ends a loop are exact as long as they stay
    within [2 ^ 53] in magnitude, that is up to [2 ^ 53 - 2] for [cx].  An
    index that is not finite involves no counting. *)
Definition MAX_CHUNK_INDEX : Z := 9007199254740990.

Definition exactIndex (c : idx) : Prop :=
  match c with
  | Fin a => (- MAX_CHUNK_INDEX <= a <= MAX_CHUNK_INDEX)%Z
  | _ => True
  end.

(** The positions whose chunk indices are in that range. *)
Definition inRange (pos : Vector3) : Prop :=
  exactIndex (fst (worldToChunk (vx pos) (vz pos))) /\
  exactIndex (snd (worldToChunk (vx pos) (vz pos))).

(** The states the program can reach by calls at such positions. *)
Inductive reachableInRange : State -> Prop :=
| reachableInRange_initial : reachableInRange initial
| reachableInRange_createCity (st : State) :
    reachableInRange st -> reachableInRange (createCity st)
| reachableInRange_update (fuel : nat) (character : option Vector3) (st st' : State) :
    reachableInRange st ->
    inRange (match character with Some p => p | None => origin end) ->
    updateCityStreaming fuel character st = Some st' ->
    reachableInRange st'.
End Streaming.

(** ** The follow camera *)

Module Camera.

Definition POINTER_SENSITIVITY : num := Fin 0.0018%R.
Definition DEFAULT_CAMERA_FOLLOW_HEIGHT : num := Fin 4.25%R.
Definition DEFAULT_CAMERA_FOLLOW_DISTANCE : num := Fin 8.14%R.

(** [CAMERA_PITCH_RANGE_DEG = { min: -30, max: 60 }] *)
Definition CAMERA_PITCH_RANGE_DEG_min : num := Fin (-30)%R.
Definition CAMERA_PITCH_RANGE_DEG_max : num := Fin 60%R.
Definition MIN_CAMERA_ABOVE_CHARACTER : num := Fin 0.6%R.
Definition DEFAULT_CAMERA_PITCH_DEG : num := Fin 23%R.

(** Degrees to radians, [deg * Math.PI / 180]. *)
Definition deg2rad (deg : num) : num :=
  Num.div (Num.mul deg Num.Math_PI) (Fin 180%R).

(** The module-level variables of the camera rig, with the position of the
    camera and the target of the orbit controls. *)
Record Rig : Type := mkRig {
  isPointerLocked : bool;
  skipNextMouseDelta : bool;
  cameraYaw : num;
  cameraPitch : num;
  movementYaw : num;
  cameraFollowHeight : num;
  cameraFollowDistance : num;
  camera_position : Vector3;
  controls_target : Vector3
}.

(** The values the variables are declared with; the pitch is then set from
    [DEFAULT_CAMERA_PITCH_DEG].  The camera starts at [DEFAULT_CAMERA_POS],
    looking at [(0, 1, 0)]. *)
Definition initialRig : Rig :=
  mkRig false false (Fin 0%R) (deg2rad DEFAULT_CAMERA_PITCH_DEG) (Fin 0%R)
        DEFAULT_CAMERA_FOLLOW_HEIGHT DEFAULT_CAMERA_FOLLOW_DISTANCE
        (mkVector3 (Fin 0%R) (Fin 4.5%R) (Fin 7.4%R))
        (mkVector3 (Fin 0%R) (Fin 1%R) (Fin 0%R)).

(** *** Pointer lock and mouse look *)

(** [onPointerLockChange], with [locked] the value of
    [document.pointerLockElement === canvas]. *)
Definition onPointerLockChange (locked : bool) (s : Rig) : Rig :=
  mkRig locked (if locked then true else skipNextMouseDelta s)
        (cameraYaw s) (cameraPitch s) (movementYaw s)
        (cameraFollowHeight s) (cameraFollowDistance s)
        (camera_position s) (controls_target s).

(** A mouse event: [movementX] and [movementY] are numbers, or [undefined]
    ([None]) where the browser does not provide them. *)
Record MouseEvent : Type := mkMouseEvent {
  movementX : option num;
  movementY : option num
}.

(** [v || 0]: [undefined], [NaN] and zero are falsy. *)
Definition or_zero (v : option num) : num :=
  match v with
  | None => Fin 0%R
  | Some NaN => Fin 0%R
  | Some w => w
  end.

Definition maxDelta : num := Fin 30%R.

(** [Math.max(-maxDelta, Math.min(maxDelta, v || 0))] *)
Definition clampDelta (v : option num) : num :=
  Num.Math_max (Num.neg maxDelta) (Num.Math_min maxDelta (or_zero v)).

Definition minPitch : num := deg2rad CAMERA_PITCH_RANGE_DEG_min.
Definition maxPitch : num := deg2rad CAMERA_PITCH_RANGE_DEG_max.

(** The [mousemove] listener. *)
Definition mousemove (e : MouseEvent) (s : Rig) : Rig :=
  if negb (isPointerLocked s) then s
  else if skipNextMouseDelta s then
    mkRig (isPointerLocked s) false (cameraYaw s) (cameraPitch s) (movementYaw s)
          (cameraFollowHeight s) (cameraFollowDistance s)
          (camera_position s) (controls_target s)
  else
    let dx := clampDelta (movementX e) in
    let dy := clampDelta (movementY e) in
    let yaw := Num.sub (cameraYaw s) (Num.mul dx POINTER_SENSITIVITY) in
    let pitch := Num.sub (cameraPitch s) (Num.mul dy POINTER_SENSITIVITY) in
    let pitch := Num.Math_max minPitch (Num.Math_min maxPitch pitch) in
    mkRig (isPointerLocked s) (skipNextMouseDelta s) yaw pitch (movementYaw s)
          (cameraFollowHeight s) (cameraFollowDistance s)
          (camera_position s) (controls_target s).

(** *** Angles *)

Definition two_pi : num := Num.mul (Fin 2%R) Num.Math_PI.

(** [while (delta > Math.PI) delta -= 2 * Math.PI;] *)
Fixpoint while_above (fuel : nat) (delta : num) : option num :=
  match fuel with
  | O => None
  | S fuel' =>
      if Num.gtb delta Num.Math_PI then while_above fuel' (Num.sub delta two_pi)
      else Some delta
  end.

(** [while (delta < -Math.PI) delta += 2 * Math.PI;] *)
Fixpoint while_below (fuel : nat) (delta : num) : option num :=
  match fuel with
  | O => None
  | S fuel' =>
      if Num.ltb delta (Num.neg Num.Math_PI) then while_below fuel' (Num.add delta two_pi)
      else Some delta
  end.

(** [fuel] bounds the number of tests of each loop condition; [None] means a
    loop ran out of it.  The subtraction is exact: that [delta - 2 * PI] is
    [delta] again on a large double is not modelled, see [inAngleRange]. *)
Definition angleDelta (fuel : nat) (current target : num) : option num :=
  let delta := Num.sub target current in
  match while_above fuel delta with
  | Some delta => while_below fuel delta
  | None => None
  end.

Definition smoothAngleTowards (fuel : nat) (current target alpha : num) : option num :=
  match angleDelta fuel current target with
  | Some d =>
      Some (Num.add current
              (Num.mul d (Num.Math_min (Fin 1%R) (Num.Math_max (Fin 0%R) alpha))))
  | None => None
  end.

(** *** The camera part of [updateCharacterMovement]

    From "Apply mouse-look yaw/pitch" to the two [lerp] calls; [pos] is
    [character.position]. *)

Definition desiredCameraPos (pos : Vector3) (s : Rig) : Vector3 :=
  let thirdPersonDistance := cameraFollowDistance s in
  let thirdPersonHeight := cameraFollowHeight s in
  let baseYaw := cameraYaw s in
  let basePitch := cameraPitch s in
  let cosPitch := Num.Math_cos basePitch in
  let sinPitch := Num.Math_sin basePitch in
  let offsetX :=
    Num.mul (Num.mul (Num.Math_sin baseYaw) (Num.neg thirdPersonDistance)) cosPitch in
  let offsetZ :=
    Num.mul (Num.mul (Num.Math_cos baseYaw) (Num.neg thirdPersonDistance)) cosPitch in
  let offsetY := Num.add thirdPersonHeight (Num.mul thirdPersonDistance sinPitch) in
  let minY := MIN_CAMERA_ABOVE_CHARACTER in
  let offsetY := if Num.ltb offsetY minY then minY else offsetY in
  mkVector3 (Num.add (vx pos) offsetX) (Num.add (vy pos) offsetY) (Num.add (vz pos) offsetZ).

(** [character.position.clone().add(new THREE.Vector3(0, Math.max(1.0,
    cameraFollowHeight * 0.4), 0))] *)
Definition desiredTarget (pos : Vector3) (s : Rig) : Vector3 :=
  mkVector3 (Num.add (vx pos) (Fin 0%R))
            (Num.add (vy pos)
               (Num.Math_max (Fin 1%R) (Num.mul (cameraFollowHeight s) (Fin 0.4%R))))
            (Num.add (vz pos) (Fin 0%R)).

Definition baseAlpha (s : Rig) : num :=
  if isPointerLocked s then Fin 0.22%R else Fin 0.16%R.

(** [1 - Math.pow(1 - baseAlpha, Math.max(0.0001, delta) * 60)] *)
Definition smoothingAlpha (s : Rig) (delta : num) : num :=
  Num.sub (Fin 1%R)
    (Num.Math_pow (Num.sub (Fin 1%R) (baseAlpha s))
                  (Num.mul (Num.Math_max (Fin 0.0001%R) delta) (Fin 60%R))).

(** [THREE.Vector3.lerp]: [this.x += (v.x - this.x) * alpha], and the same
    for [y] and [z]. *)
Definition lerp (this v : Vector3) (alpha : num) : Vector3 :=
  mkVector3 (Num.add (vx this) (Num.mul (Num.sub (vx v) (vx this)) alpha))
            (Num.add (vy this) (Num.mul (Num.sub (vy v) (vy this)) alpha))
            (Num.add (vz this) (Num.mul (Num.sub (vz v) (vz this)) alpha)).

Definition followCamera (pos : Vector3) (delta : num) (s : Rig) : Rig :=
  let alpha := smoothingAlpha s delta in
  mkRig (isPointerLocked s) (skipNextMouseDelta s) (cameraYaw s) (cameraPitch s)
        (movementYaw s) (cameraFollowHeight s) (cameraFollowDistance s)
        (lerp (camera_position s) (desiredCameraPos pos s) alpha)
        (lerp (controls_target s) (desiredTarget pos s) alpha).

(** *** Definitions used to state the camera's properties *)

(** The pitch is a finite angle of the configured range, in radians. *)
Definition pitchInRange (s : Rig) : Prop :=
  exists p : R,
    cameraPitch s = Fin p /\ (-30 * PI / 180 <= p <= 60 * PI / 180)%R.

(** The interpolation factor as the specification words it, on the clamped
    frame time: [1 - (1 - baseAlpha) ^ (deltaTime * 60)]. *)
Definition alphaOf (locked : bool) (delta : R) : R :=
  (1 - Rpower (1 - (if locked then 0.22 else 0.16)) (Rmax 0.0001 delta * 60))%R.

(** A vector of finite components. *)
Definition vec3 (x y z : R) : Vector3 := mkVector3 (Fin x) (Fin y) (Fin z).


(** The differences of angles on which the exact subtraction of the model
    stands for that of doubles: at this size subtracting [2 * PI] changes a
    double, which it no longer does from about [2 ^ 53] on. *)
Definition ANGLE_RANGE : R := 1000000%R.

Definition inAngleRange (current target : R) : Prop :=
  (- ANGLE_RANGE <= target - current <= ANGLE_RANGE)%R.



End Camera.

(** ** Lobby and game: the callers of the streamer *)

Module Session.
Import Streaming.

(** The part of [returnToLobby] that touches the city: the children of the
    scene group are popped and disposed of one by one.  Neither
    [loadedChunks] nor the last chunk is reset here. *)
Definition returnToLobby (st : State) : State :=
  mkState (loadedChunks st) (lastChunkX st) (lastChunkZ st) []
          (built st) (disposed st ++ rev (cityGroup st)).

(** The streamer together with the flag that gates the frame update. *)
Record Game : Type := mkGame {
  world : State;
  isInGame : bool
}.

Definition start : Game := mkGame initial false.

(** One event of a session.  [createCity] ends with [isInGame = true],
    [returnToLobby] with [isInGame = false], and [animate] calls
    [updateCharacterMovement], hence [updateCityStreaming], only while
    [isInGame] holds and a character is loaded. *)
Inductive step : Game -> Game -> Prop :=
| step_createCity (g : Game) :
    step g (mkGame (createCity (world g)) true)
| step_returnToLobby (g : Game) :
    step g (mkGame (returnToLobby (world g)) false)
| step_frame (g : Game) (fuel : nat) (pos : Vector3) (st' : State) :
    isInGame g = true ->
    updateCityStreaming fuel (Some pos) (world g) = Some st' ->
    step g (mkGame st' true).

(** The games a session can reach. *)
Inductive playable : Game -> Prop :=
| playable_start : playable start
| playable_step (g g' : Game) : playable g -> step g g' -> playable g'.

(** The games a session can reach when every frame finds the avatar at a
    position whose chunk indices the loop counters hold exactly. *)
Inductive playableInRange : Game -> Prop :=
| playableInRange_start : playableInRange start
| playableInRange_createCity (g : Game) :
    playableInRange g -> playableInRange (mkGame (createCity (world g)) true)
| playableInRange_returnToLobby (g : Game) :
    playableInRange g -> playableInRange (mkGame (returnToLobby (world g)) false)
| playableInRange_frame (g : Game) (fuel : nat) (pos : Vector3) (st' : State) :
    playableInRange g ->
    isInGame g = true ->
    inRange pos ->
    updateCityStreaming fuel (Some pos) (world g) = Some st' ->
    playableInRange (mkGame st' true).

(** Every group that was ever added to the scene or disposed of has an
    identity of its own, below the build counter: no group is in the scene
    twice, none is disposed of twice, none is in the scene once disposed
    of.  And every group built is accounted for: it is in the scene or it
    has been disposed of. *)
Definition identitiesOk (st : State) : Prop :=
  NoDup (group_id <$> (cityGroup st ++ disposed st)) /\
  (forall g : Group, g ∈ cityGroup st ++ disposed st -> group_id g < built st) /\
  built st = length (cityGroup st) + length (disposed st).

(** The scene shows the table: the children of the scene group are the
    groups of the table, each once, and the group under a key was built for
    the indices of that key. *)
Definition sceneShowsTable (st : State) : Prop :=
  cityGroup st ≡ₚ (map_to_list (loadedChunks st)).*2 /\
  (forall (k : key) (g : Group),
      loadedChunks st !! k = Some g -> group_cx g = k.1 /\ group_cz g = k.2).

(** The key of a pair of integers. *)
Definition pairKey (p : Z * Z) : key := (Fin p.1, Fin p.2).

End Session.

(** ** The camera tuning panel *)

Module Tuning.
Import Camera.

(** [clampNumber]: [Math.min(max, Math.max(min, value))] *)
Definition clampNumber (value min max : num) : num :=
  Num.Math_min max (Num.Math_max min value).

(** [CAMERA_HEIGHT_RANGE] and [CAMERA_DISTANCE_RANGE] *)
Definition CAMERA_HEIGHT_RANGE_min : num := Fin 0.8%R.
Definition CAMERA_HEIGHT_RANGE_max : num := Fin 8.0%R.
Definition CAMERA_DISTANCE_RANGE_min : num := Fin 4.0%R.
Definition CAMERA_DISTANCE_RANGE_max : num := Fin 14.0%R.

Definition set_height (h : num) (s : Rig) : Rig :=
  mkRig (isPointerLocked s) (skipNextMouseDelta s) (cameraYaw s) (cameraPitch s)
        (movementYaw s) h (cameraFollowDistance s) (camera_position s) (controls_target s).

Definition set_distance (d : num) (s : Rig) : Rig :=
  mkRig (isPointerLocked s) (skipNextMouseDelta s) (cameraYaw s) (cameraPitch s)
        (movementYaw s) (cameraFollowHeight s) d (camera_position s) (controls_target s).

Definition set_pitch (p : num) (s : Rig) : Rig :=
  mkRig (isPointerLocked s) (skipNextMouseDelta s) (cameraYaw s) p
        (movementYaw s) (cameraFollowHeight s) (cameraFollowDistance s)
        (camera_position s) (controls_target s).

(** The [input] listeners of the three sliders; [v] is
    [parseFloat(slider.value)], a number or [NaN]. *)
Definition heightSlider_input (v : num) (s : Rig) : Rig :=
  set_height (clampNumber v CAMERA_HEIGHT_RANGE_min CAMERA_HEIGHT_RANGE_max) s.

Definition distanceSlider_input (v : num) (s : Rig) : Rig :=
  set_distance (clampNumber v CAMERA_DISTANCE_RANGE_min CAMERA_DISTANCE_RANGE_max) s.

Definition pitchSlider_input (v : num) (s : Rig) : Rig :=
  let deg := clampNumber v CAMERA_PITCH_RANGE_DEG_min CAMERA_PITCH_RANGE_DEG_max in
  set_pitch (deg2rad deg) s.

(** The [click] listener of the cancel button: back to the defaults. *)
Definition cancel_click (s : Rig) : Rig :=
  set_pitch (deg2rad (Fin 23%R))
    (set_distance DEFAULT_CAMERA_FOLLOW_DISTANCE
       (set_height DEFAULT_CAMERA_FOLLOW_HEIGHT s)).

(** The events that write the variables of the rig. *)
Inductive RigEvent : Type :=
| PointerLockChange (locked : bool)
| MouseMove (e : MouseEvent)
| HeightInput (v : num)
| DistanceInput (v : num)
| PitchInput (v : num)
| CancelClick.

Definition handle (ev : RigEvent) (s : Rig) : Rig :=
  match ev with
  | PointerLockChange locked => onPointerLockChange locked s
  | MouseMove e => mousemove e s
  | HeightInput v => heightSlider_input v s
  | DistanceInput v => distanceSlider_input v s
  | PitchInput v => pitchSlider_input v s
  | CancelClick => cancel_click s
  end.

(** A slider event whose value did not parse carries [NaN]. *)
Definition parsed (ev : RigEvent) : Prop :=
  match ev with
  | HeightInput v | DistanceInput v | PitchInput v => v <> NaN
  | _ => True
  end.

(** The rig within its configured ranges. *)
Definition rigInRange (s : Rig) : Prop :=
  pitchInRange s /\
  (exists y : R, cameraYaw s = Fin y) /\
  (exists h : R, cameraFollowHeight s = Fin h /\ (0.8 <= h <= 8)%R) /\
  (exists d : R, cameraFollowDistance s = Fin d /\ (4 <= d <= 14)%R).

End Tuning.

(** ** Walking *)

Module Movement.
Import Camera.

Definition MOVE_SPEED : num := Fin 5%R.
Definition SPRINT_MULTIPLIER : num := Fin 2%R.

(** The first two statements of [updateCharacterMovement]: the yaw used for
    walking follows the camera yaw, and is reset to it when it is not a
    finite number. *)
Definition set_movementYaw (m : num) (s : Rig) : Rig :=
  mkRig (isPointerLocked s) (skipNextMouseDelta s) (cameraYaw s) (cameraPitch s)
        m (cameraFollowHeight s) (cameraFollowDistance s)
        (camera_position s) (controls_target s).

Definition filterMovementYaw (fuel : nat) (s : Rig) : option Rig :=
  let m := if isFinite (movementYaw s) then movementYaw s else cameraYaw s in
  match smoothAngleTowards fuel m (cameraYaw s) (Fin 0.18%R) with
  | Some m' => Some (set_movementYaw m' s)
  | None => None
  end.


(** [Math.sqrt] *)
Definition Math_sqrt (a : num) : num :=
  match a with
  | Fin x => if Rlt_dec x 0 then NaN else Fin (sqrt x)
  | PInf => PInf
  | _ => NaN
  end.

(** The methods of [THREE.Vector3] the walk uses. *)
Definition v_add (a b : Vector3) : Vector3 :=
  mkVector3 (Num.add (vx a) (vx b)) (Num.add (vy a) (vy b)) (Num.add (vz a) (vz b)).

Definition v_sub (a b : Vector3) : Vector3 :=
  mkVector3 (Num.sub (vx a) (vx b)) (Num.sub (vy a) (vy b)) (Num.sub (vz a) (vz b)).

Definition multiplyScalar (a : Vector3) (s : num) : Vector3 :=
  mkVector3 (Num.mul (vx a) s) (Num.mul (vy a) s) (Num.mul (vz a) s).

Definition lengthSq (a : Vector3) : num :=
  Num.add (Num.add (Num.mul (vx a) (vx a)) (Num.mul (vy a) (vy a)))
          (Num.mul (vz a) (vz a)).

Definition length (a : Vector3) : num := Math_sqrt (lengthSq a).

(** [this.divideScalar(this.length() || 1)], with
    [divideScalar(s) = multiplyScalar(1 / s)]. *)
Definition normalize (a : Vector3) : Vector3 :=
  let len := length a in
  let s := match len with
           | NaN => Fin 1%R
           | Fin l => if Req_dec_T l 0 then Fin 1%R else len
           | _ => len
           end in
  multiplyScalar a (Num.div (Fin 1%R) s).

Definition crossVectors (a b : Vector3) : Vector3 :=
  mkVector3 (Num.sub (Num.mul (vy a) (vz b)) (Num.mul (vz a) (vy b)))
            (Num.sub (Num.mul (vz a) (vx b)) (Num.mul (vx a) (vz b)))
            (Num.sub (Num.mul (vx a) (vy b)) (Num.mul (vy a) (vx b))).

(** [keysPressed], read for its truth value. *)
Record Keys : Type := mkKeys {
  key_w : bool; key_a : bool; key_s : bool; key_d : bool; key_shift : bool
}.

Definition zero3 : Vector3 := mkVector3 (Fin 0%R) (Fin 0%R) (Fin 0%R).

(** The direction asked for by the keys, before it is normalised. *)
Definition moveDirection (yaw : num) (keys : Keys) : Vector3 :=
  let forward := mkVector3 (Num.Math_sin yaw) (Fin 0%R) (Num.Math_cos yaw) in
  let right := normalize (crossVectors (mkVector3 (Fin 0%R) (Fin 1%R) (Fin 0%R)) forward) in
  let move := zero3 in
  let move := if key_w keys then v_add move forward else move in
  let move := if key_s keys then v_sub move forward else move in
  let move := if key_a keys then v_add move right else move in
  let move := if key_d keys then v_sub move right else move in
  move.

(** [move.lengthSq() > 1e-6] *)
Definition isMoving (move : Vector3) : bool :=
  Num.gtb (lengthSq move) (Fin 0.000001%R).

(** The walk of one frame: the new [character.position]. *)
Definition walk (yaw : num) (keys : Keys) (delta : num) (pos : Vector3) : Vector3 :=
  let move := moveDirection yaw keys in
  if isMoving move then
    let speed :=
      Num.mul MOVE_SPEED
        (if key_shift keys && key_w keys then SPRINT_MULTIPLIER else Fin 1%R) in
    v_add pos (multiplyScalar (normalize move) (Num.mul speed delta))
  else pos.

(** The speed the keys ask for, in units per second. *)
Definition speedOf (keys : Keys) : R :=
  if key_shift keys && key_w keys then 10%R else 5%R.

(** What the keys ask for along [forward] and along [right]: [w] against
    [s], and [a] against [d]. *)
Definition ahead (keys : Keys) : R :=
  ((if key_w keys then 1 else 0) - (if key_s keys then 1 else 0))%R.

Definition aside (keys : Keys) : R :=
  ((if key_a keys then 1 else 0) - (if key_d keys then 1 else 0))%R.

(** The keys ask for a direction: forward and backward do not cancel, or
    left and right do not. *)
Definition asksToMove (keys : Keys) : bool :=
  xorb (key_w keys) (key_s keys) || xorb (key_a keys) (key_d keys).

End Movement.

(** ** What a chunk is made of *)

Module Layout.

Definition CHUNK_SIZE : R := 32%R.

(** A horizontal rectangle ([PlaneGeometry], turned flat) and a box
    ([BoxGeometry]), each by its centre and its sizes along the axes. *)
Record Plane : Type := mkPlane {
  plane_cx : R; plane_cz : R; plane_sx : R; plane_sz : R
}.

Record Box : Type := mkBox {
  box_cx : R; box_cy : R; box_cz : R; box_sx : R; box_sy : R; box_sz : R;
  box_material : Z
}.

(** The four calls of [Math.random] in [createBuildingMesh], in order. *)
Record Draws : Type := mkDraws {
  draw_height : R; draw_width : R; draw_depth : R; draw_material : R
}.

(** [Math.random] returns a number of [[0, 1)]. *)
Definition fair (r : Draws) : Prop :=
  (0 <= draw_height r < 1 /\ 0 <= draw_width r < 1 /\
   0 <= draw_depth r < 1 /\ 0 <= draw_material r < 1)%R.

Definition createBuildingMesh (x z blockSize : R) (r : Draws) : Box :=
  let buildingHeight := (draw_height r * 12 + 6)%R in
  let buildingWidth := (blockSize * (0.6 + draw_width r * 0.4))%R in
  let buildingDepth := (blockSize * (0.6 + draw_depth r * 0.4))%R in
  mkBox x (buildingHeight / 2) z buildingWidth buildingHeight buildingDepth
        (Int_part (draw_material r * 4)).

(** The contents of the group [buildCityChunk] returns for a chunk of
    finite indices: the ground, the two roads and the four buildings (the
    marker in the middle and the colours are left out). *)
Record Chunk : Type := mkChunk {
  ground : Plane;
  hRoad : Plane;
  vRoad : Plane;
  buildings : list Box
}.

Definition buildCityChunk (cx cz : Z) (r1 r2 r3 r4 : Draws) : Chunk :=
  let originX := (IZR cx * CHUNK_SIZE)%R in
  let originZ := (IZR cz * CHUNK_SIZE)%R in
  let blockSize := 10%R in
  mkChunk
    (mkPlane (originX + CHUNK_SIZE / 2) (originZ + CHUNK_SIZE / 2) CHUNK_SIZE CHUNK_SIZE)
    (mkPlane (originX + CHUNK_SIZE / 2) (originZ + CHUNK_SIZE / 2) CHUNK_SIZE 4)
    (mkPlane (originX + CHUNK_SIZE / 2) (originZ + CHUNK_SIZE / 2) 4 CHUNK_SIZE)
    [createBuildingMesh (originX + 8) (originZ + 8) blockSize r1;
     createBuildingMesh (originX + CHUNK_SIZE - 8) (originZ + 8) blockSize r2;
     createBuildingMesh (originX + 8) (originZ + CHUNK_SIZE - 8) blockSize r3;
     createBuildingMesh (originX + CHUNK_SIZE - 8) (originZ + CHUNK_SIZE - 8) blockSize r4].

(** A point lies on a rectangle, edges included. *)
Definition onPlane (p : Plane) (x z : R) : Prop :=
  (plane_cx p - plane_sx p / 2 <= x <= plane_cx p + plane_sx p / 2 /\
   plane_cz p - plane_sz p / 2 <= z <= plane_cz p + plane_sz p / 2)%R.

(** A point lies under a box, edges included. *)
Definition underBox (b : Box) (x z : R) : Prop :=
  (box_cx b - box_sx b / 2 <= x <= box_cx b + box_sx b / 2 /\
   box_cz b - box_sz b / 2 <= z <= box_cz b + box_sz b / 2)%R.

(** A box stands on the ground. *)
Definition grounded (b : Box) : Prop := (box_cy b - box_sy b / 2 = 0)%R.

End Layout.
(** * Properties *)

(** ** Loops over a finite range *)

Lemma for_le_ext {S : Type} (fuel : nat) (i hi : idx) (f g : idx -> S -> option S) (s : S) :
  (forall j t, f j t = g j t) ->
  for_le fuel i hi f s = for_le fuel i hi g s.
Proof.
  intros Hfg. revert i s.
  induction fuel as [|fuel IH]; intros i s; simpl; [reflexivity|].
  destruct (Idx.leb i hi); [|reflexivity].
  rewrite Hfg. destruct (g i s); [apply IH|reflexivity].
Qed.

(** A loop between two integers runs once per integer of the range, given
    one unit of fuel per test of its condition. *)
Lemma for_le_fin {S : Type} (f : idx -> S -> S) (fuel : nat) (lo hi : Z) (s : S) :
  (Z.to_nat (hi + 1 - lo) < fuel)%nat ->
  for_le fuel (Fin lo) (Fin hi) (fun i t => Some (f i t)) s
  = Some (foldl (fun t i => f (Fin i) t) s (seqZ lo (hi + 1 - lo))).
Proof.
  revert lo s.
  induction fuel as [|fuel IH]; intros lo s Hfuel; [lia|].
  simpl. destruct (Z.leb_spec lo hi) as [Hle|Hgt].
  - rewrite seqZ_cons by lia. simpl.
    replace (Z.pred (hi + 1 - lo)) with (hi + 1 - Z.succ lo)%Z by lia.
    replace (lo + 1)%Z with (Z.succ lo) by lia.
    apply IH. lia.
  - rewrite seqZ_nil by lia. reflexivity.
Qed.

(** A loop from an infinite counter whose bound it never exceeds does not
    end: the counter does not move. *)
Lemma for_le_stuck {S : Type} (f : idx -> S -> option S) (fuel : nat) (i hi : idx) (s : S) :
  Idx.incr i = i -> Idx.leb i hi = true ->
  for_le fuel i hi f s = None.
Proof.
  intros Hi Hle. revert s.
  induction fuel as [|fuel IH]; intros s; simpl; [reflexivity|].
  rewrite Hle, Hi. destruct (f i s); [apply IH|reflexivity].
Qed.

Lemma for_le_skip {S : Type} (f : idx -> S -> option S) (fuel : nat) (i hi : idx) (s : S) :
  Idx.leb i hi = false ->
  for_le (Datatypes.S fuel) i hi f s = Some s.
Proof. intros Hle. simpl. rewrite Hle. reflexivity. Qed.

(** ** The streamer *)

Section StreamerFacts.
Import Streaming.

(** The floor of a real is the integer just below it. *)
Lemma Int_part_unique (r : R) (n : Z) :
  (IZR n <= r < IZR n + 1)%R -> Int_part r = n.
Proof.
  intros [Hlo Hhi]. unfold Int_part.
  destruct (archimed r) as [Hup1 Hup2].
  assert (H1 : (n < up r)%Z) by (apply lt_IZR; lra).
  assert (H2 : (up r < n + 2)%Z) by (apply lt_IZR; rewrite plus_IZR; lra).
  lia.
Qed.

Lemma worldToChunk_finite (x z : R) :
  worldToChunk (Fin x) (Fin z) = (Fin (Int_part (x / 32)), Fin (Int_part (z / 32))).
Proof.
  unfold worldToChunk, CHUNK_SIZE, Num.div.
  destruct (Req_dec_T 32 0) as [H|_]; [lra|]. reflexivity.
Qed.

Lemma elem_of_square (cx cz : Z) (k : key) :
  k ∈ square cx cz <->
  exists x z : Z, k = (Fin x, Fin z) /\ (Z.abs (x - cx) <= 1)%Z /\ (Z.abs (z - cz) <= 1)%Z.
Proof.
  unfold square. rewrite list_elem_of_bind. split.
  - intros (x & Hk & Hx). apply list_elem_of_bind in Hk as (z & Hk & Hz).
    apply list_elem_of_singleton in Hk. apply elem_of_seqZ in Hx, Hz.
    exists x, z. split; [exact Hk|lia].
  - intros (x & z & -> & Hx & Hz). exists x. split.
    + apply list_elem_of_bind. exists z. split; [apply list_elem_of_singleton; reflexivity|].
      apply elem_of_seqZ. lia.
    + apply elem_of_seqZ. lia.
Qed.

(** The two nested loops of [updateCityStreaming] around a finite chunk. *)
Lemma load_loops_finite (fuel : nat) (cx cz : Z) (acc : gset key * State) :
  (4 <= fuel)%nat ->
  for_le fuel (Idx.minus (Fin cx) CHUNK_RADIUS) (Idx.plus (Fin cx) CHUNK_RADIUS)
    (fun x => for_le fuel (Idx.minus (Fin cz) CHUNK_RADIUS) (Idx.plus (Fin cz) CHUNK_RADIUS)
                (fun z acc => Some (loadChunk x z acc)))
    acc
  = Some (loadAll (square cx cz) acc).
Proof.
  intros Hfuel. unfold CHUNK_RADIUS. cbn [Idx.minus Idx.plus].
  assert (Hlen : forall c : Z, (c + 1 + 1 - (c - 1) = 3)%Z) by (intros; lia).
  erewrite for_le_ext.
  2:{ intros x t. apply for_le_fin. rewrite Hlen. simpl. lia. }
  rewrite for_le_fin by (rewrite Hlen; simpl; lia).
  rewrite !Hlen. reflexivity.
Qed.

(** *** Loading *)

Lemma loadChunk_needed (x z : idx) (acc : gset key * State) :
  (loadChunk x z acc).1 = {[ (x, z) ]} ∪ acc.1.
Proof.
  destruct acc as [needed st]. unfold loadChunk.
  destruct (loadedChunks st !! (x, z)); reflexivity.
Qed.

Lemma loadChunk_last (x z : idx) (acc : gset key * State) :
  lastChunkX (loadChunk x z acc).2 = lastChunkX acc.2 /\
  lastChunkZ (loadChunk x z acc).2 = lastChunkZ acc.2 /\
  disposed (loadChunk x z acc).2 = disposed acc.2.
Proof.
  destruct acc as [needed st]. unfold loadChunk.
  destruct (loadedChunks st !! (x, z)); auto.
Qed.

Lemma loadChunk_dom (x z : idx) (acc : gset key * State) :
  dom (loadedChunks (loadChunk x z acc).2) = {[ (x, z) ]} ∪ dom (loadedChunks acc.2).
Proof.
  destruct acc as [needed st]. unfold loadChunk.
  destruct (loadedChunks st !! (x, z)) eqn:Hk; simpl.
  - apply elem_of_dom_2 in Hk. apply set_eq. intros j. set_unfold. naive_solver.
  - apply dom_insert_L.
Qed.

(** A chunk that is in the table is kept as it is: it is not built again. *)
Lemma loadChunk_keeps (x z : idx) (acc : gset key * State) (k : key) (g : Group) :
  loadedChunks acc.2 !! k = Some g ->
  loadedChunks (loadChunk x z acc).2 !! k = Some g.
Proof.
  destruct acc as [needed st]. unfold loadChunk. simpl. intros Hk.
  destruct (loadedChunks st !! (x, z)) eqn:Hxz; simpl; [exact Hk|].
  rewrite lookup_insert_ne; [exact Hk|]. intros <-. rewrite Hxz in Hk. discriminate.
Qed.

Lemma loadAll_needed (l : list key) (acc : gset key * State) :
  (loadAll l acc).1 = list_to_set l ∪ acc.1.
Proof.
  revert acc. induction l as [|k l IH]; intros acc; simpl.
  - set_solver.
  - unfold loadAll in *. simpl. rewrite IH, loadChunk_needed.
    destruct k. set_solver.
Qed.

Lemma loadAll_last (l : list key) (acc : gset key * State) :
  lastChunkX (loadAll l acc).2 = lastChunkX acc.2 /\
  lastChunkZ (loadAll l acc).2 = lastChunkZ acc.2 /\
  disposed (loadAll l acc).2 = disposed acc.2.
Proof.
  revert acc. induction l as [|k l IH]; intros acc; [auto|].
  unfold loadAll in *. simpl.
  destruct (IH (loadChunk k.1 k.2 acc)) as (-> & -> & ->).
  apply loadChunk_last.
Qed.

Lemma loadAll_dom (l : list key) (acc : gset key * State) :
  dom (loadedChunks (loadAll l acc).2) = list_to_set l ∪ dom (loadedChunks acc.2).
Proof.
  revert acc. induction l as [|k l IH]; intros acc; simpl.
  - set_solver.
  - unfold loadAll in *. simpl. rewrite IH, loadChunk_dom.
    destruct k. set_solver.
Qed.

Lemma loadAll_keeps (l : list key) (acc : gset key * State) (k : key) (g : Group) :
  loadedChunks acc.2 !! k = Some g ->
  loadedChunks (loadAll l acc).2 !! k = Some g.
Proof.
  revert acc. induction l as [|j l IH]; intros acc Hk; [exact Hk|].
  unfold loadAll in *. simpl. apply IH, loadChunk_keeps, Hk.
Qed.

(** *** Unloading *)

Lemma unloadChunk_table (needed : gset key) (st : State) (k : key) :
  loadedChunks (unloadChunk needed st k)
  = if decide (k ∈ needed) then loadedChunks st else delete k (loadedChunks st).
Proof.
  unfold unloadChunk. destruct (decide (k ∈ needed)); [reflexivity|].
  destruct (loadedChunks st !! k); reflexivity.
Qed.

Lemma unloadChunk_last (needed : gset key) (st : State) (k : key) :
  lastChunkX (unloadChunk needed st k) = lastChunkX st /\
  lastChunkZ (unloadChunk needed st k) = lastChunkZ st /\
  built (unloadChunk needed st k) = built st.
Proof.
  unfold unloadChunk. destruct (decide (k ∈ needed)); [auto|].
  destruct (loadedChunks st !! k); auto.
Qed.

Lemma unload_fold_lookup (needed : gset key) (l : list key) (st : State) (k : key) :
  loadedChunks (foldl (unloadChunk needed) st l) !! k
  = if decide (k ∈ l /\ k ∉ needed) then None else loadedChunks st !! k.
Proof.
  revert st. induction l as [|j l IH]; intros st; cbn [foldl].
  - case_decide as H; [destruct H as [H _]; inversion H|reflexivity].
  - rewrite IH, unloadChunk_table.
    destruct (decide (j ∈ needed)) as [Hj|Hj].
    + repeat case_decide; try reflexivity; exfalso; set_solver.
    + destruct (decide (k = j)) as [->|Hne].
      * rewrite lookup_delete_eq. repeat case_decide; try reflexivity; exfalso; set_solver.
      * rewrite lookup_delete_ne by congruence.
        repeat case_decide; try reflexivity; exfalso; set_solver.
Qed.

Lemma unload_fold_last (needed : gset key) (l : list key) (st : State) :
  lastChunkX (foldl (unloadChunk needed) st l) = lastChunkX st /\
  lastChunkZ (foldl (unloadChunk needed) st l) = lastChunkZ st /\
  built (foldl (unloadChunk needed) st l) = built st.
Proof.
  revert st. induction l as [|j l IH]; intros st; simpl; [auto|].
  destruct (IH (unloadChunk needed st j)) as (-> & -> & ->).
  apply unloadChunk_last.
Qed.

(** After the unloading loop, the table holds the entries it had whose key
    is needed, and no other. *)
Lemma unloadChunks_lookup (needed : gset key) (st : State) (k : key) :
  loadedChunks (unloadChunks needed st) !! k
  = if decide (k ∈ needed) then loadedChunks st !! k else None.
Proof.
  unfold unloadChunks. rewrite unload_fold_lookup.
  destruct (decide (k ∈ needed)) as [Hk|Hk].
  - case_decide as H; [destruct H; contradiction|reflexivity].
  - case_decide as H; [reflexivity|].
    destruct (loadedChunks st !! k) as [g|] eqn:Hg; [|reflexivity].
    exfalso. apply H. split; [|assumption].
    apply list_elem_of_fmap. exists (k, g). split; [reflexivity|].
    apply elem_of_map_to_list. exact Hg.
Qed.

Lemma unloadChunks_dom (needed : gset key) (st : State) :
  dom (loadedChunks (unloadChunks needed st)) = dom (loadedChunks st) ∩ needed.
Proof.
  apply set_eq. intros k. rewrite elem_of_intersection, !elem_of_dom.
  rewrite unloadChunks_lookup. case_decide; split.
  - intros ?; split; assumption.
  - intros [? _]; assumption.
  - intros [? ?]; discriminate.
  - intros [_ ?]; contradiction.
Qed.

(** *** One call of [updateCityStreaming] *)

Lemma strict_eq_true (a : idx) (b : option idx) :
  strict_eq a b = true -> b = Some a.
Proof.
  destruct b as [b|]; simpl; [|discriminate].
  destruct a, b; simpl; try discriminate; try reflexivity.
  intros H. apply Z.eqb_eq in H. congruence.
Qed.

Lemma sameChunk_true (cx cz : idx) (st : State) :
  sameChunk cx cz st = true ->
  lastChunkX st = Some cx /\ lastChunkZ st = Some cz /\ 0 < size (loadedChunks st).
Proof.
  unfold sameChunk. rewrite !andb_true_iff, bool_decide_eq_true.
  intros [[Hx Hz] Hs]. auto using strict_eq_true.
Qed.

Lemma for_le_mono {S : Type} (fuel fuel' : nat) (i hi : idx)
    (f g : idx -> S -> option S) (s r : S) :
  (fuel <= fuel')%nat ->
  (forall j t u, f j t = Some u -> g j t = Some u) ->
  for_le fuel i hi f s = Some r -> for_le fuel' i hi g s = Some r.
Proof.
  intros Hle Hfg. revert fuel' i s Hle.
  induction fuel as [|fuel IH]; intros fuel' i s Hle; simpl; [discriminate|].
  destruct fuel' as [|fuel']; [lia|]. simpl.
  destruct (Idx.leb i hi); [|trivial].
  destruct (f i s) as [u|] eqn:Hf; [|discriminate].
  rewrite (Hfg _ _ _ Hf). apply IH. lia.
Qed.

(** More fuel does not change a result. *)
Lemma updateCityStreaming_mono (fuel fuel' : nat) (character : option Vector3)
    (st st' : State) :
  (fuel <= fuel')%nat ->
  updateCityStreaming fuel character st = Some st' ->
  updateCityStreaming fuel' character st = Some st'.
Proof.
  intros Hle. unfold updateCityStreaming.
  destruct (worldToChunk _ _) as [cx cz].
  destruct (_ && _); [trivial|].
  destruct (for_le fuel _ _ _ _) as [[needed st2]|] eqn:Hloop; [|discriminate].
  intros Hres.
  match goal with
  | |- context [for_le fuel' ?lo ?hi ?f ?s] =>
      assert (Hloop' : for_le fuel' lo hi f s = Some (needed, st2))
  end.
  { eapply for_le_mono; [exact Hle| |exact Hloop].
    intros j t u. apply for_le_mono; [exact Hle|trivial]. }
  rewrite Hloop'. exact Hres.
Qed.

(** The value of one call, for every position: around a finite chunk the
    table is reconciled; a [NaN] index leaves no key needed; an infinite
    index makes a loop that does not end. *)
Lemma updateCityStreaming_value (fuel : nat) (character : option Vector3) (st : State) :
  (4 <= fuel)%nat ->
  updateCityStreaming fuel character st
  = let pos := match character with Some p => p | None => origin end in
    let '(cx, cz) := worldToChunk (vx pos) (vz pos) in
    if sameChunk cx cz st then Some st
    else
      match cx, cz with
      | Fin a, Fin b => Some (reconciled a b st)
      | NaN, _ | Fin _, NaN => Some (cleared cx cz st)
      | _, _ => None
      end.
Proof.
  intros Hfuel. unfold updateCityStreaming. cbv zeta.
  destruct (worldToChunk _ _) as [cx cz]. fold (sameChunk cx cz st).
  destruct (sameChunk cx cz st); [reflexivity|].
  destruct fuel as [|fuel]; [lia|].
  destruct cx as [a| | |].
  - destruct cz as [b| | |].
    + rewrite load_loops_finite by lia. unfold reconciled.
      destruct (loadAll _ _); reflexivity.
    + erewrite for_le_ext.
      2:{ intros x t. apply for_le_skip. reflexivity. }
      unfold CHUNK_RADIUS. cbn [Idx.minus Idx.plus].
      rewrite (for_le_fin (fun _ t => t)) by (replace (a + 1 + 1 - (a - 1))%Z with 3%Z by lia; simpl; lia).
      replace (a + 1 + 1 - (a - 1))%Z with 3%Z by lia. reflexivity.
    + unfold CHUNK_RADIUS at 1 2. cbn [Idx.minus Idx.plus]. cbn [for_le].
      replace (Idx.leb (Fin (a - 1)%Z) (Fin (a + 1)%Z)) with true
        by (symmetry; apply Z.leb_le; lia).
      rewrite for_le_stuck; reflexivity.
    + unfold CHUNK_RADIUS at 1 2. cbn [Idx.minus Idx.plus]. cbn [for_le].
      replace (Idx.leb (Fin (a - 1)%Z) (Fin (a + 1)%Z)) with true
        by (symmetry; apply Z.leb_le; lia).
      rewrite for_le_stuck; reflexivity.
  - rewrite for_le_skip by reflexivity. destruct cz; reflexivity.
  - rewrite for_le_stuck by reflexivity. destruct cz; reflexivity.
  - rewrite for_le_stuck by reflexivity. destruct cz; reflexivity.
Qed.

Lemma reconciled_dom (cx cz : Z) (st : State) :
  dom (loadedChunks (reconciled cx cz st)) = list_to_set (square cx cz).
Proof.
  unfold reconciled. cbv zeta.
  rewrite unloadChunks_dom, loadAll_dom, loadAll_needed. simpl.
  apply set_eq. intros k. set_unfold. tauto.
Qed.

Lemma reconciled_last (cx cz : Z) (st : State) :
  lastChunkX (reconciled cx cz st) = Some (Fin cx) /\
  lastChunkZ (reconciled cx cz st) = Some (Fin cz).
Proof.
  unfold reconciled, unloadChunks. cbv zeta.
  destruct (unload_fold_last
              (loadAll (square cx cz) (∅, set_last (Fin cx) (Fin cz) st)).1
              (map_to_list (loadedChunks
                 (loadAll (square cx cz) (∅, set_last (Fin cx) (Fin cz) st)).2)).*1
              (loadAll (square cx cz) (∅, set_last (Fin cx) (Fin cz) st)).2)
    as (-> & -> & _).
  destruct (loadAll_last (square cx cz) (∅, set_last (Fin cx) (Fin cz) st))
    as (-> & -> & _).
  split; reflexivity.
Qed.

Lemma centre_in_square (cx cz : Z) : (Fin cx, Fin cz) ∈ square cx cz.
Proof. apply elem_of_square. exists cx, cz. split; [reflexivity|lia]. Qed.

Lemma reconciled_nonempty (cx cz : Z) (st : State) :
  0 < size (loadedChunks (reconciled cx cz st)).
Proof.
  assert (H : is_Some (loadedChunks (reconciled cx cz st) !! (Fin cx, Fin cz))).
  { apply elem_of_dom. rewrite reconciled_dom.
    apply elem_of_list_to_set, centre_in_square. }
  apply map_size_ne_0_lookup_2 in H. lia.
Qed.

(** A chunk of the table whose key stays needed is the same object after
    the call. *)
Lemma reconciled_keeps (cx cz : Z) (st : State) (k : key) (g : Group) :
  k ∈ square cx cz ->
  loadedChunks st !! k = Some g ->
  loadedChunks (reconciled cx cz st) !! k = Some g.
Proof.
  intros Hk Hg. unfold reconciled. cbv zeta.
  rewrite unloadChunks_lookup, loadAll_needed.
  rewrite decide_True by (apply elem_of_union_l, elem_of_list_to_set, Hk).
  apply loadAll_keeps. exact Hg.
Qed.

Lemma cleared_table (cx cz : idx) (st : State) :
  loadedChunks (cleared cx cz st) = ∅.
Proof.
  apply map_eq. intros k. unfold cleared.
  rewrite unloadChunks_lookup, lookup_empty.
  apply decide_False. apply not_elem_of_empty.
Qed.

Lemma createCity_step_last (x z : Z) (st : State) :
  lastChunkX (createCity_step x z st) = lastChunkX st.
Proof. unfold createCity_step. destruct (_ !! _); reflexivity. Qed.

Lemma createCity_last (st : State) : lastChunkX (createCity st) = None.
Proof. unfold createCity. cbn [foldl]. rewrite !createCity_step_last. reflexivity. Qed.

Lemma updateCityStreaming_invariant (fuel : nat) (character : option Vector3)
    (st st' : State) :
  tableMatchesLast st ->
  updateCityStreaming fuel character st = Some st' ->
  tableMatchesLast st'.
Proof.
  intros Hinv Hup.
  apply (updateCityStreaming_mono fuel (fuel + 4)) in Hup; [|lia].
  rewrite updateCityStreaming_value in Hup by lia. cbv zeta in Hup.
  destruct (worldToChunk _ _) as [cx cz].
  destruct (sameChunk cx cz st); [injection Hup as <-; exact Hinv|].
  assert (Hcleared : tableMatchesLast (cleared cx cz st)).
  { intros ? ? _ _ Hsize. rewrite cleared_table, map_size_empty in Hsize. lia. }
  destruct cx as [a| | |], cz as [b| | |]; try discriminate;
    injection Hup as <-; try exact Hcleared.
  intros cx cz Hx Hz _.
  destruct (reconciled_last a b st) as [Hx' Hz'].
  rewrite Hx' in Hx. rewrite Hz' in Hz.
  injection Hx as <-. injection Hz as <-.
  apply reconciled_dom.
Qed.

Lemma reachable_invariant (st : State) : reachable st -> tableMatchesLast st.
Proof.
  induction 1 as [|st _ _|fuel character st st' _ IH Hup].
  - intros cx cz Hx. discriminate.
  - intros cx cz Hx. rewrite createCity_last in Hx. discriminate.
  - exact (updateCityStreaming_invariant _ _ _ _ IH Hup).
Qed.

(** *** The claims on the streamer *)

Lemma floor_of_origin : Int_part (0 / 32) = 0%Z.
Proof. apply Int_part_unique. simpl. lra. Qed.

Lemma floor_of_forty : Int_part (40 / 32) = 1%Z.
Proof. apply Int_part_unique. simpl. lra. Qed.

(** A call at a finite position returns, and what it returns is either the
    state it was given (same chunk, table not empty) or the reconciled
    one. *)
Lemma updateCityStreaming_finite (fuel : nat) (px pz : R) (py : num) (st : State) :
  (4 <= fuel)%nat ->
  updateCityStreaming fuel (Some (mkVector3 (Fin px) py (Fin pz))) st
  = Some (if sameChunk (Fin (Int_part (px / 32))) (Fin (Int_part (pz / 32))) st
          then st
          else reconciled (Int_part (px / 32)) (Int_part (pz / 32)) st).
Proof.
  intros Hfuel. rewrite updateCityStreaming_value by exact Hfuel.
  cbn [vx vz]. rewrite worldToChunk_finite.
  destruct (sameChunk _ _ st); reflexivity.
Qed.

(** In a state the program can reach, the table a call leaves around a
    finite chunk has the keys of the square, whether the call returned early
    or not. *)
Lemma dom_after_call (st : State) (cx cz : Z) :
  reachable st ->
  dom (loadedChunks (if sameChunk (Fin cx) (Fin cz) st then st else reconciled cx cz st))
  = list_to_set (square cx cz).
Proof.
  intros Hreach. destruct (sameChunk _ _ st) eqn:Hsame.
  - apply sameChunk_true in Hsame as (Hx & Hz & Hsize).
    exact (reachable_invariant st Hreach _ _ Hx Hz Hsize).
  - apply reconciled_dom.
Qed.

(** *** Positions that are not finite *)

(** The chunk index of a coordinate is of the kind of the coordinate. *)
Lemma chunk_index_kind (v : num) :
  match v with
  | Fin x => Num.Math_floor (Num.div v CHUNK_SIZE) = Fin (Int_part (x / 32))
  | NaN => Num.Math_floor (Num.div v CHUNK_SIZE) = NaN
  | PInf => Num.Math_floor (Num.div v CHUNK_SIZE) = PInf
  | NInf => Num.Math_floor (Num.div v CHUNK_SIZE) = NInf
  end.
Proof.
  unfold CHUNK_SIZE, Num.div. destruct v; try reflexivity.
  - destruct (Req_dec_T 32 0); [lra|reflexivity].
  - destruct (Rlt_dec 32 0); [lra|reflexivity].
  - destruct (Rlt_dec 32 0); [lra|reflexivity].
Qed.

(** In a state the program can reach, the early return is not taken on an
    index that is not finite. *)
Lemma sameChunk_not_finite (cx cz : idx) (st : State) :
  tableMatchesLast st ->
  isFinite cx && isFinite cz = false ->
  sameChunk cx cz st = false.
Proof.
  intros Hinv Hnf. destruct (sameChunk cx cz st) eqn:Hsame; [|reflexivity].
  apply sameChunk_true in Hsame as (Hx & Hz & Hsize).
  pose proof (Hinv cx cz Hx Hz Hsize) as Hdom.
  assert (Hempty : neededSet cx cz = ∅) by (destruct cx, cz; try discriminate; reflexivity).
  rewrite Hempty in Hdom. apply dom_empty_iff_L in Hdom.
  rewrite Hdom, map_size_empty in Hsize. lia.
Qed.

Lemma cleared_last (cx cz : idx) (st : State) :
  lastChunkX (cleared cx cz st) = Some cx /\ lastChunkZ (cleared cx cz st) = Some cz.
Proof.
  unfold cleared, unloadChunks.
  destruct (unload_fold_last ∅ (map_to_list (loadedChunks (set_last cx cz st))).*1
              (set_last cx cz st)) as (-> & -> & _).
  split; reflexivity.
Qed.

(** A [NaN] coordinate is not rejected: it is recorded as the last chunk
    and every chunk is unloaded. *)
Lemma updateCityStreaming_unloadsAll (fuel : nat) (pos : Vector3) (st : State) :
  tableMatchesLast st -> (4 <= fuel)%nat -> unloadsAll pos ->
  exists cx cz : idx,
    updateCityStreaming fuel (Some pos) st = Some (cleared cx cz st) /\
    (cx = NaN \/ cz = NaN).
Proof.
  intros Hinv Hfuel Hpos. rewrite updateCityStreaming_value by exact Hfuel.
  cbv zeta. unfold worldToChunk.
  pose proof (chunk_index_kind (vx pos)) as Hx.
  pose proof (chunk_index_kind (vz pos)) as Hz.
  destruct Hpos as [Hnan|[Hfin Hnan]].
  - rewrite Hnan in *. rewrite Hx.
    rewrite sameChunk_not_finite by (exact Hinv || reflexivity).
    eexists _, _. split; [reflexivity|]. left. reflexivity.
  - rewrite Hnan in *. rewrite Hz.
    destruct (vx pos) as [x| | |]; try discriminate. rewrite Hx.
    rewrite sameChunk_not_finite by (exact Hinv || reflexivity).
    eexists _, _. split; [reflexivity|]. right. reflexivity.
Qed.

(** An infinite coordinate is not rejected either: a loop counter starts at
    infinity and the call does not return. *)
Lemma updateCityStreaming_neverReturns (fuel : nat) (pos : Vector3) (st : State) :
  tableMatchesLast st -> neverReturns pos ->
  updateCityStreaming fuel (Some pos) st = None.
Proof.
  intros Hinv Hpos.
  destruct (updateCityStreaming fuel (Some pos) st) as [st'|] eqn:Hup; [|reflexivity].
  exfalso.
  apply (updateCityStreaming_mono fuel (fuel + 4)) in Hup; [|lia].
  rewrite updateCityStreaming_value in Hup by lia. cbv zeta in Hup.
  unfold worldToChunk in Hup.
  pose proof (chunk_index_kind (vx pos)) as Hx.
  pose proof (chunk_index_kind (vz pos)) as Hz.
  destruct Hpos as [Hinf|[Hfin Hinf]].
  - destruct (vx pos) as [x| | |]; try discriminate; rewrite Hx in Hup;
      rewrite sameChunk_not_finite in Hup by (exact Hinv || reflexivity);
      destruct (Num.Math_floor _); discriminate.
  - destruct (vx pos) as [x| | |]; try discriminate. rewrite Hx in Hup.
    destruct (vz pos) as [z| | |]; try discriminate; rewrite Hz in Hup;
      rewrite sameChunk_not_finite in Hup by (exact Hinv || reflexivity);
      discriminate.
Qed.

(** *** States and positions in range *)

Lemma reachableInRange_reachable (st : State) : reachableInRange st -> reachable st.
Proof.
  induction 1 as [|st _ IH|fuel character st st' _ IH _ Hup].
  - apply reachable_initial.
  - apply reachable_createCity, IH.
  - exact (reachable_update fuel character st st' IH Hup).
Qed.

Lemma inRange_finite (px pz : R) (py : num) :
  (- MAX_CHUNK_INDEX <= Int_part (px / 32) <= MAX_CHUNK_INDEX)%Z ->
  (- MAX_CHUNK_INDEX <= Int_part (pz / 32) <= MAX_CHUNK_INDEX)%Z ->
  inRange (mkVector3 (Fin px) py (Fin pz)).
Proof.
  intros Hx Hz. unfold inRange. cbn [vx vz]. rewrite worldToChunk_finite.
  split; assumption.
Qed.

Lemma inRange_origin : inRange origin.
Proof.
  apply inRange_finite; rewrite floor_of_origin; unfold MAX_CHUNK_INDEX; lia.
Qed.

Lemma inRange_forty : inRange (mkVector3 (Fin 40%R) (Fin 0%R) (Fin 0%R)).
Proof.
  apply inRange_finite; rewrite ?floor_of_forty, ?floor_of_origin;
    unfold MAX_CHUNK_INDEX; lia.
Qed.

(** *** The needed set as a test on keys *)

Lemma isNeeded_finite (a b : Z) (k : key) :
  isNeeded (Fin a, Fin b) k = true <->
  exists x z : Z,
    k = (Fin x, Fin z) /\ (Z.abs (x - a) <= 1)%Z /\ (Z.abs (z - b) <= 1)%Z.
Proof.
  unfold isNeeded, withinRadius, CHUNK_RADIUS. destruct k as [kx kz]. cbn [fst snd].
  destruct kx as [x| | |], kz as [z| | |]; cbn [Idx.minus Idx.abs Idx.leb];
    rewrite ?andb_false_r; cbn [andb];
    try (split; [discriminate|intros (x' & z' & [=] & _)]).
  rewrite andb_true_iff, !Z.leb_le. split.
  - intros [Hx Hz]. exists x, z. auto.
  - intros (x' & z' & [= -> ->] & Hx & Hz). auto.
Qed.

Lemma isNeeded_not_finite (cx cz : idx) (k : key) :
  isFinite cx && isFinite cz = false -> isNeeded (cx, cz) k = false.
Proof.
  unfold isNeeded, withinRadius, CHUNK_RADIUS. destruct k as [kx kz]. cbn [fst snd].
  intros Hnf.
  destruct cx as [a| | |], cz as [b| | |]; try discriminate Hnf;
    destruct kx as [x| | |], kz as [z| | |]; cbn [Idx.minus Idx.abs Idx.leb];
    rewrite ?andb_false_r; reflexivity.
Qed.

Lemma elem_of_neededSet (cx cz : idx) (k : key) :
  k ∈ neededSet cx cz <-> isNeeded (cx, cz) k = true.
Proof.
  destruct (isFinite cx && isFinite cz) eqn:Hfin.
  - destruct cx as [a| | |], cz as [b| | |]; try discriminate Hfin.
    cbn [neededSet]. rewrite elem_of_list_to_set, elem_of_square, isNeeded_finite.
    reflexivity.
  - rewrite (isNeeded_not_finite cx cz k Hfin).
    assert (Hempty : neededSet cx cz = ∅)
      by (destruct cx, cz; try discriminate Hfin; reflexivity).
    rewrite Hempty. split; [intros H; exfalso; set_solver|discriminate].
Qed.

(** The early return is never taken on a [NaN] index, whatever the state. *)
Lemma sameChunk_NaN (cx cz : idx) (st : State) :
  cx = NaN \/ cz = NaN -> sameChunk cx cz st = false.
Proof.
  unfold sameChunk, strict_eq. intros [-> | ->].
  - destruct (lastChunkX st); reflexivity.
  - destruct (lastChunkZ st) as [[]|]; cbn [Idx.eqb];
      rewrite ?andb_false_r; reflexivity.
Qed.

(** With nothing loaded and the last chunk recorded, clearing changes
    nothing. *)
Lemma cleared_again (cx cz : idx) (st : State) :
  cleared cx cz (cleared cx cz st) = cleared cx cz st.
Proof.
  destruct (cleared_last cx cz st) as [Hx Hz].
  pose proof (cleared_table cx cz st) as Ht.
  unfold cleared at 1. unfold unloadChunks.
  change (loadedChunks (set_last cx cz (cleared cx cz st)))
    with (loadedChunks (cleared cx cz st)).
  rewrite Ht, map_to_list_empty. cbn [fmap list_fmap foldl].
  destruct (cleared cx cz st) as [t lx lz c b d]. cbn in Hx, Hz.
  unfold set_last. cbn. rewrite Hx, Hz. reflexivity.
Qed.

(** What a call that returned has returned. *)
Lemma updateCityStreaming_returned (fuel : nat) (pos : Vector3) (st st' : State) :
  updateCityStreaming fuel (Some pos) st = Some st' ->
  let '(cx, cz) := worldToChunk (vx pos) (vz pos) in
  if sameChunk cx cz st then st' = st
  else
    match cx, cz with
    | Fin a, Fin b => st' = reconciled a b st
    | NaN, _ | Fin _, NaN => st' = cleared cx cz st
    | _, _ => False
    end.
Proof.
  intros Hup. apply (updateCityStreaming_mono fuel (fuel + 4)) in Hup; [|lia].
  rewrite updateCityStreaming_value in Hup by lia. cbv zeta in Hup.
  destruct (worldToChunk (vx pos) (vz pos)) as [cx cz].
  destruct (sameChunk cx cz st); [congruence|].
  destruct cx as [a| | |], cz as [b| | |]; congruence.
Qed.

Lemma sameChunk_reconciled (a b : Z) (st : State) :
  sameChunk (Fin a) (Fin b) (reconciled a b st) = true.
Proof.
  unfold sameChunk. destruct (reconciled_last a b st) as [-> ->].
  cbn [strict_eq Idx.eqb]. rewrite !Z.eqb_refl. simpl.
  apply bool_decide_eq_true. apply reconciled_nonempty.
Qed.

(** C1.  Take a state the program can reach and a position, both within
    the range of the loop counters.  Whenever a call of
    [updateCityStreaming] there returns, the keys of the table are exactly
    the keys [(x, z)] with [|x - cx| <= 1] and [|z - cz| <= 1], where
    [cx = floor (P.x / 32)] and [cz = floor (P.z / 32)]: nothing stale
    outside the square of radius [CHUNK_RADIUS], nothing missing inside.  At
    a finite position the call does return, and the keys are the nine of the
    square.  With a [NaN] coordinate it returns too: no key passes the test,
    and the table is empty.  With an infinite coordinate the call does not
    return. *)
Theorem table_is_the_needed_set (st : State) (pos : Vector3) :
  reachableInRange st -> inRange pos ->
  (forall (fuel : nat) (st' : State),
      updateCityStreaming fuel (Some pos) st = Some st' ->
      forall k : key,
        k ∈ dom (loadedChunks st') <->
        isNeeded (worldToChunk (vx pos) (vz pos)) k = true) /\
  (forall px pz : R,
      vx pos = Fin px -> vz pos = Fin pz ->
      forall fuel : nat, (4 <= fuel)%nat ->
        exists st' : State,
          updateCityStreaming fuel (Some pos) st = Some st' /\
          forall k : key,
            k ∈ dom (loadedChunks st') <->
            exists x z : Z,
              k = (Fin x, Fin z) /\
              (Z.abs (x - Int_part (px / 32)) <= 1)%Z /\
              (Z.abs (z - Int_part (pz / 32)) <= 1)%Z) /\
  (unloadsAll pos ->
   forall fuel : nat, (4 <= fuel)%nat ->
     exists st' : State,
       updateCityStreaming fuel (Some pos) st = Some st' /\
       loadedChunks st' = ∅ /\
       forall k : key, isNeeded (worldToChunk (vx pos) (vz pos)) k = false) /\
  (neverReturns pos ->
   forall fuel : nat, updateCityStreaming fuel (Some pos) st = None).
Proof.
  intros Hin _. pose proof (reachableInRange_reachable st Hin) as Hreach.
  pose proof (reachable_invariant st Hreach) as Hinv.
  split; [|split; [|split]].
  - intros fuel st' Hup k. apply updateCityStreaming_returned in Hup.
    destruct (worldToChunk (vx pos) (vz pos)) as [cx cz].
    rewrite <- elem_of_neededSet.
    destruct (sameChunk cx cz st) eqn:Hsame.
    + subst st'. apply sameChunk_true in Hsame as (Hx & Hz & Hsize).
      rewrite (Hinv cx cz Hx Hz Hsize). reflexivity.
    + destruct cx as [a| | |], cz as [b| | |]; try contradiction; subst st';
        rewrite ?reconciled_dom, ?cleared_table, ?dom_empty_L; reflexivity.
  - intros px pz Hx Hz fuel Hfuel. destruct pos as [x y z]. cbn [vx vz] in Hx, Hz.
    subst x z. rewrite updateCityStreaming_finite by exact Hfuel.
    eexists. split; [reflexivity|]. intros k.
    rewrite <- elem_of_square, <- (elem_of_list_to_set (C := gset key)).
    rewrite dom_after_call by exact Hreach. reflexivity.
  - intros Hpos fuel Hfuel.
    destruct (updateCityStreaming_unloadsAll fuel pos st Hinv Hfuel Hpos)
      as (cx & cz & Hup & Hnan).
    exists (cleared cx cz st). split; [exact Hup|].
    split; [apply cleared_table|].
    intros k. unfold worldToChunk.
    pose proof (chunk_index_kind (vx pos)) as Hx.
    pose proof (chunk_index_kind (vz pos)) as Hz.
    destruct Hpos as [Hn|[Hf Hn]]; rewrite Hn in *.
    + rewrite Hx. apply isNeeded_not_finite. reflexivity.
    + rewrite Hz. apply isNeeded_not_finite. apply andb_false_r.
  - intros Hpos fuel. apply updateCityStreaming_neverReturns; assumption.
Qed.

Lemma table_is_the_needed_set_witness :
  exists st' : State,
    updateCityStreaming 4 (Some (mkVector3 (Fin 40%R) (Fin 0%R) (Fin 0%R))) initial
    = Some st' /\
    forall k : key,
      k ∈ dom (loadedChunks st') <->
      exists x z : Z,
        k = (Fin x, Fin z) /\
        (Z.abs (x - Int_part (40 / 32)) <= 1)%Z /\
        (Z.abs (z - Int_part (0 / 32)) <= 1)%Z.
Proof.
  destruct (table_is_the_needed_set initial (mkVector3 (Fin 40%R) (Fin 0%R) (Fin 0%R))
              reachableInRange_initial inRange_forty) as (_ & Hfinite & _).
  apply (Hfinite 40%R 0%R); [reflexivity|reflexivity|lia].
Defined.

(** C2.  From the empty table, a call with the avatar at the origin leaves
    exactly the nine chunks [(-1,-1)..(1,1)].  Position [(40, 0)] lies in
    chunk [(1, 0)], and a call there leaves exactly the nine chunks
    [(0,-1)..(2,1)]: the three chunks of column [-1] are the ones disposed
    of, the three of column [2] are the ones built (three calls of
    [buildCityChunk], for keys the table did not have), and the six chunks of
    columns [0] and [1] are the very objects the table held before. *)
Theorem origin_then_forty (fuel : nat) :
  (4 <= fuel)%nat ->
  exists st1 st2 : State,
    updateCityStreaming fuel (Some origin) initial = Some st1 /\
    dom (loadedChunks st1) = list_to_set (around 0 0) /\
    size (loadedChunks st1) = 9 /\
    worldToChunk (Fin 40%R) (Fin 0%R) = (Fin 1%Z, Fin 0%Z) /\
    updateCityStreaming fuel (Some (mkVector3 (Fin 40%R) (Fin 0%R) (Fin 0%R))) st1
    = Some st2 /\
    dom (loadedChunks st2) = list_to_set (around 1 0) /\
    size (loadedChunks st2) = 9 /\
    disposed st1 = [] /\
    disposed st2
      ≡ₚ omap (fun k => loadedChunks st1 !! k)
           [(Fin (-1), Fin (-1)); (Fin (-1), Fin 0); (Fin (-1), Fin 1)]%Z /\
    length (disposed st2) = 3 /\
    built st2 = built st1 + 3 /\
    Forall (fun k => loadedChunks st1 !! k = None /\
                     exists g, loadedChunks st2 !! k = Some g /\ built st1 <= group_id g)
           [(Fin 2, Fin (-1)); (Fin 2, Fin 0); (Fin 2, Fin 1)]%Z /\
    Forall (fun k => is_Some (loadedChunks st1 !! k) /\
                     loadedChunks st2 !! k = loadedChunks st1 !! k)
           [(Fin 0, Fin (-1)); (Fin 0, Fin 0); (Fin 0, Fin 1);
            (Fin 1, Fin (-1)); (Fin 1, Fin 0); (Fin 1, Fin 1)]%Z.
Proof.
  intros Hfuel.
  exists (reconciled 0 0 initial), (reconciled 1 0 (reconciled 0 0 initial)).
  unfold origin. rewrite !updateCityStreaming_finite by exact Hfuel.
  rewrite worldToChunk_finite, floor_of_origin, floor_of_forty.
  split; [reflexivity|].
  split; [vm_compute; reflexivity|].
  split; [vm_compute; reflexivity|].
  split; [reflexivity|].
  split; [vm_compute; reflexivity|].
  split; [vm_compute; reflexivity|].
  split; [vm_compute; reflexivity|].
  split; [vm_compute; reflexivity|].
  split; [vm_compute; reflexivity|].
  split; [vm_compute; reflexivity|].
  split; [vm_compute; reflexivity|].
  split.
  - repeat match goal with |- Forall _ _ => constructor end.
    all: split;
      [vm_compute; reflexivity
      |eexists; split; [vm_compute; reflexivity|vm_compute; lia]].
  - repeat match goal with |- Forall _ _ => constructor end.
    all: split; [vm_compute; eexists; reflexivity|vm_compute; reflexivity].
Qed.

Lemma origin_then_forty_witness :
  exists st1 st2 : State,
    updateCityStreaming 4 (Some origin) initial = Some st1 /\
    updateCityStreaming 4 (Some (mkVector3 (Fin 40%R) (Fin 0%R) (Fin 0%R))) st1
    = Some st2 /\
    size (loadedChunks st2) = 9.
Proof.
  destruct (origin_then_forty 4 ltac:(lia))
    as (st1 & st2 & H1 & _ & _ & _ & H2 & _ & H3 & _).
  exists st1, st2. auto.
Defined.

(** C3.  Two calls in a row at the same position, whatever the position and
    the state: if the first call returns, the second one returns the state
    the first one left, so it builds no chunk, disposes of none, and leaves
    the table as it was.  At a finite position the second call takes the
    early return; with a [NaN] coordinate it does not, and finds nothing to
    unload and nothing to load.  The first call returns at every position in
    the range of the loop counters that has no infinite coordinate in the
    way. *)
Theorem second_call_is_a_no_op (st : State) (pos : Vector3) :
  (forall (fuel : nat) (st1 : State),
      updateCityStreaming fuel (Some pos) st = Some st1 ->
      forall fuel' : nat, (4 <= fuel')%nat ->
        exists st2 : State,
          updateCityStreaming fuel' (Some pos) st1 = Some st2 /\
          built st2 = built st1 /\
          disposed st2 = disposed st1 /\
          cityGroup st2 = cityGroup st1 /\
          loadedChunks st2 = loadedChunks st1 /\
          st2 = st1) /\
  (inRange pos -> ~ neverReturns pos ->
   forall fuel : nat, (4 <= fuel)%nat ->
     exists st1 : State, updateCityStreaming fuel (Some pos) st = Some st1).
Proof.
  split.
  - intros fuel st1 Hup fuel' Hfuel'. exists st1.
    split; [|repeat split].
    apply updateCityStreaming_returned in Hup.
    rewrite updateCityStreaming_value by exact Hfuel'. cbv zeta.
    destruct (worldToChunk (vx pos) (vz pos)) as [cx cz].
    destruct (sameChunk cx cz st) eqn:Hsame.
    + subst st1. rewrite Hsame. reflexivity.
    + destruct cx as [a| | |], cz as [b| | |]; try contradiction; subst st1;
        rewrite ?sameChunk_reconciled; try reflexivity;
        rewrite sameChunk_NaN by auto; rewrite cleared_again; reflexivity.
  - intros _ Hnr fuel Hfuel.
    rewrite updateCityStreaming_value by exact Hfuel. cbv zeta. unfold worldToChunk.
    pose proof (chunk_index_kind (vx pos)) as Hx.
    pose proof (chunk_index_kind (vz pos)) as Hz.
    destruct (vx pos) as [x| | |] eqn:Ex, (vz pos) as [z| | |] eqn:Ez;
      rewrite Hx, ?Hz;
      match goal with |- context [sameChunk ?a ?b st] => destruct (sameChunk a b st) end;
      try (eexists; reflexivity);
      exfalso; apply Hnr; unfold neverReturns; rewrite Ex, Ez; cbn; auto.
Qed.

Lemma second_call_is_a_no_op_witness :
  exists st1 st2 : State,
    updateCityStreaming 4 (Some (mkVector3 (Fin 40%R) (Fin 0%R) (Fin 0%R))) initial
    = Some st1 /\
    updateCityStreaming 4 (Some (mkVector3 (Fin 40%R) (Fin 0%R) (Fin 0%R))) st1
    = Some st2 /\
    st2 = st1.
Proof.
  destruct (second_call_is_a_no_op initial (mkVector3 (Fin 40%R) (Fin 0%R) (Fin 0%R)))
    as [Hsecond Hfirst].
  destruct (Hfirst inRange_forty) with (fuel := 4) as [st1 H1]; [|lia|].
  { intros [H|[_ H]]; discriminate H. }
  destruct (Hsecond 4 st1 H1 4 ltac:(lia)) as (st2 & H2 & _ & _ & _ & _ & H3).
  exists st1, st2. auto.
Defined.

(** C10.  With no character, the call does what it does for a character
    at [(0, 0, 0)]: it returns, and in any state the program can reach it
    leaves exactly the chunks of the square around chunk [(0, 0)]. *)
Theorem no_character_is_the_origin (st : State) (fuel : nat) :
  reachable st -> (4 <= fuel)%nat ->
  updateCityStreaming fuel None st = updateCityStreaming fuel (Some origin) st /\
  exists st' : State,
    updateCityStreaming fuel None st = Some st' /\
    forall k : key,
      k ∈ dom (loadedChunks st') <->
      exists x z : Z, k = (Fin x, Fin z) /\ (Z.abs x <= 1)%Z /\ (Z.abs z <= 1)%Z.
Proof.
  intros Hreach Hfuel. split; [reflexivity|].
  unfold updateCityStreaming at 1. fold origin.
  change (exists st' : State,
    updateCityStreaming fuel (Some origin) st = Some st' /\
    forall k : key,
      k ∈ dom (loadedChunks st') <->
      exists x z : Z, k = (Fin x, Fin z) /\ (Z.abs x <= 1)%Z /\ (Z.abs z <= 1)%Z).
  unfold origin. rewrite updateCityStreaming_finite by exact Hfuel.
  rewrite floor_of_origin.
  eexists. split; [reflexivity|]. intros k.
  rewrite dom_after_call by exact Hreach.
  rewrite elem_of_list_to_set, elem_of_square.
  split; intros (x & z & Hk & Hx & Hz); exists x, z;
    (split; [exact Hk|split; lia]).
Qed.

Lemma no_character_is_the_origin_witness :
  exists st' : State,
    updateCityStreaming 4 None initial = Some st' /\
    forall k : key,
      k ∈ dom (loadedChunks st') <->
      exists x z : Z, k = (Fin x, Fin z) /\ (Z.abs x <= 1)%Z /\ (Z.abs z <= 1)%Z.
Proof.
  apply (no_character_is_the_origin initial 4).
  - apply reachable_initial.
  - lia.
Defined.


End StreamerFacts.

(** ** The follow camera *)

Section CameraFacts.
Import Camera.
Local Open Scope R_scope.

(** *** Arithmetic on finite numbers *)

Lemma div_fin (x y : R) : y <> 0 -> Num.div (Fin x) (Fin y) = Fin (x / y).
Proof.
  intros Hy. unfold Num.div. destruct (Req_dec_T y 0); [contradiction|reflexivity].
Qed.

Lemma ltb_fin (x y : R) : Num.ltb (Fin x) (Fin y) = true <-> x < y.
Proof.
  unfold Num.ltb. destruct (Rlt_dec x y); split; intros; auto; discriminate.
Qed.

Lemma Math_max_fin (x y : R) : Num.Math_max (Fin x) (Fin y) = Fin (Rmax x y).
Proof.
  unfold Num.Math_max, Num.ltb, Rmax.
  destruct (Rlt_dec x y), (Rle_dec x y); try reflexivity; f_equal; lra.
Qed.

Lemma Math_min_fin (x y : R) : Num.Math_min (Fin x) (Fin y) = Fin (Rmin x y).
Proof.
  unfold Num.Math_min, Num.ltb, Rmin.
  destruct (Rlt_dec y x), (Rle_dec x y); try reflexivity; f_equal; lra.
Qed.

Lemma Rsign_pos (r : R) : 0 < r -> Num.Rsign r = Gt.
Proof.
  intros Hr. unfold Num.Rsign.
  destruct (Rlt_dec r 0); [lra|]. destruct (Rlt_dec 0 r); [reflexivity|lra].
Qed.

Lemma deg2rad_fin (d : R) : deg2rad (Fin d) = Fin (d * PI / 180).
Proof. unfold deg2rad. cbn [Num.mul Num.Math_PI]. apply div_fin. lra. Qed.

Lemma minPitch_value : minPitch = Fin (-30 * PI / 180).
Proof. apply deg2rad_fin. Qed.

Lemma maxPitch_value : maxPitch = Fin (60 * PI / 180).
Proof. apply deg2rad_fin. Qed.

(** *** Mouse look *)

(** Whatever the event carries, the delta that is applied is a finite
    number of magnitude at most [maxDelta]. *)
Lemma clampDelta_bounded (v : option num) :
  exists d : R, clampDelta v = Fin d /\ -30 <= d <= 30.
Proof.
  unfold clampDelta, maxDelta. cbn [Num.neg].
  destruct v as [[x| | |]|]; cbn [or_zero].
  - rewrite Math_min_fin, Math_max_fin. eexists. split; [reflexivity|].
    unfold Rmax, Rmin. destruct (Rle_dec 30 x); destruct (Rle_dec _ _); lra.
  - rewrite Math_min_fin, Math_max_fin. eexists. split; [reflexivity|].
    unfold Rmax, Rmin. destruct (Rle_dec 30 0); destruct (Rle_dec _ _); lra.
  - cbn [Num.Math_min Num.ltb]. rewrite Math_max_fin. eexists. split; [reflexivity|].
    unfold Rmax. destruct (Rle_dec _ _); lra.
  - cbn [Num.Math_min Num.ltb Num.Math_max]. exists (-30). split; [reflexivity|lra].
  - rewrite Math_min_fin, Math_max_fin. eexists. split; [reflexivity|].
    unfold Rmax, Rmin. destruct (Rle_dec 30 0); destruct (Rle_dec _ _); lra.
Qed.

(** The last line of the listener brings any pitch but [NaN] into the
    configured range. *)
Lemma clamped_pitch_in_range (p : num) :
  p <> NaN ->
  exists q : R,
    Num.Math_max minPitch (Num.Math_min maxPitch p) = Fin q /\
    -30 * PI / 180 <= q <= 60 * PI / 180.
Proof.
  intros Hp. rewrite minPitch_value, maxPitch_value.
  pose proof PI_RGT_0 as Hpi.
  destruct p as [x| | |]; [| contradiction | |].
  - rewrite Math_min_fin, Math_max_fin. eexists. split; [reflexivity|].
    unfold Rmax, Rmin. destruct (Rle_dec (60 * PI / 180) x); destruct (Rle_dec _ _); lra.
  - cbn [Num.Math_min Num.ltb]. rewrite Math_max_fin. eexists. split; [reflexivity|].
    unfold Rmax. destruct (Rle_dec _ _); lra.
  - cbn [Num.Math_min Num.ltb Num.Math_max]. eexists. split; [reflexivity|]. lra.
Qed.

Lemma mousemove_pitch (e : MouseEvent) (s : Rig) :
  pitchInRange s -> pitchInRange (mousemove e s).
Proof.
  intros Hs. unfold mousemove.
  destruct (isPointerLocked s); cbn [negb]; [|exact Hs].
  destruct (skipNextMouseDelta s); [exact Hs|].
  unfold pitchInRange. cbn [cameraPitch].
  apply clamped_pitch_in_range.
  destruct Hs as (p & -> & _).
  destruct (clampDelta_bounded (movementY e)) as (d & -> & _).
  discriminate.
Qed.

(** *** The interpolation factor *)

Lemma Rpower_fraction (q y : R) : 0 < q < 1 -> 0 < y -> 0 < Rpower q y < 1.
Proof.
  intros [Hq0 Hq1] Hy. unfold Rpower. split; [apply exp_pos|].
  rewrite <- exp_0. apply exp_increasing.
  assert (Hln : ln q < 0) by (rewrite <- ln_1; apply ln_increasing; lra).
  nra.
Qed.

Lemma clamped_delta_pos (delta : R) : 0 < Rmax 0.0001 delta * 60.
Proof. pose proof (Rmax_l 0.0001 delta). lra. Qed.

Lemma alphaOf_bounds (locked : bool) (delta : R) : 0 < alphaOf locked delta < 1.
Proof.
  unfold alphaOf.
  assert (H : 0 < Rpower (1 - (if locked then 0.22 else 0.16)) (Rmax 0.0001 delta * 60) < 1).
  { apply Rpower_fraction; [destruct locked; lra|apply clamped_delta_pos]. }
  lra.
Qed.

Lemma smoothingAlpha_finite (s : Rig) (delta : R) :
  smoothingAlpha s (Fin delta) = Fin (alphaOf (isPointerLocked s) delta).
Proof.
  unfold smoothingAlpha, baseAlpha, alphaOf.
  rewrite Math_max_fin.
  destruct (isPointerLocked s);
    cbn [Num.mul Num.sub Num.add Num.neg]; unfold Num.Math_pow;
    rewrite (Rsign_pos _ (clamped_delta_pos delta));
    rewrite Rsign_pos by lra; reflexivity.
Qed.


Lemma lerp_finite (x y z dx dy dz a : R) :
  lerp (vec3 x y z) (vec3 dx dy dz) (Fin a)
  = vec3 (x + (dx - x) * a) (y + (dy - y) * a) (z + (dz - z) * a).
Proof. reflexivity. Qed.

(** *** Angles *)

Lemma two_pi_value : two_pi = Fin (2 * PI).
Proof. reflexivity. Qed.

Lemma while_above_step (fuel : nat) (d : R) :
  while_above (S fuel) (Fin d)
  = if Rlt_dec PI d then while_above fuel (Fin (d - 2 * PI)) else Some (Fin d).
Proof.
  cbn [while_above]. unfold Num.gtb, Num.Math_PI, Num.ltb.
  destruct (Rlt_dec PI d); reflexivity.
Qed.

Lemma while_below_step (fuel : nat) (d : R) :
  while_below (S fuel) (Fin d)
  = if Rlt_dec d (- PI) then while_below fuel (Fin (d + 2 * PI)) else Some (Fin d).
Proof.
  cbn [while_below]. unfold Num.Math_PI, Num.neg, Num.ltb.
  destruct (Rlt_dec d (- PI)); reflexivity.
Qed.

Lemma exists_nat_above (r : R) : exists m : nat, r <= INR m.
Proof.
  destruct (archimed r) as [Hup _].
  exists (Z.to_nat (up r)).
  destruct (Z.le_gt_cases 0 (up r)) as [Hz|Hz].
  - rewrite INR_IZR_INZ, Z2Nat.id by exact Hz. lra.
  - assert (H : IZR (up r) < 0) by (apply IZR_lt; lia).
    pose proof (pos_INR (Z.to_nat (up r))). lra.
Qed.

(** The first loop, on a finite angle: it ends, at most [PI] and, if it ran
    at all, above [-PI]. *)
Lemma while_above_finite (m : nat) (d : R) :
  d <= PI + 2 * PI * INR m ->
  exists (d' : R) (k : nat),
    (forall fuel, (m < fuel)%nat -> while_above fuel (Fin d) = Some (Fin d')) /\
    d' <= PI /\ d' = d - 2 * PI * INR k /\ (d' = d \/ - PI < d').
Proof.
  pose proof PI_RGT_0 as Hpi.
  revert d. induction m as [|m IH]; intros d Hd.
  - simpl in Hd. exists d, 0%nat. repeat split.
    + intros [|fuel] Hf; [lia|]. rewrite while_above_step.
      destruct (Rlt_dec PI d); [lra|reflexivity].
    + lra.
    + simpl. lra.
    + left. reflexivity.
  - rewrite S_INR in Hd. destruct (Rlt_dec PI d) as [Hgt|Hle].
    + destruct (IH (d - 2 * PI)) as (d' & k & Hrun & Hup & Hk & Hlo); [lra|].
      exists d', (S k). repeat split.
      * intros [|fuel] Hf; [lia|]. rewrite while_above_step.
        destruct (Rlt_dec PI d); [|contradiction]. apply Hrun. lia.
      * exact Hup.
      * rewrite S_INR. lra.
      * right. destruct Hlo; lra.
    + exists d, 0%nat. repeat split.
      * intros [|fuel] Hf; [lia|]. rewrite while_above_step.
        destruct (Rlt_dec PI d); [contradiction|reflexivity].
      * lra.
      * simpl. lra.
      * left. reflexivity.
Qed.

Lemma while_below_finite (m : nat) (d : R) :
  - PI - 2 * PI * INR m <= d ->
  exists (d' : R) (k : nat),
    (forall fuel, (m < fuel)%nat -> while_below fuel (Fin d) = Some (Fin d')) /\
    - PI <= d' /\ d' = d + 2 * PI * INR k /\ (d' = d \/ d' < PI).
Proof.
  pose proof PI_RGT_0 as Hpi.
  revert d. induction m as [|m IH]; intros d Hd.
  - simpl in Hd. exists d, 0%nat. repeat split.
    + intros [|fuel] Hf; [lia|]. rewrite while_below_step.
      destruct (Rlt_dec d (- PI)); [lra|reflexivity].
    + lra.
    + simpl. lra.
    + left. reflexivity.
  - rewrite S_INR in Hd. destruct (Rlt_dec d (- PI)) as [Hlt|Hge].
    + destruct (IH (d + 2 * PI)) as (d' & k & Hrun & Hlo & Hk & Hup); [lra|].
      exists d', (S k). repeat split.
      * intros [|fuel] Hf; [lia|]. rewrite while_below_step.
        destruct (Rlt_dec d (- PI)); [|contradiction]. apply Hrun. lia.
      * exact Hlo.
      * rewrite S_INR. lra.
      * right. destruct Hup; lra.
    + exists d, 0%nat. repeat split.
      * intros [|fuel] Hf; [lia|]. rewrite while_below_step.
        destruct (Rlt_dec d (- PI)); [contradiction|reflexivity].
      * lra.
      * simpl. lra.
      * left. reflexivity.
Qed.

(** On finite angles [angleDelta] returns, given fuel enough, an angle of
    [[-PI, PI]] that differs from [target - current] by a multiple of
    [2 * PI]. *)
Lemma angleDelta_finite (c t : R) :
  exists (N : nat) (d : R) (k : Z),
    (forall fuel, (N <= fuel)%nat -> angleDelta fuel (Fin c) (Fin t) = Some (Fin d)) /\
    - PI <= d <= PI /\ d = t - c + 2 * PI * IZR k.
Proof.
  pose proof PI_RGT_0 as Hpi.
  destruct (exists_nat_above ((t - c - PI) / (2 * PI))) as [m1 Hm1].
  assert (H1 : t - c <= PI + 2 * PI * INR m1).
  { apply (Rmult_le_compat_l (2 * PI)) in Hm1; [|lra].
    replace (2 * PI * ((t - c - PI) / (2 * PI))) with (t - c - PI) in Hm1 by (field; lra).
    lra. }
  destruct (while_above_finite m1 (t - c) H1) as (d1 & k1 & Hrun1 & Hup1 & Hk1 & Hlo1).
  destruct (exists_nat_above ((- PI - d1) / (2 * PI))) as [m2 Hm2].
  assert (H2 : - PI - 2 * PI * INR m2 <= d1).
  { apply (Rmult_le_compat_l (2 * PI)) in Hm2; [|lra].
    replace (2 * PI * ((- PI - d1) / (2 * PI))) with (- PI - d1) in Hm2 by (field; lra).
    lra. }
  destruct (while_below_finite m2 d1 H2) as (d2 & k2 & Hrun2 & Hlo2 & Hk2 & Hup2).
  exists (S (m1 + m2)), d2, (Z.of_nat k2 - Z.of_nat k1)%Z. repeat split.
  - intros fuel Hf. unfold angleDelta.
    change (Num.sub (Fin t) (Fin c)) with (Fin (t - c)).
    rewrite Hrun1 by lia. apply Hrun2. lia.
  - exact Hlo2.
  - destruct Hup2; lra.
  - rewrite minus_IZR, <- !INR_IZR_INZ. lra.
Qed.

Lemma while_above_PInf (fuel : nat) : while_above fuel PInf = None.
Proof. induction fuel as [|fuel IH]; [reflexivity|exact IH]. Qed.

Lemma while_below_NInf (fuel : nat) : while_below fuel NInf = None.
Proof. induction fuel as [|fuel IH]; [reflexivity|exact IH]. Qed.

(** The difference of two numbers is finite only if both are. *)
Lemma sub_finite (a b : num) (d : R) :
  Num.sub a b = Fin d -> isFinite a = true /\ isFinite b = true.
Proof. destruct a, b; simpl; intros H; try discriminate; auto. Qed.

(** What [angleDelta] does by the kind of [target - current]. *)
Lemma angleDelta_not_finite (fuel : nat) (c t : num) :
  match Num.sub t c with
  | NaN => angleDelta (S fuel) c t = Some NaN
  | PInf | NInf => angleDelta fuel c t = None
  | Fin _ => True
  end.
Proof.
  unfold angleDelta. destruct (Num.sub t c) as [d| | |]; [exact I|reflexivity| |].
  - rewrite while_above_PInf. reflexivity.
  - destruct fuel as [|fuel]; [reflexivity|].
    cbn [while_above Num.gtb Num.ltb Num.Math_PI]. apply while_below_NInf.
Qed.

(** On finite arguments [smoothAngleTowards] moves [current] by the
    normalised difference times [alpha] clamped to [[0, 1]]. *)
Lemma smoothAngleTowards_finite (c t a : R) :
  exists (N : nat) (d : R) (k : Z),
    (forall fuel, (N <= fuel)%nat ->
       smoothAngleTowards fuel (Fin c) (Fin t) (Fin a)
       = Some (Fin (c + d * Rmin 1 (Rmax 0 a)))) /\
    - PI <= d <= PI /\ d = t - c + 2 * PI * IZR k.
Proof.
  destruct (angleDelta_finite c t) as (N & d & k & Hrun & Hd & Hk).
  exists N, d, k. split; [|split; assumption].
  intros fuel Hf. unfold smoothAngleTowards. rewrite (Hrun fuel Hf).
  rewrite Math_max_fin, Math_min_fin. reflexivity.
Qed.

(** *** [NaN] in the camera position *)




(** *** The claims on mouse look *)

Lemma initial_pitch_in_range : pitchInRange initialRig.
Proof.
  unfold pitchInRange, initialRig, DEFAULT_CAMERA_PITCH_DEG. cbn [cameraPitch].
  rewrite deg2rad_fin. eexists. split; [reflexivity|].
  pose proof PI_RGT_0. lra.
Qed.

(** The delta that is applied, for a delta that is a finite number. *)
Lemma clampDelta_fin (d : R) : clampDelta (Some (Fin d)) = Fin (Rmax (-30) (Rmin 30 d)).
Proof.
  unfold clampDelta, maxDelta. cbn [or_zero Num.neg].
  rewrite Math_min_fin, Math_max_fin. reflexivity.
Qed.

Lemma clamp_inside (d : R) : -30 <= d <= 30 -> Rmax (-30) (Rmin 30 d) = d.
Proof. intros H. rewrite Rmin_right by lra. apply Rmax_right. lra. Qed.

Lemma clamp_above (d : R) : 30 <= d -> Rmax (-30) (Rmin 30 d) = 30.
Proof. intros H. rewrite Rmin_left by lra. apply Rmax_right. lra. Qed.

Lemma clamp_below (d : R) : d <= -30 -> Rmax (-30) (Rmin 30 d) = -30.
Proof. intros H. rewrite Rmin_right by lra. apply Rmax_left. lra. Qed.

(** An event that is applied, on finite deltas and finite angles. *)
Lemma mousemove_applied (dx dy y p : R) (s : Rig) :
  isPointerLocked s = true -> skipNextMouseDelta s = false ->
  cameraYaw s = Fin y -> cameraPitch s = Fin p ->
  let s' := mousemove (mkMouseEvent (Some (Fin dx)) (Some (Fin dy))) s in
  cameraYaw s' = Fin (y - Rmax (-30) (Rmin 30 dx) * 0.0018) /\
  cameraPitch s'
  = Fin (Rmax (-30 * PI / 180)
           (Rmin (60 * PI / 180) (p - Rmax (-30) (Rmin 30 dy) * 0.0018))) /\
  isPointerLocked s' = true /\ skipNextMouseDelta s' = false.
Proof.
  intros Hlocked Hskip Hy Hp. cbv zeta. unfold mousemove.
  rewrite Hlocked, Hskip. cbn [negb cameraYaw cameraPitch movementX movementY
                               isPointerLocked skipNextMouseDelta].
  rewrite Hy, Hp, !clampDelta_fin, minPitch_value, maxPitch_value.
  unfold POINTER_SENSITIVITY. cbn [Num.mul Num.sub Num.add Num.neg].
  rewrite Math_min_fin, Math_max_fin.
  split; [reflexivity|]. split; [reflexivity|]. split; reflexivity.
Qed.

(** C5.  The delta that is applied is the delta of the event clamped to
    [[-30, 30]]: a delta within that range is applied as it is, a larger one
    as 30, a smaller one as -30, an infinite one as 30 or -30, and a missing
    one or [NaN] as 0.  An event that is applied turns the yaw by the clamped
    [movementX] times the sensitivity and the pitch by the clamped
    [movementY] times the sensitivity, the pitch being clamped to
    [[-30, 60]] degrees afterwards.  From a pitch within that range, no
    sequence of [mousemove] events, however long and however large their
    [movementY], takes the pitch out of it. *)
Theorem pitch_stays_in_range (s : Rig) (es : list MouseEvent) :
  pitchInRange s ->
  pitchInRange (foldl (fun s e => mousemove e s) s es) /\
  Forall (fun e =>
            exists dx dy : R,
              clampDelta (movementX e) = Fin dx /\ clampDelta (movementY e) = Fin dy /\
              Rabs dx <= 30 /\ Rabs dy <= 30) es /\
  (forall d : R, -30 <= d <= 30 -> clampDelta (Some (Fin d)) = Fin d) /\
  (forall d : R, 30 <= d -> clampDelta (Some (Fin d)) = Fin 30) /\
  (forall d : R, d <= -30 -> clampDelta (Some (Fin d)) = Fin (-30)) /\
  clampDelta (Some PInf) = Fin 30 /\
  clampDelta (Some NInf) = Fin (-30) /\
  clampDelta (Some NaN) = Fin 0 /\
  clampDelta None = Fin 0 /\
  (forall (dx dy y p : R) (s' : Rig),
      isPointerLocked s' = true -> skipNextMouseDelta s' = false ->
      cameraYaw s' = Fin y -> cameraPitch s' = Fin p ->
      cameraYaw (mousemove (mkMouseEvent (Some (Fin dx)) (Some (Fin dy))) s')
      = Fin (y - Rmax (-30) (Rmin 30 dx) * 0.0018) /\
      cameraPitch (mousemove (mkMouseEvent (Some (Fin dx)) (Some (Fin dy))) s')
      = Fin (Rmax (-30 * PI / 180)
               (Rmin (60 * PI / 180) (p - Rmax (-30) (Rmin 30 dy) * 0.0018)))).
Proof.
  intros Hs. split; [|split].
  - revert s Hs. induction es as [|e es IH]; intros s Hs; [exact Hs|].
    cbn [foldl]. apply IH, mousemove_pitch, Hs.
  - apply Forall_forall. intros e _.
    destruct (clampDelta_bounded (movementX e)) as (dx & Hdx & Hx).
    destruct (clampDelta_bounded (movementY e)) as (dy & Hdy & Hy).
    exists dx, dy. repeat split; try assumption; apply Rabs_le; lra.
  - split; [intros d Hd; rewrite clampDelta_fin, clamp_inside by exact Hd; reflexivity|].
    split; [intros d Hd; rewrite clampDelta_fin, clamp_above by exact Hd; reflexivity|].
    split; [intros d Hd; rewrite clampDelta_fin, clamp_below by exact Hd; reflexivity|].
    split.
    { unfold clampDelta, maxDelta. cbn [or_zero Num.neg Num.Math_min Num.ltb].
      rewrite Math_max_fin. f_equal. apply Rmax_right. lra. }
    split; [reflexivity|].
    split.
    { unfold clampDelta, maxDelta. cbn [or_zero Num.neg].
      rewrite Math_min_fin, Math_max_fin. f_equal.
      rewrite Rmin_right by lra. apply Rmax_right. lra. }
    split.
    { unfold clampDelta, maxDelta. cbn [or_zero Num.neg].
      rewrite Math_min_fin, Math_max_fin. f_equal.
      rewrite Rmin_right by lra. apply Rmax_right. lra. }
    intros dx dy y p s' Hlocked Hskip Hy Hp.
    destruct (mousemove_applied dx dy y p s' Hlocked Hskip Hy Hp) as (H1 & H2 & _).
    split; assumption.
Qed.

Lemma pitch_stays_in_range_witness :
  pitchInRange
    (foldl (fun s e => mousemove e s) (onPointerLockChange true initialRig)
       [mkMouseEvent (Some (Fin 0)) (Some (Fin 0));
        mkMouseEvent (Some (Fin 0)) (Some (Fin (-100000)));
        mkMouseEvent (Some (Fin 0)) (Some NInf)]).
Proof.
  apply (pitch_stays_in_range (onPointerLockChange true initialRig)).
  exact initial_pitch_in_range.
Defined.

(** C6.  When the pointer lock is acquired the skip flag is set; the next
    [mousemove], whatever its deltas, leaves the yaw and the pitch as they
    were and clears the flag; the [mousemove] after that one is applied: the
    yaw turns by [movementX], clamped to [[-30, 30]], times the sensitivity
    0.0018 (by the delta itself when it is within the range, by 30 or -30
    when it is beyond), and the pitch by [movementY] in the same way, clamped
    to [[-30, 60]] degrees afterwards. *)
Theorem first_delta_is_skipped (s : Rig) (e1 : MouseEvent) (dx dy y p : R) :
  cameraYaw s = Fin y -> cameraPitch s = Fin p ->
  let s1 := onPointerLockChange true s in
  let s2 := mousemove e1 s1 in
  let s3 := mousemove (mkMouseEvent (Some (Fin dx)) (Some (Fin dy))) s2 in
  skipNextMouseDelta s1 = true /\
  cameraYaw s2 = Fin y /\
  cameraPitch s2 = Fin p /\
  skipNextMouseDelta s2 = false /\
  cameraYaw s3 = Fin (y - Rmax (-30) (Rmin 30 dx) * 0.0018) /\
  cameraPitch s3
  = Fin (Rmax (-30 * PI / 180)
           (Rmin (60 * PI / 180) (p - Rmax (-30) (Rmin 30 dy) * 0.0018))) /\
  (-30 <= dx <= 30 -> cameraYaw s3 = Fin (y - dx * 0.0018)) /\
  (30 <= dx -> cameraYaw s3 = Fin (y - 30 * 0.0018)) /\
  (dx <= -30 -> cameraYaw s3 = Fin (y - -30 * 0.0018)) /\
  (-30 <= dy <= 30 ->
   -30 * PI / 180 <= p - dy * 0.0018 <= 60 * PI / 180 ->
   cameraPitch s3 = Fin (p - dy * 0.0018)).
Proof.
  intros Hy Hp. cbv zeta.
  set (s1 := onPointerLockChange true s).
  set (s2 := mousemove e1 s1).
  assert (H2 : isPointerLocked s2 = true /\ skipNextMouseDelta s2 = false /\
               cameraYaw s2 = Fin y /\ cameraPitch s2 = Fin p).
  { unfold s2, s1, mousemove, onPointerLockChange.
    cbn [isPointerLocked skipNextMouseDelta negb cameraYaw cameraPitch].
    auto. }
  destruct H2 as (Hlocked & Hskip & Hy2 & Hp2).
  destruct (mousemove_applied dx dy y p s2 Hlocked Hskip Hy2 Hp2) as (Hyaw & Hpitch & _).
  split; [reflexivity|]. split; [exact Hy2|]. split; [exact Hp2|].
  split; [exact Hskip|]. split; [exact Hyaw|]. split; [exact Hpitch|].
  split; [intros H; rewrite Hyaw, clamp_inside by exact H; reflexivity|].
  split; [intros H; rewrite Hyaw, clamp_above by exact H; reflexivity|].
  split; [intros H; rewrite Hyaw, clamp_below by exact H; reflexivity|].
  intros Hd Hr. rewrite Hpitch, clamp_inside by exact Hd.
  rewrite Rmin_right by lra. rewrite Rmax_right by lra. reflexivity.
Qed.

(** The deltas of the specification's example, from the initial state: the
    first event changes nothing, the second one turns the yaw by thirty
    times the sensitivity. *)
Lemma first_delta_is_skipped_witness :
  let e := mkMouseEvent (Some (Fin 100)) (Some (Fin 100)) in
  let s1 := onPointerLockChange true initialRig in
  cameraYaw initialRig = Fin 0 /\
  cameraYaw (mousemove e s1) = Fin 0 /\
  cameraPitch (mousemove e s1) = Fin (23 * PI / 180) /\
  cameraYaw (mousemove e (mousemove e s1)) = Fin (0 - 30 * 0.0018).
Proof.
  cbv zeta.
  destruct (first_delta_is_skipped initialRig (mkMouseEvent (Some (Fin 100)) (Some (Fin 100)))
              100 100 0 (23 * PI / 180) eq_refl (deg2rad_fin 23))
    as (_ & Hyaw & Hpitch & _ & _ & _ & _ & Hsat & _).
  split; [reflexivity|]. split; [exact Hyaw|]. split; [exact Hpitch|].
  apply Hsat. lra.
Defined.

(** *** The claims on the camera pose *)

Lemma floor_offset (a m : R) :
  (if Num.ltb (Fin a) (Fin m) then Fin m else Fin a) = Fin (Rmax m a).
Proof.
  unfold Num.ltb, Rmax.
  destruct (Rlt_dec a m), (Rle_dec m a); try reflexivity; f_equal; lra.
Qed.

Lemma desiredCameraPos_finite (px py pz yaw pitch dist h : R)
    (locked skip : bool) (myaw : num) (cam tgt : Vector3) :
  desiredCameraPos (vec3 px py pz)
    (mkRig locked skip (Fin yaw) (Fin pitch) myaw (Fin h) (Fin dist) cam tgt)
  = vec3 (px + sin yaw * - dist * cos pitch)
         (py + Rmax 0.6 (h + dist * sin pitch))
         (pz + cos yaw * - dist * cos pitch).
Proof.
  unfold desiredCameraPos, vec3, MIN_CAMERA_ABOVE_CHARACTER.
  cbn [cameraFollowDistance cameraFollowHeight cameraYaw cameraPitch vx vy vz
       Num.Math_cos Num.Math_sin Num.neg Num.mul Num.add].
  rewrite floor_offset. reflexivity.
Qed.

(** C7.  For a finite avatar position, yaw and pitch, the position the
    camera is moved towards is the avatar position plus
    [(sin yaw * -followDistance * cos pitch,
      max (minHeightAboveAvatar, followHeight + followDistance * sin pitch),
      cos yaw * -followDistance * cos pitch)],
    and the target it is turned towards is the avatar position plus
    [(0, max (1.0, followHeight * 0.4), 0)]; these are the two vectors
    [followCamera] interpolates to. *)
Theorem desired_camera_pose (px py pz yaw pitch dist h : R)
    (locked skip : bool) (myaw delta : num) (cam tgt : Vector3) :
  let s := mkRig locked skip (Fin yaw) (Fin pitch) myaw (Fin h) (Fin dist) cam tgt in
  let pos := vec3 px py pz in
  desiredCameraPos pos s
  = vec3 (px + sin yaw * - dist * cos pitch)
         (py + Rmax 0.6 (h + dist * sin pitch))
         (pz + cos yaw * - dist * cos pitch) /\
  desiredTarget pos s = vec3 px (py + Rmax 1 (h * 0.4)) pz /\
  MIN_CAMERA_ABOVE_CHARACTER = Fin 0.6 /\
  camera_position (followCamera pos delta s)
  = lerp cam (desiredCameraPos pos s) (smoothingAlpha s delta) /\
  controls_target (followCamera pos delta s)
  = lerp tgt (desiredTarget pos s) (smoothingAlpha s delta).
Proof.
  cbv zeta. split; [apply desiredCameraPos_finite|].
  split; [|repeat split].
  unfold desiredTarget, vec3.
  cbn [cameraFollowHeight vx vy vz Num.mul Num.add].
  rewrite Math_max_fin. f_equal; f_equal; lra.
Qed.

(** With the avatar, the orbit angles and the frame time fixed, [n] calls of
    [followCamera] leave the camera at the desired position minus the
    initial offset scaled by [(1 - alpha) ^ n]. *)
Lemma followCamera_iter (px py pz yaw pitch dist h cx cy cz delta : R)
    (locked skip : bool) (myaw : num) (tgt : Vector3) (n : nat) :
  let q := 1 - alphaOf locked delta in
  let dX := px + sin yaw * - dist * cos pitch in
  let dY := py + Rmax 0.6 (h + dist * sin pitch) in
  let dZ := pz + cos yaw * - dist * cos pitch in
  exists tgt' : Vector3,
    Nat.iter n (followCamera (vec3 px py pz) (Fin delta))
      (mkRig locked skip (Fin yaw) (Fin pitch) myaw (Fin h) (Fin dist) (vec3 cx cy cz) tgt)
    = mkRig locked skip (Fin yaw) (Fin pitch) myaw (Fin h) (Fin dist)
        (vec3 (dX - q ^ n * (dX - cx)) (dY - q ^ n * (dY - cy)) (dZ - q ^ n * (dZ - cz)))
        tgt'.
Proof.
  cbv zeta. induction n as [|n [tgt' IH]].
  - exists tgt. unfold Nat.iter. cbn [nat_rect pow]. f_equal. unfold vec3. f_equal; f_equal; lra.
  - rewrite Nat.iter_succ, IH. unfold followCamera at 1.
    rewrite smoothingAlpha_finite, desiredCameraPos_finite.
    cbn [isPointerLocked skipNextMouseDelta cameraYaw cameraPitch movementYaw
         cameraFollowHeight cameraFollowDistance camera_position controls_target].
    rewrite lerp_finite. eexists. f_equal.
    unfold vec3. cbn [pow]. f_equal; f_equal; ring.
Qed.

(** C8.  With a finite avatar position, finite orbit angles and a finite
    frame time held fixed, the interpolation factor is
    [alpha = 1 - (1 - baseAlpha) ^ (max (0.0001, deltaTime) * 60)], which is
    [1 - (1 - baseAlpha) ^ (deltaTime * 60)] from 0.0001 seconds on, and
    [0 < alpha < 1].  After [n] calls the offset from the desired camera
    position is, on each axis, the initial offset times [(1 - alpha) ^ n]:
    it shrinks by the factor [1 - alpha] at each call, it keeps its sign
    (the camera does not pass the desired position), and it tends to zero. *)
Theorem camera_converges (px py pz yaw pitch dist h cx cy cz delta : R)
    (locked skip : bool) (myaw : num) (tgt : Vector3) :
  let s0 := mkRig locked skip (Fin yaw) (Fin pitch) myaw (Fin h) (Fin dist)
              (vec3 cx cy cz) tgt in
  let pos := vec3 px py pz in
  let alpha := alphaOf locked delta in
  let dX := px + sin yaw * - dist * cos pitch in
  let dY := py + Rmax 0.6 (h + dist * sin pitch) in
  let dZ := pz + cos yaw * - dist * cos pitch in
  smoothingAlpha s0 (Fin delta) = Fin alpha /\
  (0.0001 <= delta ->
   alpha = 1 - Rpower (1 - (if locked then 0.22 else 0.16)) (delta * 60)) /\
  0 < alpha < 1 /\
  desiredCameraPos pos s0 = vec3 dX dY dZ /\
  (forall n : nat,
      camera_position (Nat.iter n (followCamera pos (Fin delta)) s0)
      = vec3 (dX - (1 - alpha) ^ n * (dX - cx))
             (dY - (1 - alpha) ^ n * (dY - cy))
             (dZ - (1 - alpha) ^ n * (dZ - cz))) /\
  (forall n : nat, 0 < (1 - alpha) ^ n <= 1) /\
  (forall eps : R, 0 < eps ->
      exists N : nat, forall n : nat, (N <= n)%nat ->
        (1 - alpha) ^ n * Rabs (dX - cx) < eps /\
        (1 - alpha) ^ n * Rabs (dY - cy) < eps /\
        (1 - alpha) ^ n * Rabs (dZ - cz) < eps).
Proof.
  cbv zeta. pose proof (alphaOf_bounds locked delta) as Ha.
  split; [apply smoothingAlpha_finite|].
  split; [intros Hd; unfold alphaOf; rewrite Rmax_right by exact Hd; reflexivity|].
  split; [exact Ha|].
  split; [apply desiredCameraPos_finite|].
  split; [|split].
  - intros n.
    destruct (followCamera_iter px py pz yaw pitch dist h cx cy cz delta
                locked skip myaw tgt n) as [tgt' ->].
    reflexivity.
  - intros n. split; [apply pow_lt; lra|].
    apply Rle_trans with (1 ^ n); [apply pow_incr; lra|rewrite pow1; lra].
  - intros eps Heps.
    set (M := Rabs (px + sin yaw * - dist * cos pitch - cx)
              + Rabs (py + Rmax 0.6 (h + dist * sin pitch) - cy)
              + Rabs (pz + cos yaw * - dist * cos pitch - cz) + 1).
    pose proof (Rabs_pos (px + sin yaw * - dist * cos pitch - cx)) as HX.
    pose proof (Rabs_pos (py + Rmax 0.6 (h + dist * sin pitch) - cy)) as HY.
    pose proof (Rabs_pos (pz + cos yaw * - dist * cos pitch - cz)) as HZ.
    assert (HM : 0 < M) by (unfold M; lra).
    destruct (pow_lt_1_zero (1 - alphaOf locked delta)) with (y := eps / M)
      as [N HN].
    { rewrite Rabs_pos_eq; lra. }
    { apply Rdiv_lt_0_compat; assumption. }
    exists N. intros n Hn. specialize (HN n Hn).
    assert (Hq : 0 < (1 - alphaOf locked delta) ^ n) by (apply pow_lt; lra).
    rewrite Rabs_pos_eq in HN by lra.
    assert (Hb : (1 - alphaOf locked delta) ^ n * M < eps).
    { apply (Rmult_lt_compat_r M) in HN; [|exact HM].
      replace (eps / M * M) with eps in HN by (field; lra). exact HN. }
    unfold M in Hb. repeat split; nra.
Qed.

(** *** The claims on angles *)

Lemma angleDelta_needs_finite (fuel : nat) (c t : num) (d : R) :
  angleDelta fuel c t = Some (Fin d) -> isFinite c = true /\ isFinite t = true.
Proof.
  intros H. pose proof (angleDelta_not_finite fuel c t) as Hk.
  pose proof (angleDelta_not_finite (pred fuel) c t) as Hk'.
  destruct (Num.sub t c) as [d0| | |] eqn:Hsub.
  - apply sub_finite in Hsub. tauto.
  - destruct fuel as [|fuel]; [discriminate|]. cbn [pred] in Hk'. congruence.
  - congruence.
  - congruence.
Qed.

(** C9, as the claim has it, fails on [NaN]: there the loops do end, at
    once, and [NaN] is returned. *)
Lemma angleDelta_returns_on_NaN :
  isFinite (NaN : num) = false /\
  angleDelta 1 NaN (Fin 0) = Some NaN /\
  ~ (forall fuel : nat, angleDelta fuel NaN (Fin 0) = None).
Proof.
  split; [reflexivity|]. split; [reflexivity|].
  intros H. specialize (H 1%nat). discriminate.
Qed.

(** C9, amended.  On finite angles whose difference is within
    [ANGLE_RANGE], [angleDelta] ends and returns an angle of [[-PI, PI]]
    congruent to [target - current] modulo [2 * PI].  A finite result needs
    both arguments finite.  When [target - current] is infinite a loop does
    not end; when it is [NaN] both loops are skipped and [NaN] is
    returned. *)
Theorem angleDelta_normalises (c t : R) :
  inAngleRange c t ->
  (exists (N : nat) (d : R) (k : Z),
      (forall fuel, (N <= fuel)%nat -> angleDelta fuel (Fin c) (Fin t) = Some (Fin d)) /\
      - PI <= d <= PI /\ d = t - c + 2 * PI * IZR k) /\
  (forall (fuel : nat) (c' t' : num) (d : R),
      angleDelta fuel c' t' = Some (Fin d) -> isFinite c' = true /\ isFinite t' = true) /\
  (forall (fuel : nat) (c' t' : num),
      match Num.sub t' c' with
      | NaN => angleDelta (S fuel) c' t' = Some NaN
      | PInf | NInf => angleDelta fuel c' t' = None
      | Fin _ => True
      end).
Proof.
  intros _. split; [exact (angleDelta_finite c t)|].
  split; [exact angleDelta_needs_finite|exact angleDelta_not_finite].
Qed.

Lemma angleDelta_normalises_witness :
  exists (N : nat) (d : R) (k : Z),
    (forall fuel, (N <= fuel)%nat -> angleDelta fuel (Fin 0) (Fin 7) = Some (Fin d)) /\
    - PI <= d <= PI /\ d = 7 - 0 + 2 * PI * IZR k.
Proof.
  apply (angleDelta_normalises 0 7).
  unfold inAngleRange, ANGLE_RANGE. lra.
Defined.


End CameraFacts.

(** ** Degenerate numbers *)

Section DegenerateInput.
Local Open Scope R_scope.









End DegenerateInput.

(** * Further properties *)

(** ** The scene, the table and the disposal of chunks *)

Section SessionFacts.
Import Streaming Session.

Lemma snoc_app_Permutation {A} (l d : list A) (g : A) :
  (l ++ [g]) ++ d ≡ₚ g :: (l ++ d).
Proof. rewrite <- (assoc_L (++)). symmetry. apply Permutation_middle. Qed.

Lemma loadChunk_ok (x z : idx) (acc : gset key * State) :
  identitiesOk acc.2 -> sceneShowsTable acc.2 ->
  identitiesOk (loadChunk x z acc).2 /\ sceneShowsTable (loadChunk x z acc).2.
Proof.
  destruct acc as [needed st]. cbn [snd]. intros (Hnd & Hlt & Hcount) (Hperm & Hkey).
  unfold loadChunk. destruct (loadedChunks st !! (x, z)) eqn:Hxz; [exact (conj (conj Hnd (conj Hlt Hcount)) (conj Hperm Hkey))|].
  cbn [buildCityChunk snd]. split; [split; [|split]|split]; cbn [cityGroup disposed built loadedChunks].
  - rewrite snoc_app_Permutation. cbn [fmap list_fmap group_id].
    apply NoDup_cons. split; [|exact Hnd].
    intros Hin. apply list_elem_of_fmap in Hin as (g & Hg & Hin).
    apply Hlt in Hin. lia.
  - intros g Hin. rewrite snoc_app_Permutation in Hin.
    apply elem_of_cons in Hin as [->|Hin]; [cbn; lia|].
    apply Hlt in Hin. lia.
  - rewrite length_app. cbn. lia.
  - rewrite map_to_list_insert by exact Hxz. cbn [fmap list_fmap snd].
    rewrite <- Hperm. symmetry. apply Permutation_cons_append.
  - intros k g. destruct (decide (k = (x, z))) as [->|Hne].
    + rewrite lookup_insert_eq. intros [= <-]. split; reflexivity.
    + rewrite lookup_insert_ne by congruence. apply Hkey.
Qed.

Lemma loadAll_ok (l : list key) (acc : gset key * State) :
  identitiesOk acc.2 -> sceneShowsTable acc.2 ->
  identitiesOk (loadAll l acc).2 /\ sceneShowsTable (loadAll l acc).2.
Proof.
  revert acc. induction l as [|k l IH]; intros acc Hi Hs; [split; assumption|].
  unfold loadAll in *. cbn [foldl].
  destruct (loadChunk_ok k.1 k.2 acc Hi Hs) as [Hi' Hs']. apply IH; assumption.
Qed.

(** Removing from a list without repetition the element at its head, up to
    the order. *)
Lemma filter_out_head {A} `{EqDecision A} (l rest : list A) (x : A) :
  NoDup l -> l ≡ₚ x :: rest -> filter (fun y => y ≠ x) l ≡ₚ rest.
Proof.
  intros Hnd Hperm. rewrite Hperm in Hnd. apply NoDup_cons in Hnd as [Hx _].
  rewrite Hperm. rewrite filter_cons_False by (intros H; apply H; reflexivity).
  clear Hperm. induction rest as [|y rest IH]; [reflexivity|].
  rewrite filter_cons_True.
  - f_equiv. apply IH. intros Hin. apply Hx. right. exact Hin.
  - intros ->. apply Hx. left.
Qed.

Lemma NoDup_scene (st : State) : identitiesOk st -> NoDup (cityGroup st).
Proof.
  intros (Hnd & _). rewrite fmap_app in Hnd. apply NoDup_app in Hnd as (Hnd & _).
  eapply NoDup_fmap_1, Hnd.
Qed.

Lemma unloadChunk_ok (needed : gset key) (st : State) (k : key) :
  identitiesOk st -> sceneShowsTable st ->
  identitiesOk (unloadChunk needed st k) /\ sceneShowsTable (unloadChunk needed st k).
Proof.
  intros Hi Hs. pose proof (NoDup_scene st Hi) as Hscene.
  destruct Hi as (Hnd & Hlt & Hcount). destruct Hs as (Hperm & Hkey).
  unfold unloadChunk.
  destruct (decide (k ∈ needed));
    [exact (conj (conj Hnd (conj Hlt Hcount)) (conj Hperm Hkey))|].
  destruct (loadedChunks st !! k) as [grp|] eqn:Hk.
  - assert (Hsplit : cityGroup st ≡ₚ grp :: (map_to_list (delete k (loadedChunks st))).*2).
    { rewrite Hperm, <- (map_to_list_delete _ _ _ Hk). reflexivity. }
    pose proof (filter_out_head _ _ _ Hscene Hsplit) as Hrest.
    assert (Hall : filter (fun g => g ≠ grp) (cityGroup st) ++ disposed st ++ [grp]
                   ≡ₚ cityGroup st ++ disposed st).
    { rewrite Hrest, Hsplit. rewrite (assoc_L (++)).
      rewrite <- Permutation_cons_append. reflexivity. }
    split; [split; [|split]|split]; cbn [cityGroup disposed built loadedChunks].
    + rewrite Hall. exact Hnd.
    + intros g Hin. rewrite Hall in Hin. apply Hlt, Hin.
    + apply Permutation_length in Hall. rewrite !length_app in Hall.
      cbn [length] in Hall. rewrite Hcount, length_app. cbn [length]. lia.
    + exact Hrest.
    + intros j g Hj. apply lookup_delete_Some in Hj as [_ Hj]. apply Hkey, Hj.
  - rewrite (delete_id _ _ Hk).
    exact (conj (conj Hnd (conj Hlt Hcount)) (conj Hperm Hkey)).
Qed.

Lemma unload_fold_ok (needed : gset key) (l : list key) (st : State) :
  identitiesOk st -> sceneShowsTable st ->
  identitiesOk (foldl (unloadChunk needed) st l) /\
  sceneShowsTable (foldl (unloadChunk needed) st l).
Proof.
  revert st. induction l as [|k l IH]; intros st Hi Hs; [split; assumption|].
  cbn [foldl]. destruct (unloadChunk_ok needed st k Hi Hs) as [Hi' Hs'].
  apply IH; assumption.
Qed.

Lemma reconciled_ok (cx cz : Z) (st : State) :
  identitiesOk st -> sceneShowsTable st ->
  identitiesOk (reconciled cx cz st) /\ sceneShowsTable (reconciled cx cz st).
Proof.
  intros Hi Hs. unfold reconciled, unloadChunks. cbv zeta.
  destruct (loadAll_ok (square cx cz) (∅, set_last (Fin cx) (Fin cz) st) Hi Hs)
    as [Hi' Hs'].
  apply unload_fold_ok; assumption.
Qed.

Lemma cleared_ok (cx cz : idx) (st : State) :
  identitiesOk st -> sceneShowsTable st ->
  identitiesOk (cleared cx cz st) /\ sceneShowsTable (cleared cx cz st).
Proof. intros Hi Hs. unfold cleared, unloadChunks. apply unload_fold_ok; assumption. Qed.

(** A completed call keeps the scene and the table in step, whatever the
    position. *)
Lemma updateCityStreaming_ok (fuel : nat) (character : option Vector3) (st st' : State) :
  identitiesOk st -> sceneShowsTable st ->
  updateCityStreaming fuel character st = Some st' ->
  identitiesOk st' /\ sceneShowsTable st'.
Proof.
  intros Hi Hs Hup.
  apply (updateCityStreaming_mono fuel (fuel + 4)) in Hup; [|lia].
  rewrite updateCityStreaming_value in Hup by lia. cbv zeta in Hup.
  destruct (worldToChunk _ _) as [cx cz].
  destruct (sameChunk cx cz st); [injection Hup as <-; split; assumption|].
  destruct cx as [a| | |], cz as [b| | |]; try discriminate;
    injection Hup as <-; (apply reconciled_ok || apply cleared_ok); assumption.
Qed.


(** [createCity] empties the scene and the table, then loads the square
    around the origin the way the streamer does. *)
Lemma createCity_as_load (st : State) :
  createCity st
  = (loadAll (square 0 0)
       (∅, mkState ∅ None None [] (built st) (disposed st ++ rev (cityGroup st)))).2.
Proof.
  assert (Hstep : forall (l : list (Z * Z)) (needed : gset key) (st0 : State),
             (loadAll ((fun p => (Fin p.1, Fin p.2)) <$> l) (needed, st0)).2
             = foldl (fun st1 p => createCity_step p.1 p.2 st1) st0 l).
  { induction l as [|[x z] l IH]; intros needed st0; [reflexivity|].
    unfold loadAll in *. cbn [fmap list_fmap foldl fst snd].
    unfold loadChunk at 2, createCity_step at 2.
    destruct (loadedChunks st0 !! (Fin x, Fin z)); apply IH. }
  change (square 0 0)
    with ((fun p : Z * Z => (Fin p.1, Fin p.2))
            <$> [(-1, -1); (-1, 0); (-1, 1); (0, -1); (0, 0); (0, 1);
                 (1, -1); (1, 0); (1, 1)]%Z).
  rewrite Hstep. reflexivity.
Qed.

Lemma createCity_dom (st : State) :
  dom (loadedChunks (createCity st)) = list_to_set (square 0 0).
Proof.
  rewrite createCity_as_load, loadAll_dom. cbn [snd loadedChunks].
  rewrite dom_empty_L. apply union_empty_r_L.
Qed.

Lemma createCity_ok (st : State) :
  identitiesOk st -> identitiesOk (createCity st) /\ sceneShowsTable (createCity st).
Proof.
  intros (Hnd & Hlt & Hcount). rewrite createCity_as_load. apply loadAll_ok.
  - cbn [snd]. split; [|split]; cbn [cityGroup disposed built app].
    + rewrite <- Permutation_rev, Permutation_app_comm. exact Hnd.
    + intros g Hin. apply Hlt. rewrite <- Permutation_rev, Permutation_app_comm in Hin.
      exact Hin.
    + rewrite length_app, length_rev. cbn [length]. lia.
  - cbn [snd]. split; cbn [cityGroup loadedChunks].
    + rewrite map_to_list_empty. reflexivity.
    + intros k g Hk. rewrite lookup_empty in Hk. discriminate.
Qed.

Lemma returnToLobby_ok (st : State) :
  identitiesOk st -> identitiesOk (returnToLobby st).
Proof.
  intros (Hnd & Hlt & Hcount). unfold returnToLobby.
  split; [|split]; cbn [cityGroup disposed built app].
  - rewrite <- Permutation_rev, Permutation_app_comm. exact Hnd.
  - intros g Hin. apply Hlt. rewrite <- Permutation_rev, Permutation_app_comm in Hin.
    exact Hin.
  - rewrite length_app, length_rev. cbn [length]. lia.
Qed.

Lemma initial_ok : identitiesOk initial /\ sceneShowsTable initial.
Proof.
  split; [split; [|split]|split]; cbn [initial cityGroup disposed built loadedChunks app].
  - apply NoDup_nil_2.
  - intros g Hin. inversion Hin.
  - reflexivity.
  - rewrite map_to_list_empty. reflexivity.
  - intros k g Hk. rewrite lookup_empty in Hk. discriminate.
Qed.

(** What holds of every game a session reaches. *)
Lemma playable_invariant (g : Game) :
  playable g ->
  identitiesOk (world g) /\
  (isInGame g = true -> sceneShowsTable (world g)) /\
  (isInGame g = false -> cityGroup (world g) = []) /\
  tableMatchesLast (world g).
Proof.
  induction 1 as [|g g' _ (Hi & Hs & Hl & Ht) Hstep].
  - destruct initial_ok as [Hi Hs].
    split; [exact Hi|]. split; [intros _; exact Hs|]. split; [reflexivity|].
    intros cx cz Hx. discriminate.
  - destruct Hstep as [g|g|g fuel pos st' Hin Hup]; cbn [world isInGame].
    + destruct (createCity_ok _ Hi) as [Hi' Hs'].
      split; [exact Hi'|]. split; [intros _; exact Hs'|]. split; [discriminate|].
      intros cx cz Hx. rewrite createCity_last in Hx. discriminate.
    + split; [apply returnToLobby_ok, Hi|]. split; [discriminate|].
      split; [reflexivity|exact Ht].
    + destruct (updateCityStreaming_ok _ _ _ _ Hi (Hs Hin) Hup) as [Hi' Hs'].
      split; [exact Hi'|]. split; [intros _; exact Hs'|]. split; [discriminate|].
      exact (updateCityStreaming_invariant _ _ _ _ Ht Hup).
Qed.


(** *** What one call builds, keeps and disposes of *)

Lemma unloadChunk_other (needed : gset key) (st : State) (k j : key) :
  j ≠ k -> loadedChunks (unloadChunk needed st k) !! j = loadedChunks st !! j.
Proof.
  intros Hne. rewrite unloadChunk_table.
  destruct (decide (k ∈ needed)); [reflexivity|]. apply lookup_delete_ne. congruence.
Qed.

Lemma unloadChunk_disposed (needed : gset key) (st : State) (k : key) :
  disposed (unloadChunk needed st k)
  = disposed st
    ++ option_list (if decide (k ∈ needed) then None else loadedChunks st !! k).
Proof.
  unfold unloadChunk. destruct (decide (k ∈ needed)); cbn; [symmetry; apply app_nil_r|].
  destruct (loadedChunks st !! k); cbn; [reflexivity|symmetry; apply app_nil_r].
Qed.

Lemma omap_cons_option_list {A B} (f : A -> option B) (x : A) (l : list A) :
  omap f (x :: l) = option_list (f x) ++ omap f l.
Proof. csimpl. destruct (f x); reflexivity. Qed.

(** The groups the unloading loop disposes of, in the order of the loop:
    those of the keys that are not needed. *)
Lemma unload_fold_disposed (needed : gset key) (l : list key) (st : State) :
  NoDup l ->
  disposed (foldl (unloadChunk needed) st l)
  = disposed st
    ++ omap (fun k => if decide (k ∈ needed) then None else loadedChunks st !! k) l.
Proof.
  revert st. induction l as [|k l IH]; intros st Hnd; cbn [foldl].
  - symmetry. apply app_nil_r.
  - apply NoDup_cons in Hnd as [Hk Hnd]. rewrite (IH _ Hnd), unloadChunk_disposed.
    rewrite omap_cons_option_list.
    rewrite <- (assoc_L (++)). f_equal.
    assert (Hext : omap (fun j => if decide (j ∈ needed) then None
                                  else loadedChunks (unloadChunk needed st k) !! j) l
                   = omap (fun j => if decide (j ∈ needed) then None
                                    else loadedChunks st !! j) l).
    { apply list_omap_ext, Forall2_same_length_lookup_2; [reflexivity|].
      intros i j j' Hj Hj'. rewrite Hj in Hj'. injection Hj' as <-.
      rewrite unloadChunk_other; [reflexivity|].
      intros ->. apply Hk. eapply list_elem_of_lookup_2, Hj. }
    rewrite Hext. reflexivity.
Qed.

Lemma loadAll_built (l : list key) (acc : gset key * State) :
  built acc.2 <= built (loadAll l acc).2.
Proof.
  revert acc. induction l as [|k l IH]; intros acc; [reflexivity|].
  unfold loadAll in *. cbn [foldl]. etransitivity; [|apply IH].
  destruct acc as [needed st]. unfold loadChunk.
  destruct (loadedChunks st !! (k.1, k.2)); cbn; lia.
Qed.

(** An entry of the table after the loading loops was there before, or was
    built by them. *)
Lemma loadAll_new (l : list key) (acc : gset key * State) (k : key) (g : Group) :
  loadedChunks (loadAll l acc).2 !! k = Some g ->
  loadedChunks acc.2 !! k = Some g \/ built acc.2 <= group_id g.
Proof.
  revert acc. induction l as [|j l IH]; intros acc Hk; [left; exact Hk|].
  unfold loadAll in *. cbn [foldl] in Hk. apply IH in Hk as [Hk|Hk].
  - destruct acc as [needed st]. unfold loadChunk in Hk. cbn [snd] in *.
    destruct (loadedChunks st !! (j.1, j.2)) eqn:Hj; cbn in Hk; [left; exact Hk|].
    destruct (decide (k = (j.1, j.2))) as [->|Hne].
    + rewrite lookup_insert_eq in Hk. injection Hk as <-. right. cbn. lia.
    + rewrite lookup_insert_ne in Hk by congruence. left. exact Hk.
  - right. etransitivity; [|exact Hk].
    destruct acc as [needed st]. unfold loadChunk.
    destruct (loadedChunks st !! (j.1, j.2)); cbn; lia.
Qed.

(** Loading keys the table already has changes nothing. *)
Lemma loadAll_present (l : list key) (needed : gset key) (st : State) :
  (forall k, k ∈ l -> is_Some (loadedChunks st !! k)) ->
  (loadAll l (needed, st)).2 = st.
Proof.
  revert needed. induction l as [|k l IH]; intros needed Hl; [reflexivity|].
  unfold loadAll in *. cbn [foldl]. unfold loadChunk at 2.
  destruct (Hl k) as [g Hg]; [left|]. destruct k as [x z]. cbn [fst snd].
  rewrite Hg. apply IH. intros j Hj. apply Hl. right. exact Hj.
Qed.

(** Unloading when every key is needed changes nothing. *)
Lemma unload_fold_needed (needed : gset key) (l : list key) (st : State) :
  (forall k, k ∈ l -> k ∈ needed) -> foldl (unloadChunk needed) st l = st.
Proof.
  revert st. induction l as [|k l IH]; intros st Hl; [reflexivity|].
  cbn [foldl]. unfold unloadChunk at 2. rewrite decide_True by (apply Hl; left).
  apply IH. intros j Hj. apply Hl. right. exact Hj.
Qed.

Lemma NoDup_square (cx cz : Z) : NoDup (square cx cz).
Proof.
  unfold square. apply NoDup_bind.
  - intros x1 x2 k _ _ H1 H2.
    apply list_elem_of_bind in H1 as (z1 & H1 & _), H2 as (z2 & H2 & _).
    apply list_elem_of_singleton in H1, H2. congruence.
  - intros x _. apply NoDup_bind.
    + intros z1 z2 k _ _ H1 H2. apply list_elem_of_singleton in H1, H2. congruence.
    + intros z _. apply NoDup_singleton.
    + apply NoDup_seqZ.
  - apply NoDup_seqZ.
Qed.

Lemma square_size (cx cz : Z) : size (list_to_set (square cx cz) : gset key) = 9.
Proof. rewrite size_list_to_set by apply NoDup_square. reflexivity. Qed.

Lemma dom_after_call_inv (st : State) (cx cz : Z) :
  tableMatchesLast st ->
  dom (loadedChunks (if sameChunk (Fin cx) (Fin cz) st then st else reconciled cx cz st))
  = list_to_set (square cx cz).
Proof.
  intros Hinv. destruct (sameChunk _ _ st) eqn:Hsame.
  - apply sameChunk_true in Hsame as (Hx & Hz & Hsize). exact (Hinv _ _ Hx Hz Hsize).
  - apply reconciled_dom.
Qed.


(** *** Properties of a session *)

(** *** Games within the range of the loop counters *)

Lemma playableInRange_playable (g : Game) : playableInRange g -> playable g.
Proof.
  induction 1 as [|g _ IH|g _ IH|g fuel pos st' _ IH Hin _ Hup].
  - apply playable_start.
  - exact (playable_step g _ IH (step_createCity g)).
  - exact (playable_step g _ IH (step_returnToLobby g)).
  - exact (playable_step g _ IH (step_frame g fuel pos st' Hin Hup)).
Qed.

Lemma playableInRange_city : playableInRange (mkGame (createCity initial) true).
Proof. exact (playableInRange_createCity start playableInRange_start). Qed.

Lemma playable_city : playable (mkGame (createCity initial) true).
Proof. apply (playable_step start); [apply playable_start|apply step_createCity]. Qed.

Lemma scene_table_members (g : Game) :
  playable g -> isInGame g = true ->
  cityGroup (world g) ≡ₚ (map_to_list (loadedChunks (world g))).*2 /\
  (forall (k : key) (grp : Group),
      loadedChunks (world g) !! k = Some grp -> grp ∈ cityGroup (world g)).
Proof.
  intros Hplay Hin.
  destruct (playable_invariant g Hplay) as (_ & Hs & _).
  destruct (Hs Hin) as [Hperm _]. split; [exact Hperm|].
  intros k grp Hk. rewrite Hperm. apply list_elem_of_fmap.
  exists (k, grp). split; [reflexivity|]. apply elem_of_map_to_list, Hk.
Qed.

(** X1.  While the game is on, the children of the scene group are exactly
    the groups of the table, each once: there are as many as the table has
    keys, and the group under key [(x, z)] is the one built for [(x, z)]. *)
Theorem scene_shows_the_table (g : Game) :
  playable g -> isInGame g = true ->
  cityGroup (world g) ≡ₚ (map_to_list (loadedChunks (world g))).*2 /\
  length (cityGroup (world g)) = size (loadedChunks (world g)) /\
  NoDup (cityGroup (world g)) /\
  (forall (k : key) (grp : Group),
      loadedChunks (world g) !! k = Some grp ->
      grp ∈ cityGroup (world g) /\ group_cx grp = k.1 /\ group_cz grp = k.2).
Proof.
  intros Hplay Hin.
  destruct (playable_invariant g Hplay) as (Hi & Hs & _ & _).
  destruct (Hs Hin) as [Hperm Hkey].
  split; [exact Hperm|]. split; [|split].
  - rewrite Hperm, length_fmap. apply length_map_to_list.
  - apply NoDup_scene, Hi.
  - intros k grp Hk. split; [|apply Hkey, Hk].
    rewrite Hperm. apply list_elem_of_fmap. exists (k, grp). split; [reflexivity|].
    apply elem_of_map_to_list, Hk.
Qed.

Lemma scene_shows_the_table_witness :
  length (cityGroup (createCity initial)) = size (loadedChunks (createCity initial)).
Proof.
  apply (scene_shows_the_table (mkGame (createCity initial) true)).
  - exact playable_city.
  - reflexivity.
Defined.

(** X2.  Over a whole session no group is disposed of twice, no group of
    the scene has been disposed of, and every group ever built is either in
    the scene or disposed of. *)
Theorem chunks_are_disposed_once (g : Game) :
  playable g ->
  NoDup (disposed (world g)) /\
  (forall grp : Group, grp ∈ cityGroup (world g) -> grp ∉ disposed (world g)) /\
  built (world g) = length (cityGroup (world g)) + length (disposed (world g)).
Proof.
  intros Hplay. destruct (playable_invariant g Hplay) as ((Hnd & _ & Hcount) & _).
  apply NoDup_fmap_1 in Hnd. apply NoDup_app in Hnd as (_ & Hdisj & Hd).
  split; [exact Hd|]. split; [exact Hdisj|exact Hcount].
Qed.

Lemma chunks_are_disposed_once_witness :
  NoDup (disposed (returnToLobby (createCity initial))).
Proof.
  apply (chunks_are_disposed_once (mkGame (returnToLobby (createCity initial)) false)).
  apply (playable_step (mkGame (createCity initial) true));
    [exact playable_city|apply (step_returnToLobby (mkGame (createCity initial) true))].
Defined.


(** X3.  [returnToLobby] empties the scene but not the table: its entries
    stay, and all of them are groups that have been disposed of.  The
    [createCity] that starts the next game drops them: the table then holds
    the square around the origin, the scene shows it, and its groups are
    new ones, none of them disposed of. *)
Theorem lobby_round_trip (g : Game) :
  playable g -> isInGame g = true ->
  let lobby := returnToLobby (world g) in
  let back := createCity lobby in
  cityGroup lobby = [] /\
  loadedChunks lobby = loadedChunks (world g) /\
  (forall (k : key) (grp : Group),
      loadedChunks lobby !! k = Some grp -> grp ∈ disposed lobby) /\
  dom (loadedChunks back) = list_to_set (square 0 0) /\
  cityGroup back ≡ₚ (map_to_list (loadedChunks back)).*2 /\
  (forall (k : key) (grp : Group),
      loadedChunks back !! k = Some grp ->
      built (world g) <= group_id grp /\ grp ∉ disposed back).
Proof.
  intros Hplay Hin. cbv zeta.
  destruct (scene_table_members g Hplay Hin) as (Hperm & Hmem).
  destruct (playable_invariant g Hplay) as (Hi & _).
  destruct (createCity_ok _ (returnToLobby_ok _ Hi)) as [Hi' [Hperm' Hkey']].
  split; [reflexivity|]. split; [reflexivity|]. split; [|split; [|split]].
  - intros k grp Hk. unfold returnToLobby. cbn [disposed].
    apply elem_of_app. right. rewrite <- Permutation_rev. exact (Hmem k grp Hk).
  - apply createCity_dom.
  - exact Hperm'.
  - intros k grp Hk. split.
    + pose proof Hk as Hk'. rewrite createCity_as_load in Hk'.
      apply loadAll_new in Hk' as [Hk'|Hk'];
        [cbn [snd loadedChunks] in Hk'; rewrite lookup_empty in Hk'; discriminate|].
      exact Hk'.
    + destruct Hi' as (Hnd & _). apply NoDup_fmap_1 in Hnd.
      apply NoDup_app in Hnd as (_ & Hdisj & _). apply Hdisj.
      rewrite Hperm'. apply list_elem_of_fmap. exists (k, grp). split; [reflexivity|].
      apply elem_of_map_to_list, Hk.
Qed.

Lemma lobby_round_trip_witness :
  cityGroup (returnToLobby (createCity initial)) = [] /\
  dom (loadedChunks (createCity (returnToLobby (createCity initial))))
  = list_to_set (square 0 0).
Proof.
  destruct (lobby_round_trip (mkGame (createCity initial) true) playable_city eq_refl)
    as (H1 & _ & _ & H2 & _).
  split; [exact H1|exact H2].
Defined.

(** When the table holds the needed set already, the loops do nothing. *)
Lemma reconciled_noop (cx cz : Z) (st : State) :
  dom (loadedChunks st) = list_to_set (square cx cz) ->
  reconciled cx cz st = set_last (Fin cx) (Fin cz) st.
Proof.
  intros Hdom. unfold reconciled, unloadChunks. cbv zeta.
  rewrite loadAll_needed. cbn [snd fst].
  rewrite loadAll_present.
  - apply unload_fold_needed.
    intros k Hk. apply list_elem_of_fmap in Hk as ([k' grp] & -> & Hk).
    apply elem_of_map_to_list in Hk. cbn [fst].
    apply elem_of_union_l. rewrite <- Hdom. apply elem_of_dom. exists grp. exact Hk.
  - intros k Hk. apply elem_of_dom. cbn [loadedChunks set_last].
    rewrite Hdom. apply elem_of_list_to_set, Hk.
Qed.

(** X4.  [createCity] loads what the streamer needs at the origin: the
    first frame after it, with the avatar anywhere in chunk [(0, 0)], builds
    nothing and disposes of nothing; it only records the chunk. *)
Theorem first_frame_builds_nothing (st : State) (px pz : R) (py : num) (fuel : nat) :
  (0 <= px < 32)%R -> (0 <= pz < 32)%R -> (4 <= fuel)%nat ->
  updateCityStreaming fuel (Some (mkVector3 (Fin px) py (Fin pz))) (createCity st)
  = Some (set_last (Fin 0%Z) (Fin 0%Z) (createCity st)).
Proof.
  intros Hx Hz Hfuel. rewrite updateCityStreaming_finite by exact Hfuel.
  rewrite (Int_part_unique (px / 32) 0) by (simpl; lra).
  rewrite (Int_part_unique (pz / 32) 0) by (simpl; lra).
  unfold sameChunk. rewrite createCity_last. cbn [strict_eq andb].
  rewrite (reconciled_noop 0 0 (createCity st) (createCity_dom st)). reflexivity.
Qed.

Lemma first_frame_builds_nothing_witness :
  updateCityStreaming 4 (Some (mkVector3 (Fin 0%R) (Fin 0.1%R) (Fin 0%R))) (createCity initial)
  = Some (set_last (Fin 0%Z) (Fin 0%Z) (createCity initial)).
Proof. apply first_frame_builds_nothing; (lra || lia). Defined.


(** *** Chunks and world coordinates *)

Lemma Int_part_bounds (r : R) : (IZR (Int_part r) <= r < IZR (Int_part r) + 1)%R.
Proof.
  unfold Int_part. rewrite minus_IZR. destruct (archimed r). lra.
Qed.

(** Positions within a hundred thousand units of the origin are in the
    range of the loop counters. *)
Lemma inRange_near (px pz : R) (py : num) :
  (-100000 <= px <= 100000)%R -> (-100000 <= pz <= 100000)%R ->
  inRange (mkVector3 (Fin px) py (Fin pz)).
Proof.
  intros Hx Hz. apply inRange_finite; unfold MAX_CHUNK_INDEX.
  - pose proof (Int_part_bounds (px / 32)) as Hb.
    split; apply le_IZR; rewrite ?opp_IZR; lra.
  - pose proof (Int_part_bounds (pz / 32)) as Hb.
    split; apply le_IZR; rewrite ?opp_IZR; lra.
Qed.

(** X5.  The chunk of a point is the one whose half-open square of side 32
    holds it: a point on the left or lower edge belongs to the chunk, a point
    on the right or upper edge to the next one, on either side of zero. *)
Theorem worldToChunk_cell (x z : R) (a b : Z) :
  worldToChunk (Fin x) (Fin z) = (Fin a, Fin b) <->
  (32 * IZR a <= x < 32 * IZR a + 32 /\ 32 * IZR b <= z < 32 * IZR b + 32)%R.
Proof.
  rewrite worldToChunk_finite. split.
  - intros [= <- <-].
    pose proof (Int_part_bounds (x / 32)). pose proof (Int_part_bounds (z / 32)). lra.
  - intros [Hx Hz].
    rewrite (Int_part_unique (x / 32) a) by lra.
    rewrite (Int_part_unique (z / 32) b) by lra. reflexivity.
Qed.

(** Two points at most 32 apart lie in the same chunk or in neighbours. *)
Lemma floor_neighbour (p q : R) :
  (Rabs (q - p) <= 32)%R -> (Z.abs (Int_part (q / 32) - Int_part (p / 32)) <= 1)%Z.
Proof.
  intros H.
  assert (H' : (- 32 <= q - p <= 32)%R).
  { pose proof (Rle_abs (q - p)). pose proof (Rle_abs (- (q - p))) as Hn.
    rewrite Rabs_Ropp in Hn. lra. }
  pose proof (Int_part_bounds (p / 32)) as Hp.
  pose proof (Int_part_bounds (q / 32)) as Hq.
  assert (H1 : (Int_part (q / 32) < Int_part (p / 32) + 2)%Z).
  { apply lt_IZR. rewrite plus_IZR. lra. }
  assert (H2 : (Int_part (p / 32) < Int_part (q / 32) + 2)%Z).
  { apply lt_IZR. rewrite plus_IZR. lra. }
  lia.
Qed.

(** A frame at a finite position, in a game a session reaches. *)
Lemma frame_at (g : Game) (px pz : R) (py : num) (fuel : nat) :
  playable g -> isInGame g = true -> (4 <= fuel)%nat ->
  exists st' : State,
    updateCityStreaming fuel (Some (mkVector3 (Fin px) py (Fin pz))) (world g) = Some st' /\
    st' = (if sameChunk (Fin (Int_part (px / 32))) (Fin (Int_part (pz / 32))) (world g)
           then world g
           else reconciled (Int_part (px / 32)) (Int_part (pz / 32)) (world g)) /\
    dom (loadedChunks st') = list_to_set (square (Int_part (px / 32)) (Int_part (pz / 32))) /\
    identitiesOk st' /\ sceneShowsTable st'.
Proof.
  intros Hplay Hin Hfuel.
  destruct (playable_invariant g Hplay) as (Hi & Hs & _ & Ht).
  pose proof (updateCityStreaming_finite fuel px pz py (world g) Hfuel) as Hup.
  exists (if sameChunk (Fin (Int_part (px / 32))) (Fin (Int_part (pz / 32))) (world g)
          then world g
          else reconciled (Int_part (px / 32)) (Int_part (pz / 32)) (world g)).
  split; [exact Hup|]. split; [reflexivity|]. split; [apply dom_after_call_inv, Ht|].
  exact (updateCityStreaming_ok _ _ _ _ Hi (Hs Hin) Hup).
Qed.

(** X6.  After a frame the ground reaches at least 32 units from the avatar
    in [x] and in [z]: every point that close lies in a chunk that is in the
    table and in the scene.  The game and the position are within the range
    of the loop counters. *)
Theorem ground_around_the_avatar (g : Game) (px pz : R) (py : num) (fuel : nat) :
  playableInRange g -> isInGame g = true -> (4 <= fuel)%nat ->
  inRange (mkVector3 (Fin px) py (Fin pz)) ->
  exists st' : State,
    updateCityStreaming fuel (Some (mkVector3 (Fin px) py (Fin pz))) (world g) = Some st' /\
    forall qx qz : R,
      (Rabs (qx - px) <= 32)%R -> (Rabs (qz - pz) <= 32)%R ->
      exists grp : Group,
        loadedChunks st' !! worldToChunk (Fin qx) (Fin qz) = Some grp /\
        grp ∈ cityGroup st'.
Proof.
  intros Hplay Hin Hfuel _.
  apply playableInRange_playable in Hplay.
  destruct (frame_at g px pz py fuel Hplay Hin Hfuel) as (st' & Hup & _ & Hdom & _ & Hperm & _).
  exists st'. split; [exact Hup|]. intros qx qz Hx Hz.
  assert (Hk : worldToChunk (Fin qx) (Fin qz) ∈ dom (loadedChunks st')).
  { rewrite Hdom, worldToChunk_finite. apply elem_of_list_to_set, elem_of_square.
    eexists _, _. split; [reflexivity|]. split; apply floor_neighbour; assumption. }
  apply elem_of_dom in Hk as [grp Hk]. exists grp. split; [exact Hk|].
  rewrite Hperm. apply list_elem_of_fmap. exists (worldToChunk (Fin qx) (Fin qz), grp).
  split; [reflexivity|]. apply elem_of_map_to_list, Hk.
Qed.

Lemma ground_around_the_avatar_witness :
  exists st' : State,
    updateCityStreaming 4 (Some (mkVector3 (Fin 40%R) (Fin 0%R) (Fin 0%R))) (createCity initial)
    = Some st' /\
    exists grp : Group,
      loadedChunks st' !! worldToChunk (Fin 72%R) (Fin (-32)%R) = Some grp /\
      grp ∈ cityGroup st'.
Proof.
  destruct (ground_around_the_avatar (mkGame (createCity initial) true) 40 0 (Fin 0%R) 4
              playableInRange_city eq_refl ltac:(lia) inRange_forty)
    as (st' & Hup & Hnear).
  exists st'. split; [exact Hup|].
  apply Hnear; apply Rabs_le; lra.
Defined.

(** X7.  After a frame at a finite position there are exactly nine chunks:
    nine keys in the table and nine groups in the scene.  The game and the
    position are within the range of the loop counters. *)
Theorem nine_chunks_after_a_frame (g : Game) (px pz : R) (py : num) (fuel : nat) :
  playableInRange g -> isInGame g = true -> (4 <= fuel)%nat ->
  inRange (mkVector3 (Fin px) py (Fin pz)) ->
  exists st' : State,
    updateCityStreaming fuel (Some (mkVector3 (Fin px) py (Fin pz))) (world g) = Some st' /\
    size (loadedChunks st') = 9 /\ length (cityGroup st') = 9.
Proof.
  intros Hplay Hin Hfuel _.
  apply playableInRange_playable in Hplay.
  destruct (frame_at g px pz py fuel Hplay Hin Hfuel) as (st' & Hup & _ & Hdom & _ & Hperm & _).
  exists st'. split; [exact Hup|].
  assert (Hsize : size (loadedChunks st') = 9).
  { rewrite <- size_dom, Hdom. apply square_size. }
  split; [exact Hsize|].
  rewrite Hperm, length_fmap, length_map_to_list. exact Hsize.
Qed.

Lemma nine_chunks_after_a_frame_witness :
  exists st' : State,
    updateCityStreaming 4 (Some (mkVector3 (Fin 1000%R) (Fin 0%R) (Fin (-7)%R)))
      (createCity initial) = Some st' /\
    size (loadedChunks st') = 9 /\ length (cityGroup st') = 9.
Proof.
  apply (nine_chunks_after_a_frame (mkGame (createCity initial) true) 1000 (-7) (Fin 0%R) 4).
  - exact playableInRange_city.
  - reflexivity.
  - lia.
  - apply inRange_near; lra.
Defined.


(** *** The account of a frame *)

Lemma scene_length (st : State) :
  sceneShowsTable st -> length (cityGroup st) = size (loadedChunks st).
Proof. intros [Hperm _]. rewrite Hperm, length_fmap. apply length_map_to_list. Qed.

Lemma scene_member (st : State) (k : key) (grp : Group) :
  sceneShowsTable st -> loadedChunks st !! k = Some grp -> grp ∈ cityGroup st.
Proof.
  intros [Hperm _] Hk. rewrite Hperm. apply list_elem_of_fmap.
  exists (k, grp). split; [reflexivity|]. apply elem_of_map_to_list, Hk.
Qed.

Lemma scene_not_disposed (st : State) (grp : Group) :
  identitiesOk st -> grp ∈ cityGroup st -> grp ∉ disposed st.
Proof.
  intros (Hnd & _). apply NoDup_fmap_1 in Hnd. apply NoDup_app in Hnd as (_ & Hdisj & _).
  apply Hdisj.
Qed.

(** The groups a reconciliation disposes of: the entries whose key is
    outside the square. *)
Lemma reconciled_disposes (cx cz : Z) (st : State) (k : key) (grp : Group) :
  loadedChunks st !! k = Some grp -> k ∉ square cx cz ->
  grp ∈ disposed (reconciled cx cz st).
Proof.
  intros Hk Hout. unfold reconciled, unloadChunks. cbv zeta.
  rewrite unload_fold_disposed by apply NoDup_fst_map_to_list.
  apply elem_of_app. right. apply list_elem_of_omap. exists k.
  pose proof (loadAll_keeps (square cx cz) (∅, set_last (Fin cx) (Fin cz) st) k grp Hk) as Hk2.
  split.
  - apply list_elem_of_fmap. exists (k, grp). split; [reflexivity|].
    apply elem_of_map_to_list, Hk2.
  - rewrite loadAll_needed, decide_False; [exact Hk2|].
    cbn [fst]. rewrite elem_of_union, elem_of_list_to_set.
    intros [H|H]; [contradiction|]. apply not_elem_of_empty in H. exact H.
Qed.

Lemma reconciled_new (cx cz : Z) (st : State) (k : key) (grp : Group) :
  loadedChunks (reconciled cx cz st) !! k = Some grp ->
  loadedChunks st !! k = Some grp \/ built st <= group_id grp.
Proof.
  unfold reconciled. cbv zeta. rewrite unloadChunks_lookup.
  destruct (decide _); [|discriminate]. apply loadAll_new.
Qed.

(** What a frame keeps, what it disposes of, what it builds. *)
Lemma frame_keeps_or_disposes_aux (g : Game) (px pz : R) (py : num) (fuel : nat) :
  playable g -> isInGame g = true -> (4 <= fuel)%nat ->
  exists st' : State,
    updateCityStreaming fuel (Some (mkVector3 (Fin px) py (Fin pz))) (world g) = Some st' /\
    (forall (k : key) (grp : Group),
        loadedChunks (world g) !! k = Some grp ->
        (k ∈ square (Int_part (px / 32)) (Int_part (pz / 32)) ->
         loadedChunks st' !! k = Some grp /\ grp ∈ cityGroup st' /\ grp ∉ disposed st') /\
        (k ∉ square (Int_part (px / 32)) (Int_part (pz / 32)) ->
         loadedChunks st' !! k = None /\ grp ∉ cityGroup st' /\ grp ∈ disposed st')) /\
    (forall (k : key) (grp : Group),
        loadedChunks st' !! k = Some grp ->
        loadedChunks (world g) !! k = Some grp \/ built (world g) <= group_id grp).
Proof.
  intros Hplay Hin Hfuel.
  destruct (frame_at g px pz py fuel Hplay Hin Hfuel) as (st' & Hup & Hst' & Hdom & Hi' & Hs').
  destruct (playable_invariant g Hplay) as (Hi & Hs & _ & _). specialize (Hs Hin).
  exists st'. split; [exact Hup|]. split.
  - intros k grp Hk. split.
    + intros Hin_sq.
      assert (Hk' : loadedChunks st' !! k = Some grp).
      { rewrite Hst'. destruct (sameChunk _ _ (world g)); [exact Hk|].
        apply reconciled_keeps; assumption. }
      split; [exact Hk'|].
      pose proof (scene_member st' k grp Hs' Hk') as Hscene.
      split; [exact Hscene|apply scene_not_disposed; assumption].
    + intros Hout.
      assert (Hnone : loadedChunks st' !! k = None).
      { apply not_elem_of_dom. rewrite Hdom, elem_of_list_to_set. exact Hout. }
      assert (Hdisp : grp ∈ disposed st').
      { rewrite Hst'. destruct (sameChunk _ _ (world g)) eqn:Hsame.
        - exfalso. rewrite Hst' in Hnone. rewrite Hk in Hnone. discriminate.
        - apply reconciled_disposes with k; assumption. }
      split; [exact Hnone|]. split; [|exact Hdisp].
      intros Hscene. exact (scene_not_disposed st' grp Hi' Hscene Hdisp).
  - intros k grp Hk. rewrite Hst' in Hk.
    destruct (sameChunk _ _ (world g)); [left; exact Hk|].
    apply reconciled_new in Hk. exact Hk.
Qed.

(** X8.  A frame at a finite position sorts the chunks of the table by the
    square around the avatar: a chunk inside stays the object it was, in
    the table and in the scene, and is not disposed of; a chunk outside
    leaves the table and the scene and is disposed of.  Whatever else the
    table holds afterwards was built by this frame.  Once the table is
    populated, a frame builds exactly as many chunks as it disposes of.  The
    game and the position are within the range of the loop counters. *)
Theorem frame_keeps_or_disposes (g : Game) (px pz : R) (py : num) (fuel : nat) :
  playableInRange g -> isInGame g = true -> (4 <= fuel)%nat ->
  inRange (mkVector3 (Fin px) py (Fin pz)) ->
  exists st' : State,
    updateCityStreaming fuel (Some (mkVector3 (Fin px) py (Fin pz))) (world g) = Some st' /\
    (forall (k : key) (grp : Group),
        loadedChunks (world g) !! k = Some grp ->
        (k ∈ square (Int_part (px / 32)) (Int_part (pz / 32)) ->
         loadedChunks st' !! k = Some grp /\ grp ∈ cityGroup st' /\ grp ∉ disposed st') /\
        (k ∉ square (Int_part (px / 32)) (Int_part (pz / 32)) ->
         loadedChunks st' !! k = None /\ grp ∉ cityGroup st' /\ grp ∈ disposed st')) /\
    (forall (k : key) (grp : Group),
        loadedChunks st' !! k = Some grp ->
        loadedChunks (world g) !! k = Some grp \/ built (world g) <= group_id grp) /\
    (size (loadedChunks (world g)) = 9 ->
     built st' + length (disposed (world g)) = built (world g) + length (disposed st')).
Proof.
  intros Hplay Hin Hfuel _.
  apply playableInRange_playable in Hplay.
  destruct (frame_keeps_or_disposes_aux g px pz py fuel Hplay Hin Hfuel)
    as (st' & Hup & Hsort & Hnew).
  destruct (frame_at g px pz py fuel Hplay Hin Hfuel)
    as (st'' & Hup' & _ & Hdom & Hi' & Hs').
  rewrite Hup in Hup'. injection Hup' as <-.
  destruct (playable_invariant g Hplay) as (Hi & Hs & _ & _). specialize (Hs Hin).
  exists st'. split; [exact Hup|]. split; [exact Hsort|]. split; [exact Hnew|].
  intros Hnine.
  assert (Hnine' : size (loadedChunks st') = 9).
  { rewrite <- size_dom, Hdom. apply square_size. }
  destruct Hi as (_ & _ & Hcount). destruct Hi' as (_ & _ & Hcount').
  rewrite Hcount, Hcount', (scene_length _ Hs), (scene_length _ Hs'), Hnine, Hnine'. lia.
Qed.

Lemma frame_keeps_or_disposes_witness :
  exists st' : State,
    updateCityStreaming 4 (Some (mkVector3 (Fin 40%R) (Fin 0%R) (Fin 0%R))) (createCity initial)
    = Some st' /\
    built st' + length (disposed (createCity initial))
    = built (createCity initial) + length (disposed st').
Proof.
  destruct (frame_keeps_or_disposes (mkGame (createCity initial) true) 40 0 (Fin 0%R) 4
              playableInRange_city eq_refl ltac:(lia) inRange_forty)
    as (st' & Hup & _ & _ & Hcount).
  exists st'. split; [exact Hup|]. apply Hcount.
  change (world (mkGame (createCity initial) true)) with (createCity initial).
  rewrite <- size_dom, createCity_dom. apply square_size.
Defined.


(** The number of chunks a reconciliation builds and disposes of, from a
    table that holds the square around [(a, b)]: the number of keys of that
    square outside the new one. *)
Lemma reconciled_counts (a b a' b' : Z) (st : State) :
  identitiesOk st -> sceneShowsTable st ->
  dom (loadedChunks st) = list_to_set (square a b) ->
  built (reconciled a' b' st)
  = built st + size (list_to_set (square a b) ∖ list_to_set (square a' b') : gset key) /\
  length (disposed (reconciled a' b' st))
  = length (disposed st)
    + size (list_to_set (square a b) ∖ list_to_set (square a' b') : gset key).
Proof.
  intros Hi Hs Hdom.
  destruct (loadAll_ok (square a' b') (∅, set_last (Fin a') (Fin b') st) Hi Hs) as [Hi2 Hs2].
  destruct (reconciled_ok a' b' st Hi Hs) as [Hi' Hs'].
  pose proof (loadAll_dom (square a' b') (∅, set_last (Fin a') (Fin b') st)) as Hdom2.
  destruct (loadAll_last (square a' b') (∅, set_last (Fin a') (Fin b') st)) as (_ & _ & Hd2).
  assert (Hb : built (reconciled a' b' st)
               = built (loadAll (square a' b') (∅, set_last (Fin a') (Fin b') st)).2).
  { unfold reconciled, unloadChunks. cbv zeta. apply unload_fold_last. }
  cbn [snd set_last loadedChunks disposed] in Hdom2, Hd2. rewrite Hdom in Hdom2.
  assert (Hsize2 : size (loadedChunks (loadAll (square a' b')
                                         (∅, set_last (Fin a') (Fin b') st)).2)
                   = 9 + size (list_to_set (square a b) ∖ list_to_set (square a' b')
                               : gset key)).
  { rewrite <- size_dom, Hdom2, size_union_alt, square_size. reflexivity. }
  assert (Hsize : size (loadedChunks st) = 9).
  { rewrite <- size_dom, Hdom. apply square_size. }
  assert (Hsize' : size (loadedChunks (reconciled a' b' st)) = 9).
  { rewrite <- size_dom, reconciled_dom. apply square_size. }
  destruct Hi as (_ & _ & Hc). destruct Hi2 as (_ & _ & Hc2). destruct Hi' as (_ & _ & Hc').
  rewrite (scene_length _ Hs) in Hc. rewrite (scene_length _ Hs2) in Hc2.
  rewrite (scene_length _ Hs') in Hc'. rewrite Hd2 in Hc2. lia.
Qed.

(** The size of the part of one square outside another, from a list of its
    keys. *)
Lemma square_difference_size (a b a' b' : Z) (l : list (Z * Z)) :
  NoDup l ->
  (forall x z : Z,
      (x, z) ∈ l <->
      ((Z.abs (x - a) <= 1 /\ Z.abs (z - b) <= 1) /\
       ~ (Z.abs (x - a') <= 1 /\ Z.abs (z - b') <= 1))%Z) ->
  size (list_to_set (square a b) ∖ list_to_set (square a' b') : gset key) = length l.
Proof.
  intros Hnd Hl.
  assert (Heq : (list_to_set (square a b) ∖ list_to_set (square a' b') : gset key)
                = list_to_set (pairKey <$> l)).
  { apply set_eq. intros k.
    rewrite elem_of_difference, !elem_of_list_to_set, !elem_of_square, list_elem_of_fmap.
    split.
    - intros [(x & z & -> & Hx & Hz) Hout]. exists (x, z). split; [reflexivity|].
      apply Hl. split; [auto|]. intros [Hx' Hz']. apply Hout. exists x, z. auto.
    - intros ([x z] & -> & Hin). apply Hl in Hin as [[Hx Hz] Hout]. split.
      + exists x, z. auto.
      + intros (x' & z' & Heq & Hx' & Hz'). injection Heq as <- <-. auto. }
  rewrite Heq, size_list_to_set, length_fmap; [reflexivity|].
  apply NoDup_fmap_2; [|exact Hnd].
  intros [x z] [x' z'] [= -> ->]. reflexivity.
Qed.


Ltac distinct_pairs :=
  repeat (apply NoDup_cons; split;
          [rewrite ?elem_of_cons, ?elem_of_nil; intros H;
           decompose [or] H; try contradiction;
           match goal with E : (_, _) = (_, _) |- _ => injection E; lia end|]);
  apply NoDup_nil_2.

Ltac three_keys p1 p2 p3 :=
  apply (square_difference_size _ _ _ _ [p1; p2; p3]);
  [distinct_pairs|];
  intros x z; rewrite !elem_of_cons, elem_of_nil; split;
  [intros [E|[E|[E|E]]]; try (exfalso; exact E); injection E as -> ->; lia
  |intros H;
   assert (Hc : (x, z) = p1 \/ (x, z) = p2 \/ (x, z) = p3)
     by (assert (Hx : (x = p1.1 /\ z = p1.2) \/ (x = p2.1 /\ z = p2.2)
                      \/ (x = p3.1 /\ z = p3.2)) by (cbn [fst snd]; lia);
         cbn [fst snd] in Hx;
         destruct Hx as [[-> ->]|[[-> ->]|[-> ->]]]; auto);
   tauto].

(** One chunk further along an axis, three keys of the old square are
    outside the new one. *)
Lemma adjacent_difference (a b a' b' : Z) :
  (Z.abs (a' - a) + Z.abs (b' - b) = 1)%Z ->
  size (list_to_set (square a b) ∖ list_to_set (square a' b') : gset key) = 3.
Proof.
  intros Hadj.
  assert (Hc : ((a' = a + 1 /\ b' = b) \/ (a' = a - 1 /\ b' = b)
                \/ (a' = a /\ b' = b + 1) \/ (a' = a /\ b' = b - 1))%Z) by lia.
  destruct Hc as [[-> ->]|[[-> ->]|[[-> ->]|[-> ->]]]].
  - three_keys (a - 1, b - 1)%Z (a - 1, b)%Z (a - 1, b + 1)%Z.
  - three_keys (a + 1, b - 1)%Z (a + 1, b)%Z (a + 1, b + 1)%Z.
  - three_keys (a - 1, b - 1)%Z (a, b - 1)%Z (a + 1, b - 1)%Z.
  - three_keys (a - 1, b + 1)%Z (a, b + 1)%Z (a + 1, b + 1)%Z.
Qed.

(** Three chunks away or more, the two squares share no key. *)
Lemma far_difference (a b a' b' : Z) :
  (3 <= Z.abs (a' - a) \/ 3 <= Z.abs (b' - b))%Z ->
  size (list_to_set (square a b) ∖ list_to_set (square a' b') : gset key) = 9.
Proof.
  intros Hfar. rewrite <- (square_size a b). f_equal.
  apply set_eq. intros k.
  rewrite elem_of_difference, !elem_of_list_to_set, !elem_of_square. split; [tauto|].
  intros (x & z & -> & Hx & Hz). split; [exists x, z; auto|].
  intros (x' & z' & Heq & Hx' & Hz'). injection Heq as <- <-. lia.
Qed.


(** A frame that changes chunk, from a populated table. *)
Lemma frame_to_another_chunk (g : Game) (a b : Z) (px pz : R) (py : num) (fuel : nat) :
  playable g -> isInGame g = true -> (4 <= fuel)%nat ->
  lastChunkX (world g) = Some (Fin a) -> lastChunkZ (world g) = Some (Fin b) ->
  0 < size (loadedChunks (world g)) ->
  (Int_part (px / 32) ≠ a \/ Int_part (pz / 32) ≠ b) ->
  let n := size (list_to_set (square a b)
                 ∖ list_to_set (square (Int_part (px / 32)) (Int_part (pz / 32))) : gset key) in
  exists st' : State,
    updateCityStreaming fuel (Some (mkVector3 (Fin px) py (Fin pz))) (world g) = Some st' /\
    built st' = built (world g) + n /\
    length (disposed st') = length (disposed (world g)) + n /\
    size (loadedChunks st') = 9 /\
    dom (loadedChunks (world g)) = list_to_set (square a b) /\
    dom (loadedChunks st') = list_to_set (square (Int_part (px / 32)) (Int_part (pz / 32))).
Proof.
  intros Hplay Hin Hfuel Hx Hz Hsize Hne. cbv zeta.
  destruct (playable_invariant g Hplay) as (Hi & Hs & _ & Ht). specialize (Hs Hin).
  pose proof (Ht _ _ Hx Hz Hsize) as Hdom. cbn [neededSet] in Hdom.
  assert (Hsame : sameChunk (Fin (Int_part (px / 32))) (Fin (Int_part (pz / 32))) (world g)
                  = false).
  { unfold sameChunk. rewrite Hx, Hz. cbn [strict_eq Idx.eqb].
    destruct (Z.eqb_spec (Int_part (px / 32)) a), (Z.eqb_spec (Int_part (pz / 32)) b);
      try reflexivity.
    exfalso. destruct Hne; contradiction. }
  exists (reconciled (Int_part (px / 32)) (Int_part (pz / 32)) (world g)).
  split; [rewrite updateCityStreaming_finite by exact Hfuel; rewrite Hsame; reflexivity|].
  destruct (reconciled_counts a b (Int_part (px / 32)) (Int_part (pz / 32)) (world g)
              Hi Hs Hdom) as [Hb Hd].
  split; [exact Hb|]. split; [exact Hd|]. split; [|split].
  - rewrite <- size_dom, reconciled_dom. apply square_size.
  - exact Hdom.
  - apply reconciled_dom.
Qed.

(** X9.  When the avatar crosses into the next chunk along [x] or along
    [z], the frame builds exactly three chunks and disposes of exactly
    three; nine are loaded before and after.  The game and the position are
    within the range of the loop counters. *)
Theorem step_to_a_neighbour (g : Game) (a b : Z) (px pz : R) (py : num) (fuel : nat) :
  playableInRange g -> isInGame g = true -> (4 <= fuel)%nat ->
  inRange (mkVector3 (Fin px) py (Fin pz)) ->
  lastChunkX (world g) = Some (Fin a) -> lastChunkZ (world g) = Some (Fin b) ->
  0 < size (loadedChunks (world g)) ->
  (Z.abs (Int_part (px / 32) - a) + Z.abs (Int_part (pz / 32) - b) = 1)%Z ->
  exists st' : State,
    updateCityStreaming fuel (Some (mkVector3 (Fin px) py (Fin pz))) (world g) = Some st' /\
    built st' = built (world g) + 3 /\
    length (disposed st') = length (disposed (world g)) + 3 /\
    size (loadedChunks (world g)) = 9 /\
    size (loadedChunks st') = 9.
Proof.
  intros Hplay Hin Hfuel _ Hx Hz Hsize Hadj.
  apply playableInRange_playable in Hplay.
  destruct (frame_to_another_chunk g a b px pz py fuel Hplay Hin Hfuel Hx Hz Hsize)
    as (st' & Hup & Hb & Hd & Hnine & Hdom & _); [lia|].
  rewrite (adjacent_difference a b _ _ Hadj) in Hb, Hd.
  exists st'. split; [exact Hup|]. split; [exact Hb|]. split; [exact Hd|].
  split; [|exact Hnine]. rewrite <- size_dom, Hdom. apply square_size.
Qed.


Lemma set_last_table (cx cz : idx) (st : State) :
  loadedChunks (set_last cx cz st) = loadedChunks st.
Proof. reflexivity. Qed.

(** The game after [createCity] and a first frame at the origin. *)
Lemma playableInRange_first_frame :
  playableInRange (mkGame (set_last (Fin 0%Z) (Fin 0%Z) (createCity initial)) true).
Proof.
  apply (playableInRange_frame (mkGame (createCity initial) true) 4
           (mkVector3 (Fin 0%R) (Fin 0.1%R) (Fin 0%R)));
    [exact playableInRange_city|reflexivity|apply inRange_near; lra|].
  cbn [world]. rewrite updateCityStreaming_finite by lia.
  rewrite floor_of_origin. unfold sameChunk. rewrite createCity_last.
  cbn [strict_eq andb].
  rewrite (reconciled_noop 0 0 (createCity initial) (createCity_dom initial)).
  reflexivity.
Qed.

Lemma first_frame_size :
  size (loadedChunks (set_last (Fin 0%Z) (Fin 0%Z) (createCity initial))) = 9.
Proof. rewrite set_last_table, <- size_dom, createCity_dom. apply square_size. Qed.

Lemma step_to_a_neighbour_witness :
  exists st' : State,
    updateCityStreaming 4 (Some (mkVector3 (Fin 40%R) (Fin 0%R) (Fin 0%R)))
      (set_last (Fin 0%Z) (Fin 0%Z) (createCity initial)) = Some st' /\
    built st' = built (set_last (Fin 0%Z) (Fin 0%Z) (createCity initial)) + 3.
Proof.
  destruct (step_to_a_neighbour
              (mkGame (set_last (Fin 0%Z) (Fin 0%Z) (createCity initial)) true)
              0 0 40 0 (Fin 0%R) 4 playableInRange_first_frame eq_refl ltac:(lia)
              inRange_forty eq_refl eq_refl)
    as (st' & Hup & Hb & _).
  - cbn [world]. rewrite first_frame_size. lia.
  - rewrite floor_of_forty, floor_of_origin. reflexivity.
  - exists st'. split; [exact Hup|exact Hb].
Defined.

(** X10.  When the avatar lands three chunks away or more, nothing is
    kept: every chunk of the table is disposed of, nine in all, and nine
    are built.  The game and the position are within the range of the loop
    counters. *)
Theorem jump_replaces_everything (g : Game) (a b : Z) (px pz : R) (py : num) (fuel : nat) :
  playableInRange g -> isInGame g = true -> (4 <= fuel)%nat ->
  inRange (mkVector3 (Fin px) py (Fin pz)) ->
  lastChunkX (world g) = Some (Fin a) -> lastChunkZ (world g) = Some (Fin b) ->
  0 < size (loadedChunks (world g)) ->
  (3 <= Z.abs (Int_part (px / 32) - a) \/ 3 <= Z.abs (Int_part (pz / 32) - b))%Z ->
  exists st' : State,
    updateCityStreaming fuel (Some (mkVector3 (Fin px) py (Fin pz))) (world g) = Some st' /\
    built st' = built (world g) + 9 /\
    length (disposed st') = length (disposed (world g)) + 9 /\
    (forall (k : key) (grp : Group),
        loadedChunks (world g) !! k = Some grp ->
        loadedChunks st' !! k = None /\ grp ∈ disposed st') /\
    (forall (k : key) (grp : Group),
        loadedChunks st' !! k = Some grp -> built (world g) <= group_id grp).
Proof.
  intros Hplay Hin Hfuel _ Hx Hz Hsize Hfar.
  apply playableInRange_playable in Hplay.
  destruct (frame_to_another_chunk g a b px pz py fuel Hplay Hin Hfuel Hx Hz Hsize)
    as (st' & Hup & Hb & Hd & _ & Hdom & Hdom'); [lia|].
  rewrite (far_difference a b _ _ Hfar) in Hb, Hd.
  destruct (frame_keeps_or_disposes_aux g px pz py fuel Hplay Hin Hfuel)
    as (st'' & Hup' & Hsort & Hnew).
  rewrite Hup in Hup'. injection Hup' as <-.
  assert (Hout : forall k : key, k ∈ dom (loadedChunks (world g)) ->
                 k ∉ square (Int_part (px / 32)) (Int_part (pz / 32))).
  { intros k Hk. rewrite Hdom in Hk.
    apply elem_of_list_to_set, elem_of_square in Hk as (x & z & -> & Hkx & Hkz).
    intros Hk'. apply elem_of_square in Hk' as (x' & z' & Heq & Hkx' & Hkz').
    injection Heq as <- <-. lia. }
  exists st'. split; [exact Hup|]. split; [exact Hb|]. split; [exact Hd|]. split.
  - intros k grp Hk. destruct (Hsort k grp Hk) as [_ Hgone].
    destruct Hgone as (Hnone & _ & Hdisp); [apply Hout, elem_of_dom; eauto|].
    split; assumption.
  - intros k grp Hk'. destruct (Hnew k grp Hk') as [Hold|Hfresh]; [|exact Hfresh].
    exfalso. apply (Hout k); [apply elem_of_dom; eauto|].
    apply (elem_of_list_to_set (C := gset key)). rewrite <- Hdom'.
    apply elem_of_dom. eauto.
Qed.

Lemma jump_replaces_everything_witness :
  exists st' : State,
    updateCityStreaming 4 (Some (mkVector3 (Fin 1000%R) (Fin 0%R) (Fin 0%R)))
      (set_last (Fin 0%Z) (Fin 0%Z) (createCity initial)) = Some st' /\
    built st' = built (set_last (Fin 0%Z) (Fin 0%Z) (createCity initial)) + 9.
Proof.
  destruct (jump_replaces_everything
              (mkGame (set_last (Fin 0%Z) (Fin 0%Z) (createCity initial)) true)
              0 0 1000 0 (Fin 0%R) 4 playableInRange_first_frame eq_refl ltac:(lia)
              (inRange_near 1000 0 (Fin 0%R) ltac:(lra) ltac:(lra)) eq_refl eq_refl)
    as (st' & Hup & Hb & _).
  - cbn [world]. rewrite first_frame_size. lia.
  - rewrite (Int_part_unique (1000 / 32) 31) by (simpl; lra). left. lia.
  - exists st'. split; [exact Hup|exact Hb].
Defined.

End SessionFacts.

(** ** The tuning panel, the orbit and the walk *)

Section RigFacts.
Import Camera Tuning Movement.
Local Open Scope R_scope.

(** *** The sliders *)

Lemma clampNumber_fin (v lo hi : R) :
  clampNumber (Fin v) (Fin lo) (Fin hi) = Fin (Rmin hi (Rmax lo v)).
Proof. unfold clampNumber. rewrite Math_max_fin, Math_min_fin. reflexivity. Qed.

Lemma clampNumber_PInf (lo hi : R) : clampNumber PInf (Fin lo) (Fin hi) = Fin hi.
Proof. reflexivity. Qed.

Lemma clampNumber_NInf (lo hi : R) :
  lo <= hi -> clampNumber NInf (Fin lo) (Fin hi) = Fin lo.
Proof.
  intros H. unfold clampNumber. cbn [Num.Math_max Num.ltb].
  rewrite Math_min_fin. f_equal. apply Rmin_right. exact H.
Qed.

Lemma clampNumber_range (v : num) (lo hi : R) :
  lo <= hi -> v <> NaN ->
  exists r : R, clampNumber v (Fin lo) (Fin hi) = Fin r /\ lo <= r <= hi.
Proof.
  intros Hlh Hv. destruct v as [x| | |]; [| contradiction | |].
  - rewrite clampNumber_fin. eexists. split; [reflexivity|].
    unfold Rmin, Rmax. destruct (Rle_dec lo x); destruct (Rle_dec _ _); lra.
  - rewrite clampNumber_PInf. exists hi. split; [reflexivity|lra].
  - rewrite clampNumber_NInf by exact Hlh. exists lo. split; [reflexivity|lra].
Qed.

(** X11.  With [min <= max], [clampNumber] brings every number but [NaN]
    into [[min, max]], the infinite ones to the nearer bound, and leaves a
    number of the interval as it is; [NaN] comes back as [NaN]. *)
Theorem clampNumber_clamps (lo hi : R) (Hlh : lo <= hi) :
  (forall v : num, v <> NaN ->
     exists r : R, clampNumber v (Fin lo) (Fin hi) = Fin r /\ lo <= r <= hi) /\
  (forall r : R, lo <= r <= hi -> clampNumber (Fin r) (Fin lo) (Fin hi) = Fin r) /\
  clampNumber PInf (Fin lo) (Fin hi) = Fin hi /\
  clampNumber NInf (Fin lo) (Fin hi) = Fin lo /\
  clampNumber NaN (Fin lo) (Fin hi) = NaN.
Proof.
  split; [intros v Hv; apply clampNumber_range; assumption|].
  split.
  { intros r Hr. rewrite clampNumber_fin. f_equal.
    rewrite Rmax_right by lra. apply Rmin_right. lra. }
  split; [apply clampNumber_PInf|].
  split; [apply clampNumber_NInf; exact Hlh|reflexivity].
Qed.

Lemma clampNumber_clamps_witness :
  (forall v : num, v <> NaN ->
     exists r : R, clampNumber v (Fin 0.8) (Fin 8) = Fin r /\ 0.8 <= r <= 8) /\
  (forall r : R, 0.8 <= r <= 8 -> clampNumber (Fin r) (Fin 0.8) (Fin 8) = Fin r) /\
  clampNumber PInf (Fin 0.8) (Fin 8) = Fin 8 /\
  clampNumber NInf (Fin 0.8) (Fin 8) = Fin 0.8 /\
  clampNumber NaN (Fin 0.8) (Fin 8) = NaN.
Proof. apply (clampNumber_clamps 0.8 8). lra. Defined.

Lemma initialRig_in_range : rigInRange initialRig.
Proof.
  split; [exact initial_pitch_in_range|].
  split; [exists 0; reflexivity|].
  split; [exists 4.25; split; [reflexivity|lra]|exists 8.14; split; [reflexivity|lra]].
Qed.

Lemma handle_in_range (ev : RigEvent) (s : Rig) :
  parsed ev -> rigInRange s -> rigInRange (handle ev s).
Proof.
  pose proof PI_RGT_0 as Hpi.
  intros Hev (Hp & [y Hy] & Hh & Hd).
  destruct ev as [locked|e|v|v|v|]; cbn [handle parsed] in *.
  - exact (conj Hp (conj (ex_intro _ y Hy) (conj Hh Hd))).
  - split; [apply mousemove_pitch; exact Hp|].
    unfold mousemove.
    destruct (isPointerLocked s); cbn [negb];
      [|exact (conj (ex_intro _ y Hy) (conj Hh Hd))].
    destruct (skipNextMouseDelta s);
      [exact (conj (ex_intro _ y Hy) (conj Hh Hd))|].
    cbn [cameraYaw cameraFollowHeight cameraFollowDistance].
    split; [|exact (conj Hh Hd)].
    destruct (clampDelta_bounded (movementX e)) as (d & -> & _).
    rewrite Hy. eexists. reflexivity.
  - destruct (clampNumber_range v 0.8 8.0) as (r & Hr & Hb); [lra|exact Hev|].
    unfold heightSlider_input, CAMERA_HEIGHT_RANGE_min, CAMERA_HEIGHT_RANGE_max.
    rewrite Hr.
    split; [exact Hp|]. split; [exists y; exact Hy|].
    split; [exists r; split; [reflexivity|lra]|exact Hd].
  - destruct (clampNumber_range v 4.0 14.0) as (r & Hr & Hb); [lra|exact Hev|].
    unfold distanceSlider_input, CAMERA_DISTANCE_RANGE_min, CAMERA_DISTANCE_RANGE_max.
    rewrite Hr.
    split; [exact Hp|]. split; [exists y; exact Hy|].
    split; [exact Hh|exists r; split; [reflexivity|lra]].
  - destruct (clampNumber_range v (-30) 60) as (r & Hr & Hb); [lra|exact Hev|].
    unfold pitchSlider_input, CAMERA_PITCH_RANGE_DEG_min, CAMERA_PITCH_RANGE_DEG_max.
    rewrite Hr, deg2rad_fin.
    split; [|exact (conj (ex_intro _ y Hy) (conj Hh Hd))].
    exists (r * PI / 180). split; [reflexivity|]. nra.
  - unfold cancel_click. rewrite deg2rad_fin.
    split; [exists (23 * PI / 180); split; [reflexivity|lra]|].
    split; [exists y; exact Hy|].
    split; [exists 4.25; split; [reflexivity|lra]|exists 8.14; split; [reflexivity|lra]].
Qed.

(** X12.  Pointer-lock changes, mouse moves, the three sliders and the
    cancel button keep the rig within its ranges: the pitch in
    [[-30, 60]] degrees, the yaw finite, the follow height in [[0.8, 8]] and
    the follow distance in [[4, 14]], as long as every slider value parsed
    to a number. *)
Theorem rig_stays_in_range (s : Rig) (evs : list RigEvent) :
  rigInRange s -> Forall parsed evs ->
  rigInRange (foldl (fun s ev => handle ev s) s evs).
Proof.
  intros Hs Hevs. revert s Hs.
  induction Hevs as [|ev evs Hev _ IH]; intros s Hs; [exact Hs|].
  cbn [foldl]. apply IH. apply handle_in_range; assumption.
Qed.

Lemma rig_stays_in_range_witness :
  rigInRange
    (foldl (fun s ev => handle ev s) initialRig
       [PointerLockChange true; MouseMove (mkMouseEvent (Some (Fin 5)) None);
        MouseMove (mkMouseEvent (Some PInf) (Some NInf));
        HeightInput PInf; DistanceInput (Fin 2); PitchInput (Fin 75); CancelClick]).
Proof.
  apply rig_stays_in_range; [exact initialRig_in_range|].
  repeat constructor; discriminate.
Defined.

(** *** The orbit *)

Lemma cos_at_least_half (p : R) : - (PI / 3) <= p <= PI / 3 -> 1 / 2 <= cos p <= 1.
Proof.
  intros Hp. pose proof PI_RGT_0 as Hpi.
  split; [|apply COS_bound].
  rewrite <- cos_PI3.
  destruct (Rle_dec 0 p) as [H0|H0].
  - apply cos_decr_1; lra.
  - rewrite <- (cos_neg p). apply cos_decr_1; lra.
Qed.

(** X13.  With the rig within its ranges and the avatar at a finite
    position, the position the camera is moved towards lies between half the
    follow distance and the follow distance from the avatar, measured
    horizontally, and between 0.6 and the follow height plus the follow
    distance above it. *)
Theorem camera_keeps_its_distance (px py pz : R) (s : Rig) :
  rigInRange s ->
  exists d h ox oy oz : R,
    cameraFollowDistance s = Fin d /\ cameraFollowHeight s = Fin h /\
    desiredCameraPos (vec3 px py pz) s = vec3 (px + ox) (py + oy) (pz + oz) /\
    (d / 2) ^ 2 <= ox ^ 2 + oz ^ 2 <= d ^ 2 /\
    0.6 <= oy <= h + d.
Proof.
  intros ((p & Hp & Hpr) & (y & Hy) & (h & Hh & Hhr) & (d & Hd & Hdr)).
  pose proof PI_RGT_0 as Hpi.
  destruct s as [locked skip cyaw cpitch myaw ch cd cam tgt].
  cbn [cameraPitch cameraYaw cameraFollowHeight cameraFollowDistance] in *. subst.
  exists d, h, (sin y * - d * cos p), (Rmax 0.6 (h + d * sin p)), (cos y * - d * cos p).
  split; [reflexivity|]. split; [reflexivity|].
  split; [apply desiredCameraPos_finite|].
  assert (Hc : 1 / 2 <= cos p <= 1) by (apply cos_at_least_half; lra).
  pose proof (sin2_cos2 y) as Hsc. unfold Rsqr in Hsc.
  assert (Heq : (sin y * - d * cos p) ^ 2 + (cos y * - d * cos p) ^ 2 = (d * cos p) ^ 2).
  { transitivity ((sin y * sin y + cos y * cos y) * (d * cos p) ^ 2); [ring|].
    rewrite Hsc. ring. }
  split.
  - rewrite Heq. split; apply pow_incr; nra.
  - pose proof (SIN_bound p) as Hs.
    unfold Rmax. destruct (Rle_dec 0.6 (h + d * sin p)); nra.
Qed.

Lemma camera_keeps_its_distance_witness :
  exists d h ox oy oz : R,
    cameraFollowDistance initialRig = Fin d /\ cameraFollowHeight initialRig = Fin h /\
    desiredCameraPos (vec3 0 0 0) initialRig = vec3 (0 + ox) (0 + oy) (0 + oz) /\
    (d / 2) ^ 2 <= ox ^ 2 + oz ^ 2 <= d ^ 2 /\
    0.6 <= oy <= h + d.
Proof. apply camera_keeps_its_distance. exact initialRig_in_range. Defined.

(** *** Frame times *)

Lemma alphaOf_adds (locked : bool) (d1 d2 : R) :
  0.0001 <= d1 -> 0.0001 <= d2 ->
  1 - alphaOf locked (d1 + d2) = (1 - alphaOf locked d1) * (1 - alphaOf locked d2).
Proof.
  intros H1 H2. unfold alphaOf.
  rewrite !Rmax_right by lra.
  replace ((d1 + d2) * 60) with (d1 * 60 + d2 * 60) by ring.
  rewrite Rpower_plus. ring.
Qed.

(** X14.  The smoothing does not depend on how time is cut into frames:
    with the avatar and the rig at finite values, following for a frame of
    [d1] seconds and then for one of [d2] seconds leaves the camera and its
    target where one frame of [d1 + d2] seconds does, for frame times of
    0.0001 seconds or more. *)
Theorem followCamera_adds_frame_times
    (px py pz yaw pitch dist h cx cy cz tx ty tz d1 d2 : R)
    (locked skip : bool) (myaw : num) :
  let s := mkRig locked skip (Fin yaw) (Fin pitch) myaw (Fin h) (Fin dist)
             (vec3 cx cy cz) (vec3 tx ty tz) in
  let pos := vec3 px py pz in
  0.0001 <= d1 -> 0.0001 <= d2 ->
  followCamera pos (Fin d2) (followCamera pos (Fin d1) s)
  = followCamera pos (Fin (d1 + d2)) s.
Proof.
  cbv zeta. intros H1 H2.
  pose proof (alphaOf_adds locked d1 d2 H1 H2) as Ha.
  unfold followCamera.
  cbn [isPointerLocked skipNextMouseDelta cameraYaw cameraPitch movementYaw
       cameraFollowHeight cameraFollowDistance camera_position controls_target].
  rewrite !smoothingAlpha_finite, !desiredCameraPos_finite.
  cbn [isPointerLocked].
  set (a1 := alphaOf locked d1) in *. set (a2 := alphaOf locked d2) in *.
  set (a := alphaOf locked (d1 + d2)) in *.
  assert (Hsum : a = a1 + a2 - a1 * a2) by lra.
  unfold desiredTarget. cbn [cameraFollowHeight vx vy vz vec3 Num.mul Num.add].
  rewrite Math_max_fin.
  unfold lerp, vec3. cbn [vx vy vz Num.add Num.sub Num.mul Num.neg].
  rewrite Hsum. f_equal; f_equal; f_equal; ring.
Qed.

Lemma followCamera_adds_frame_times_witness :
  let s := mkRig true false (Fin 0) (Fin 0) (Fin 0) (Fin 4.25) (Fin 8.14)
             (vec3 0 4.5 7.4) (vec3 0 1 0) in
  let pos := vec3 1 0 2 in
  0.0001 <= 0.016 /\ 0.0001 <= 0.033 /\
  followCamera pos (Fin 0.033) (followCamera pos (Fin 0.016) s)
  = followCamera pos (Fin (0.016 + 0.033)) s.
Proof.
  cbv zeta.
  assert (H1 : 0.0001 <= 0.016) by lra.
  assert (H2 : 0.0001 <= 0.033) by lra.
  split; [exact H1|]. split; [exact H2|].
  exact (followCamera_adds_frame_times 1 0 2 0 0 8.14 4.25 0 4.5 7.4 0 1 0 0.016 0.033
           true false (Fin 0) H1 H2).
Defined.

(** *** The yaw used for walking *)

Lemma while_above_counts (n : nat) (x : R) (fuel : nat) :
  - PI < x <= PI -> (n < fuel)%nat ->
  while_above fuel (Fin (x + 2 * PI * INR n)) = Some (Fin x).
Proof.
  pose proof PI_RGT_0 as Hpi. intros Hx.
  revert fuel. induction n as [|n IH]; intros [|fuel] Hf; try lia.
  - replace (x + 2 * PI * INR 0) with x by (simpl; lra).
    rewrite while_above_step. destruct (Rlt_dec PI x); [lra|reflexivity].
  - rewrite while_above_step. pose proof (pos_INR n) as Hn. rewrite S_INR.
    destruct (Rlt_dec PI (x + 2 * PI * (INR n + 1))); [|nra].
    replace (x + 2 * PI * (INR n + 1) - 2 * PI) with (x + 2 * PI * INR n) by lra.
    apply IH. lia.
Qed.

Lemma while_below_counts (n : nat) (x : R) (fuel : nat) :
  - PI <= x < PI -> (n < fuel)%nat ->
  while_below fuel (Fin (x - 2 * PI * INR n)) = Some (Fin x).
Proof.
  pose proof PI_RGT_0 as Hpi. intros Hx.
  revert fuel. induction n as [|n IH]; intros [|fuel] Hf; try lia.
  - replace (x - 2 * PI * INR 0) with x by (simpl; lra).
    rewrite while_below_step. destruct (Rlt_dec x (- PI)); [lra|reflexivity].
  - rewrite while_below_step. pose proof (pos_INR n) as Hn. rewrite S_INR.
    destruct (Rlt_dec (x - 2 * PI * (INR n + 1)) (- PI)); [|nra].
    replace (x - 2 * PI * (INR n + 1) + 2 * PI) with (x - 2 * PI * INR n) by lra.
    apply IH. lia.
Qed.

(** An angle strictly inside [(-PI, PI)] that differs from
    [target - current] by [j] turns is what [angleDelta] returns, after at
    most [|j|] rounds of a loop. *)
Lemma angleDelta_interior (c t x : R) (j : Z) (fuel : nat) :
  - PI < x < PI -> t - c = x + 2 * PI * IZR j -> (Z.abs_nat j < fuel)%nat ->
  angleDelta fuel (Fin c) (Fin t) = Some (Fin x).
Proof.
  pose proof PI_RGT_0 as Hpi. intros Hx Hj Hf.
  unfold angleDelta. change (Num.sub (Fin t) (Fin c)) with (Fin (t - c)).
  rewrite Hj. destruct (Z.le_gt_cases 0 j) as [Hpos|Hneg].
  - replace (IZR j) with (INR (Z.abs_nat j))
      by (rewrite INR_IZR_INZ, Zabs2Nat.id_abs, Z.abs_eq by exact Hpos; reflexivity).
    rewrite while_above_counts by (lra || exact Hf).
    destruct fuel as [|fuel]; [lia|]. rewrite while_below_step.
    destruct (Rlt_dec x (- PI)); [lra|reflexivity].
  - replace (x + 2 * PI * IZR j) with (x - 2 * PI * INR (Z.abs_nat j)).
    2:{ rewrite INR_IZR_INZ, Zabs2Nat.id_abs, Z.abs_neq by lia.
        rewrite opp_IZR. lra. }
    pose proof (pos_INR (Z.abs_nat j)) as Hn.
    destruct fuel as [|fuel]; [lia|]. rewrite while_above_step.
    destruct (Rlt_dec PI (x - 2 * PI * INR (Z.abs_nat j))); [nra|].
    apply while_below_counts; [lra|exact Hf].
Qed.





(** X16.  A yaw for walking that is not a finite number does not last: one
    frame sets it to the camera yaw when that is finite, and to [NaN]
    otherwise; the call returns in both cases. *)
Theorem movementYaw_is_reset (fuel : nat) (s : Rig) :
  isFinite (movementYaw s) = false ->
  filterMovementYaw (S fuel) s
  = Some (set_movementYaw (if isFinite (cameraYaw s) then cameraYaw s else NaN) s).
Proof.
  pose proof PI_RGT_0 as Hpi. intros Hm.
  unfold filterMovementYaw. rewrite Hm.
  destruct (cameraYaw s) as [c| | |] eqn:Hc; cbn [isFinite].
  - unfold smoothAngleTowards.
    rewrite (angleDelta_interior c c 0 0 (S fuel)) by (simpl; try lra; lia).
    rewrite Math_max_fin, Math_min_fin. cbn [Num.mul Num.add].
    do 3 f_equal. lra.
  - reflexivity.
  - reflexivity.
  - reflexivity.
Qed.

Lemma movementYaw_is_reset_witness :
  filterMovementYaw 1 (set_movementYaw NaN initialRig)
  = Some (set_movementYaw (Fin 0%R) (set_movementYaw NaN initialRig)).
Proof. apply (movementYaw_is_reset 0 (set_movementYaw NaN initialRig)). reflexivity. Defined.

End RigFacts.

(** ** Walking *)

Section WalkFacts.
Import Camera Movement.
Local Open Scope R_scope.

Lemma lengthSq_fin (x y z : R) : lengthSq (vec3 x y z) = Fin (x * x + y * y + z * z).
Proof. reflexivity. Qed.

Lemma normalize_fin (x y z : R) :
  0 < x * x + y * y + z * z ->
  normalize (vec3 x y z)
  = vec3 (x * (1 / sqrt (x * x + y * y + z * z)))
         (y * (1 / sqrt (x * x + y * y + z * z)))
         (z * (1 / sqrt (x * x + y * y + z * z))).
Proof.
  intros HL. pose proof (sqrt_lt_R0 _ HL) as Hs.
  unfold normalize, length. rewrite lengthSq_fin. unfold Math_sqrt.
  destruct (Rlt_dec _ 0) as [Hneg|_]; [lra|].
  destruct (Req_dec_T _ 0) as [Hz|_]; [lra|].
  rewrite div_fin by lra. reflexivity.
Qed.

Lemma sin_cos_square (psi a b : R) :
  (a * sin psi + b * cos psi) * (a * sin psi + b * cos psi) + 0 * 0
  + (a * cos psi - b * sin psi) * (a * cos psi - b * sin psi)
  = a * a + b * b.
Proof.
  pose proof (sin2_cos2 psi) as H. unfold Rsqr in H.
  transitivity ((a * a + b * b) * (sin psi * sin psi + cos psi * cos psi)); [ring|].
  rewrite H. ring.
Qed.

(** [right] is the unit vector a quarter turn from [forward]. *)
Lemma right_value (psi : R) :
  normalize (crossVectors (vec3 0 1 0) (vec3 (sin psi) 0 (cos psi)))
  = vec3 (cos psi) 0 (- sin psi).
Proof.
  change (crossVectors (vec3 0 1 0) (vec3 (sin psi) 0 (cos psi)))
    with (vec3 (1 * cos psi - 0 * 0) (0 * sin psi - 0 * cos psi) (0 * 0 - 1 * sin psi)).
  pose proof (sin2_cos2 psi) as H. unfold Rsqr in H.
  assert (HL : (1 * cos psi - 0 * 0) * (1 * cos psi - 0 * 0)
               + (0 * sin psi - 0 * cos psi) * (0 * sin psi - 0 * cos psi)
               + (0 * 0 - 1 * sin psi) * (0 * 0 - 1 * sin psi) = 1)
    by (transitivity (sin psi * sin psi + cos psi * cos psi); [ring|exact H]).
  rewrite normalize_fin by lra. rewrite HL, sqrt_1.
  unfold vec3. f_equal; f_equal; field.
Qed.

Lemma moveDirection_fin (psi : R) (keys : Keys) :
  moveDirection (Fin psi) keys
  = vec3 (ahead keys * sin psi + aside keys * cos psi) 0
         (ahead keys * cos psi - aside keys * sin psi).
Proof.
  unfold moveDirection. cbn [Num.Math_sin Num.Math_cos].
  change (mkVector3 (Fin 0) (Fin 1) (Fin 0)) with (vec3 0 1 0).
  change (mkVector3 (Fin (sin psi)) (Fin 0) (Fin (cos psi)))
    with (vec3 (sin psi) 0 (cos psi)).
  rewrite right_value. unfold ahead, aside.
  destruct keys as [w a s d sh]. cbn [key_w key_a key_s key_d].
  destruct w, s, a, d;
    unfold vec3, zero3, v_add, v_sub;
    cbn [vx vy vz Num.add Num.sub Num.neg];
    f_equal; f_equal; ring.
Qed.

Lemma asks_squares (keys : Keys) :
  let q := ahead keys * ahead keys + aside keys * aside keys in
  if asksToMove keys then 1 <= q <= 2 else q = 0.
Proof.
  cbv zeta. unfold asksToMove, ahead, aside.
  destruct keys as [w a s d sh]. cbn [key_w key_a key_s key_d].
  destruct w, s, a, d; cbn [xorb orb]; lra.
Qed.

Lemma isMoving_asks (psi : R) (keys : Keys) :
  isMoving (moveDirection (Fin psi) keys) = asksToMove keys.
Proof.
  rewrite moveDirection_fin. unfold isMoving. rewrite lengthSq_fin, sin_cos_square.
  pose proof (asks_squares keys) as H. cbv zeta in H.
  unfold Num.gtb, Num.ltb.
  destruct (asksToMove keys); destruct (Rlt_dec _ _); try reflexivity; lra.
Qed.

Lemma speed_value (keys : Keys) (delta : R) :
  Num.mul (Num.mul MOVE_SPEED
             (if key_shift keys && key_w keys then SPRINT_MULTIPLIER else Fin 1))
          (Fin delta)
  = Fin (speedOf keys * delta).
Proof.
  unfold speedOf, MOVE_SPEED, SPRINT_MULTIPLIER.
  destruct (key_shift keys && key_w keys); cbn [Num.mul]; f_equal; ring.
Qed.

Lemma unit_scaled (X Z k : R) :
  0 < X * X + 0 * 0 + Z * Z ->
  (X * (1 / sqrt (X * X + 0 * 0 + Z * Z)) * k) * (X * (1 / sqrt (X * X + 0 * 0 + Z * Z)) * k)
  + (Z * (1 / sqrt (X * X + 0 * 0 + Z * Z)) * k) * (Z * (1 / sqrt (X * X + 0 * 0 + Z * Z)) * k)
  = k * k.
Proof.
  intros HL. set (L := X * X + 0 * 0 + Z * Z) in *.
  assert (Hs : 0 < sqrt L) by (apply sqrt_lt_R0; lra).
  assert (Hss : sqrt L * sqrt L = L) by (apply sqrt_sqrt; lra).
  transitivity ((X * X + Z * Z) / (sqrt L * sqrt L) * (k * k)).
  - field. lra.
  - rewrite Hss. replace (X * X + Z * Z) with L by (unfold L; ring).
    field. lra.
Qed.

(** The walk the keys ask for, at a finite yaw: the direction is scaled to
    length one and then by the speed times the frame time. *)
Lemma walk_moving (psi delta x y z : R) (keys : Keys) :
  asksToMove keys = true ->
  let X := ahead keys * sin psi + aside keys * cos psi in
  let Z := ahead keys * cos psi - aside keys * sin psi in
  0 < X * X + 0 * 0 + Z * Z /\
  walk (Fin psi) keys (Fin delta) (vec3 x y z)
  = vec3 (x + X * (1 / sqrt (X * X + 0 * 0 + Z * Z)) * (speedOf keys * delta)) y
         (z + Z * (1 / sqrt (X * X + 0 * 0 + Z * Z)) * (speedOf keys * delta)).
Proof.
  intros Hk. cbv zeta. unfold walk. rewrite isMoving_asks, Hk, speed_value.
  rewrite moveDirection_fin.
  pose proof (asks_squares keys) as Hq. cbv zeta in Hq. rewrite Hk in Hq.
  set (X := ahead keys * sin psi + aside keys * cos psi).
  set (Z := ahead keys * cos psi - aside keys * sin psi).
  assert (HL : X * X + 0 * 0 + Z * Z = ahead keys * ahead keys + aside keys * aside keys)
    by apply sin_cos_square.
  split; [lra|].
  rewrite normalize_fin by lra.
  unfold vec3, v_add, multiplyScalar. cbn [vx vy vz Num.add Num.mul].
  f_equal. f_equal. ring.
Qed.

(** X17.  With a finite yaw and frame time, a walk the keys ask for moves
    the avatar by the speed times the frame time, whatever the direction:
    5 units per second, 10 with shift and [w] held; two keys at a right
    angle give no more than one, and the height does not change. *)
Theorem walk_covers_speed_times_delta (psi delta x y z : R) (keys : Keys) :
  asksToMove keys = true ->
  exists dx dz : R,
    walk (Fin psi) keys (Fin delta) (vec3 x y z) = vec3 (x + dx) y (z + dz) /\
    dx * dx + dz * dz = (speedOf keys * delta) * (speedOf keys * delta).
Proof.
  intros Hk.
  destruct (walk_moving psi delta x y z keys Hk) as [HL Hw]. cbv zeta in HL, Hw.
  eexists _, _. split; [exact Hw|].
  apply unit_scaled. exact HL.
Qed.

Lemma walk_covers_speed_times_delta_witness :
  exists dx dz : R,
    walk (Fin 0) (mkKeys true true false false true) (Fin 0.016) (vec3 0 0 0)
    = vec3 (0 + dx) 0 (0 + dz) /\
    dx * dx + dz * dz
    = (speedOf (mkKeys true true false false true) * 0.016)
      * (speedOf (mkKeys true true false false true) * 0.016).
Proof.
  apply (walk_covers_speed_times_delta 0 0.016 0 0 0 (mkKeys true true false false true)).
  reflexivity.
Defined.

Lemma right_NaN :
  normalize (crossVectors (mkVector3 (Fin 0) (Fin 1) (Fin 0)) (mkVector3 NaN (Fin 0) NaN))
  = mkVector3 NaN NaN NaN.
Proof. reflexivity. Qed.

Lemma moveDirection_not_finite (keys : Keys) :
  isMoving
    (let forward := mkVector3 NaN (Fin 0) NaN in
     let right := mkVector3 NaN NaN NaN in
     let move := zero3 in
     let move := if key_w keys then v_add move forward else move in
     let move := if key_s keys then v_sub move forward else move in
     let move := if key_a keys then v_add move right else move in
     let move := if key_d keys then v_sub move right else move in
     move) = false.
Proof.
  destruct keys as [w a s d sh]. cbn [key_w key_a key_s key_d].
  unfold isMoving, Num.gtb.
  destruct w, s, a, d; cbn; try reflexivity;
    destruct (Rlt_dec _ _); try reflexivity; lra.
Qed.

(** Keys that cancel, or a yaw that is not finite, give no direction. *)
Lemma isMoving_false (yaw : num) (keys : Keys) :
  asksToMove keys = false \/ isFinite yaw = false ->
  isMoving (moveDirection yaw keys) = false.
Proof.
  intros H. destruct yaw as [psi| | |].
  - destruct H as [H|H]; [|discriminate]. rewrite isMoving_asks. exact H.
  - unfold moveDirection. cbn [Num.Math_sin Num.Math_cos]. rewrite right_NaN.
    apply moveDirection_not_finite.
  - unfold moveDirection. cbn [Num.Math_sin Num.Math_cos]. rewrite right_NaN.
    apply moveDirection_not_finite.
  - unfold moveDirection. cbn [Num.Math_sin Num.Math_cos]. rewrite right_NaN.
    apply moveDirection_not_finite.
Qed.

(** X18.  The avatar stays where it is, whatever its position and the frame
    time, when the keys held cancel ([w] with [s], [a] with [d]) or none is
    held, and also when the yaw is not a finite number. *)
Theorem walk_stands_still (yaw delta : num) (keys : Keys) (pos : Vector3) :
  asksToMove keys = false \/ isFinite yaw = false ->
  walk yaw keys delta pos = pos.
Proof.
  intros H. unfold walk.
  rewrite (isMoving_false yaw keys H). reflexivity.
Qed.

Lemma walk_stands_still_witness :
  walk (Fin 1) (mkKeys true true true true true) (Fin 0.016) (vec3 3 0 4) = vec3 3 0 4.
Proof.
  apply (walk_stands_still (Fin 1) (Fin 0.016) (mkKeys true true true true true)).
  left. reflexivity.
Defined.

Lemma within_32 (d s : R) : d * d <= s * s -> Rabs s <= 32 -> Rabs d <= 32.
Proof.
  intros Hd Hs.
  assert (Hs' : - 32 <= s <= 32).
  { pose proof (Rle_abs s). pose proof (Rle_abs (- s)) as Hn.
    rewrite Rabs_Ropp in Hn. lra. }
  unfold Rabs. destruct (Rcase_abs d); nra.
Qed.

(** X21.  With a finite yaw, at the sprint speed a frame has to last more
    than 3.2 seconds for the walk to skip a chunk: for frame times up to
    that, the chunk of the avatar after the walk is the one before it or one
    of its eight neighbours. *)
Theorem walk_reaches_a_neighbour_at_most (psi delta x y z : R) (keys : Keys) :
  10 * Rabs delta <= 32 ->
  exists a b a' b' : Z,
    let pos' := walk (Fin psi) keys (Fin delta) (vec3 x y z) in
    Streaming.worldToChunk (Fin x) (Fin z) = (Fin a, Fin b) /\
    Streaming.worldToChunk (vx pos') (vz pos') = (Fin a', Fin b') /\
    (Z.abs (a' - a) <= 1)%Z /\ (Z.abs (b' - b) <= 1)%Z.
Proof.
  intros Hd. cbv zeta.
  destruct (asksToMove keys) eqn:Hk.
  - destruct (walk_moving psi delta x y z keys Hk) as [HL Hw]. cbv zeta in HL, Hw.
    pose proof (unit_scaled _ _ (speedOf keys * delta) HL) as Hlen.
    rewrite Hw. cbn [vx vz vec3]. rewrite !worldToChunk_finite.
    eexists _, _, _, _.
    split; [reflexivity|]. split; [reflexivity|].
    assert (Hs : Rabs (speedOf keys * delta) <= 32).
    { rewrite Rabs_mult. pose proof (Rabs_pos delta) as Hp.
      unfold speedOf. destruct (key_shift keys && key_w keys);
        rewrite Rabs_right by lra; lra. }
    split; apply floor_neighbour.
    + match goal with |- Rabs (x + ?dx - x) <= 32 =>
        replace (x + dx - x) with dx by ring;
        apply (within_32 dx (speedOf keys * delta)); [|exact Hs] end.
      rewrite <- Hlen.
      match goal with |- ?a <= ?a + ?b * ?b =>
        pose proof (Rle_0_sqr b) as Hsq; unfold Rsqr in Hsq; lra end.
    + match goal with |- Rabs (z + ?dz - z) <= 32 =>
        replace (z + dz - z) with dz by ring;
        apply (within_32 dz (speedOf keys * delta)); [|exact Hs] end.
      rewrite <- Hlen.
      match goal with |- ?a <= ?b * ?b + ?a =>
        pose proof (Rle_0_sqr b) as Hsq; unfold Rsqr in Hsq; lra end.
  - unfold walk. rewrite (isMoving_false (Fin psi) keys (or_introl Hk)).
    cbn [vx vz vec3]. rewrite worldToChunk_finite.
    eexists _, _, _, _.
    split; [reflexivity|]. split; [reflexivity|].
    rewrite !Z.sub_diag. cbn. lia.
Qed.

Lemma walk_reaches_a_neighbour_at_most_witness :
  exists a b a' b' : Z,
    let pos' := walk (Fin 0) (mkKeys true false false false true) (Fin 3.2) (vec3 31 0 31) in
    Streaming.worldToChunk (Fin 31) (Fin 31) = (Fin a, Fin b) /\
    Streaming.worldToChunk (vx pos') (vz pos') = (Fin a', Fin b') /\
    (Z.abs (a' - a) <= 1)%Z /\ (Z.abs (b' - b) <= 1)%Z.
Proof.
  apply (walk_reaches_a_neighbour_at_most 0 3.2 31 0 31 (mkKeys true false false false true)).
  rewrite Rabs_right; lra.
Defined.

End WalkFacts.

(** ** The contents of a chunk *)

Section LayoutFacts.
Import Layout.
Local Open Scope R_scope.

Lemma createBuildingMesh_footprint (cx cz : R) (r : Draws) (x z : R) :
  fair r -> underBox (createBuildingMesh cx cz 10 r) x z ->
  cx - 5 < x < cx + 5 /\ cz - 5 < z < cz + 5.
Proof.
  unfold fair, underBox, createBuildingMesh.
  cbn [box_cx box_cz box_sx box_sz]. intros (_ & Hw & Hd & _) H. lra.
Qed.

Lemma createBuildingMesh_shape (cx cz : R) (r : Draws) :
  fair r ->
  let b := createBuildingMesh cx cz 10 r in
  6 <= box_sy b < 18 /\ grounded b /\ (0 <= box_material b <= 3)%Z /\
  6 <= box_sx b < 10 /\ 6 <= box_sz b < 10.
Proof.
  unfold fair, grounded, createBuildingMesh. cbv zeta.
  cbn [box_cy box_sy box_sx box_sz box_material].
  intros (Hh & Hw & Hd & Hm).
  split; [lra|]. split; [lra|]. split; [|lra].
  pose proof (Int_part_bounds (draw_material r * 4)) as Hb.
  assert (Hlo : (-1 < Int_part (draw_material r * 4))%Z) by (apply lt_IZR; lra).
  assert (Hhi : (Int_part (draw_material r * 4) < 4)%Z) by (apply lt_IZR; lra).
  lia.
Qed.

(** X19.  Whatever [Math.random] returns, each of the four buildings of a
    chunk stands on the ground, is at least 6 and less than 18 high, gets
    one of the four materials, and has its footprint on the ground of its
    chunk and off both roads; no two of the four overlap. *)
Theorem buildings_stand_clear (cx cz : Z) (r1 r2 r3 r4 : Draws) :
  fair r1 -> fair r2 -> fair r3 -> fair r4 ->
  let c := buildCityChunk cx cz r1 r2 r3 r4 in
  (forall b : Box, b ∈ buildings c ->
     grounded b /\ 6 <= box_sy b < 18 /\ (0 <= box_material b <= 3)%Z /\
     forall x z : R, underBox b x z ->
       onPlane (ground c) x z /\ ~ onPlane (hRoad c) x z /\ ~ onPlane (vRoad c) x z) /\
  (forall (i j : nat) (b1 b2 : Box),
     i <> j -> buildings c !! i = Some b1 -> buildings c !! j = Some b2 ->
     forall x z : R, ~ (underBox b1 x z /\ underBox b2 x z)).
Proof.
  intros H1 H2 H3 H4. cbv zeta. unfold buildCityChunk, CHUNK_SIZE.
  cbn [buildings ground hRoad vRoad].
  set (oX := IZR cx * 32). set (oZ := IZR cz * 32).
  split.
  - intros b Hb.
    assert (Hcase : exists (x0 z0 : R) (r : Draws),
               b = createBuildingMesh x0 z0 10 r /\ fair r /\
               (x0 = oX + 8 \/ x0 = oX + 32 - 8) /\ (z0 = oZ + 8 \/ z0 = oZ + 32 - 8)).
    { repeat (apply elem_of_cons in Hb; destruct Hb as [->|Hb]);
        [eexists _, _, _; split; [reflexivity|]; split; [eassumption|]; split; auto ..|].
      apply elem_of_nil in Hb. contradiction. }
    destruct Hcase as (x0 & z0 & r & -> & Hr & Hx0 & Hz0).
    destruct (createBuildingMesh_shape x0 z0 r Hr) as (Hh & Hg & Hm & _).
    split; [exact Hg|]. split; [exact Hh|]. split; [exact Hm|].
    intros x z Hu. apply (createBuildingMesh_footprint x0 z0 r x z Hr) in Hu.
    unfold onPlane. cbn [plane_cx plane_cz plane_sx plane_sz].
    destruct Hx0 as [-> | ->], Hz0 as [-> | ->]; (split; [lra|split; lra]).
  - intros i j b1 b2 Hij Hi Hj x z [Hu1 Hu2].
    destruct i as [|[|[|[|i]]]]; cbn in Hi; try discriminate;
      destruct j as [|[|[|[|j]]]]; cbn in Hj; try discriminate;
      try (exfalso; apply Hij; reflexivity);
      injection Hi as <-; injection Hj as <-;
      apply createBuildingMesh_footprint in Hu1; try assumption;
      apply createBuildingMesh_footprint in Hu2; try assumption; lra.
Qed.

Lemma buildings_stand_clear_witness :
  let r := mkDraws 0 0.5 0.25 0.75 in
  let c := buildCityChunk 0 (-1) r r r r in
  (forall b : Box, b ∈ buildings c ->
     grounded b /\ 6 <= box_sy b < 18 /\ (0 <= box_material b <= 3)%Z /\
     forall x z : R, underBox b x z ->
       onPlane (ground c) x z /\ ~ onPlane (hRoad c) x z /\ ~ onPlane (vRoad c) x z) /\
  (forall (i j : nat) (b1 b2 : Box),
     i <> j -> buildings c !! i = Some b1 -> buildings c !! j = Some b2 ->
     forall x z : R, ~ (underBox b1 x z /\ underBox b2 x z)).
Proof.
  assert (Hr : fair (mkDraws 0 0.5 0.25 0.75)) by (unfold fair; simpl; lra).
  exact (buildings_stand_clear 0 (-1) _ _ _ _ Hr Hr Hr Hr).
Defined.

(** X20.  A point is on the ground of the chunk that [worldToChunk] gives
    for it, whatever the buildings drawn; and the chunk of a point on the
    ground of a chunk is that chunk or, on the far edges, the next one. *)
Theorem ground_covers_cell (x z : R) (cx cz : Z) (r1 r2 r3 r4 : Draws) :
  let c := buildCityChunk cx cz r1 r2 r3 r4 in
  (Streaming.worldToChunk (Fin x) (Fin z) = (Fin cx, Fin cz) -> onPlane (ground c) x z) /\
  (onPlane (ground c) x z ->
   exists a b : Z,
     Streaming.worldToChunk (Fin x) (Fin z) = (Fin a, Fin b) /\
     (cx <= a <= cx + 1)%Z /\ (cz <= b <= cz + 1)%Z).
Proof.
  cbv zeta. unfold onPlane, buildCityChunk, CHUNK_SIZE.
  cbn [ground plane_cx plane_cz plane_sx plane_sz].
  rewrite worldToChunk_finite.
  pose proof (Int_part_bounds (x / 32)) as Hx.
  pose proof (Int_part_bounds (z / 32)) as Hz.
  split.
  - intros [= <- <-]. lra.
  - intros [Hgx Hgz]. exists (Int_part (x / 32)), (Int_part (z / 32)).
    split; [reflexivity|].
    assert (Hlt : forall (p : Z) (v : R),
               IZR p * 32 + 32 / 2 - 32 / 2 <= v <= IZR p * 32 + 32 / 2 + 32 / 2 ->
               IZR (Int_part (v / 32)) <= v / 32 < IZR (Int_part (v / 32)) + 1 ->
               (p <= Int_part (v / 32) <= p + 1)%Z).
    { intros p v Hv Hb.
      assert (Hlo : (p - 1 < Int_part (v / 32))%Z)
        by (apply lt_IZR; rewrite minus_IZR; lra).
      assert (Hhi : (Int_part (v / 32) < p + 2)%Z)
        by (apply lt_IZR; rewrite plus_IZR; lra).
      lia. }
    split; apply Hlt; assumption.
Qed.

End LayoutFacts.
